(** * Achievement scoring and trip metrics of the "odznaki" application

    A shallow embedding of the service layer of the Django application
    [odznaki] (badges earned by visiting points of interest, hiking-trip
    statistics) together with the properties its specification states.

    Conventions of the embedding:
    - a Python [date] is the triple (year, month, day), compared
      lexicographically as [datetime.date] does;
    - a Python [float] is embedded twice.  The modules [Float],
      [Scoring64] and [Trip64] take it as the IEEE 754 double it is, with
      the correctly rounded operations of the standard; the numbers the
      code computes (the share of a badge, [got_points],
      [everest_diff_m]) are stated there.  The modules [Scoring],
      [ScoringQueryset], [Trip] and [ElevationChart] read it as an exact
      rational ([Q]); they carry the properties that rest on the order of
      the operations, the order of two numbers or the structure of the
      data, not on the rounding of a sum or a quotient;
    - [round] is the round-half-to-even of Python 3, [math.floor] is the
      floor of the number;
    - a dictionary whose iteration order is observable is an association
      list in insertion order, other dictionaries and the Django cache are
      [gmap]s;
    - a statement that can raise returns [option] ([None] is the
      exception), except for the GPX parser whose exceptions are named. *)

From stdpp Require Import base option list gmap strings fin_maps sorting pretty.
From Stdlib Require Import ZArith QArith Qround Qminmax Lia Lqa.
From Stdlib Require Import Floats.SpecFloat.

Local Close Scope Q_scope.
Local Open Scope Z_scope.

(** ** Python values shared by the services *)

Module Py.

(** [datetime.date]: ordered as the tuple (year, month, day). *)
Record date := mk_date { year : Z; month : Z; day : Z }.

Definition date_leb (a b : date) : bool :=
  if year a <? year b then true
  else if year b <? year a then false
  else if month a <? month b then true
  else if month b <? month a then false
  else day a <=? day b.

(** [a >= b] on dates is [b <= a]. *)
Definition date_geb (a b : date) : bool := date_leb b a.

(** [max(a, b)] of two numbers: the first argument unless the second is
    strictly greater. *)
Definition max (a b : Q) : Q := if Qle_bool b a then a else b.

(** [min(a, b)] of two numbers: the first argument unless the second is
    strictly smaller. *)
Definition min (a b : Q) : Q := if Qle_bool a b then a else b.

(** [round(x)]: to the nearest integer, ties to the even one. *)
Definition round (x : Q) : Z :=
  let f := Qfloor x in
  match Qcompare (x - inject_Z f) (1 # 2) with
  | Lt => f
  | Gt => f + 1
  | Eq => if Z.even f then f else f + 1
  end.

(** [round(x, 2)]: to two decimals. *)
Definition round2 (x : Q) : Q := (inject_Z (round (x * 100)) / 100)%Q.

(** [math.floor]. *)
Definition floor (x : Q) : Z := Qfloor x.

End Py.

Export Py(date, mk_date).

(** ** The "visit claims a badge window" test *)

Module Window.

(** The test written inline at every call site:
    [(not start_date or visit_date >= start_date) and
     (not end_date or visit_date <= end_date)].
    [not d] holds of [None] only, a [date] object is always truthy. *)
Definition visit_in_window (start_date end_date : option date)
    (visit_date : date) : bool :=
  match start_date with
  | None => true
  | Some s => Py.date_geb visit_date s
  end
  &&
  match end_date with
  | None => true
  | Some e => Py.date_leb visit_date e
  end.

(** Status calculator, [POIStatusCalculator._determine_status]:
    [is_claimed = any(<test> for visit_date in visit_dates)]. *)
Definition status_is_claimed (start_date end_date : option date)
    (visit_dates : list date) : bool :=
  existsb (visit_in_window start_date end_date) visit_dates.

(** Scoring engine, [calculate_poi_scores]: the loop
    [for visit_date in ...: if <test>: is_claimed = True; break]. *)
Fixpoint scoring_is_claimed (start_date end_date : option date)
    (visit_dates : list date) : bool :=
  match visit_dates with
  | [] => false
  | visit_date :: rest =>
      if visit_in_window start_date end_date visit_date then true
      else scoring_is_claimed start_date end_date rest
  end.

(** The predicate in the words of the specification: the visit date [d]
    claims the window when each bound is absent or respected, bounds
    included. *)
Definition claims_spec (start_date end_date : option date) (d : date) : Prop :=
  (start_date = None ∨ ∃ s, start_date = Some s ∧ Py.date_leb s d = true) ∧
  (end_date = None ∨ ∃ e, end_date = Some e ∧ Py.date_leb d e = true).

End Window.

(** ** POI status calculator ([point_of_interest_service.py]) *)

Module Status.

(** The four states, named as the strings the service returns. *)
Inductive status := nieaktywny | niezdobyty | do_ponowienia | zdobyty.

(** One row of [requirements_data_by_poi_id]: the badge fields read for a
    requirement of the POI. *)
Record badge_data := mk_badge_data {
  is_fully_achieved : bool;
  start_date : option date;
  end_date : option date
}.

(** The filter of the list comprehension [active_badges_data]. *)
Definition is_active (today : date) (b : badge_data) : bool :=
  negb (is_fully_achieved b)
  && match start_date b with None => true | Some s => Py.date_leb s today end
  && match end_date b with None => true | Some e => Py.date_geb e today end.

(** The counting loop over [active_badges_data]. *)
Fixpoint claimed_badges_count (visit_dates : list date)
    (active_badges_data : list badge_data) : nat :=
  match active_badges_data with
  | [] => 0%nat
  | b :: rest =>
      let is_claimed :=
        Window.status_is_claimed (start_date b) (end_date b) visit_dates in
      ((if is_claimed then 1 else 0) + claimed_badges_count visit_dates rest)%nat
  end.

(** [POIStatusCalculator._determine_status]; [today] is [self.today]. *)
Definition _determine_status (today : date) (visit_dates : list date)
    (badges_data : list badge_data) : status :=
  match badges_data with
  | [] => nieaktywny
  | _ =>
      let active_badges_data := List.filter (is_active today) badges_data in
      match active_badges_data with
      | [] => nieaktywny
      | _ =>
          if Nat.eqb (claimed_badges_count visit_dates active_badges_data)
                     (length active_badges_data)
          then zdobyty
          else match visit_dates with
               | _ :: _ => do_ponowienia
               | [] => niezdobyty
               end
      end
  end.

(** The notions of the specification, stated on one requirement badge. *)

(** Active: not fully achieved and today within [start_date, end_date],
    an absent bound being always satisfied. *)
Definition active_spec (today : date) (b : badge_data) : Prop :=
  is_fully_achieved b = false ∧
  (∀ s, start_date b = Some s → Py.date_leb s today = true) ∧
  (∀ e, end_date b = Some e → Py.date_leb today e = true).

(** Claimed: some visit date lies within the badge window. *)
Definition claimed_spec (visit_dates : list date) (b : badge_data) : Prop :=
  ∃ d, d ∈ visit_dates ∧ Window.claims_spec (start_date b) (end_date b) d.

End Status.

(** ** The models read by the scoring engine *)

Module Badge.
(** The fields of [odznaki.models.Badge] the services read. *)
Record t := mk {
  id : Z;
  start_date : option date;
  end_date : option date;
  is_fully_achieved : bool
}.
End Badge.

Module PointOfInterest.
(** The fields of [odznaki.models.PointOfInterest] the services read;
    [parent] is [None] exactly when [parent_id] is, and [mesoregion] is
    represented by the region's name. *)
Record t := mk {
  id : Z;
  name : string;
  parent_id : option Z;
  mesoregion : option string
}.
End PointOfInterest.

(** The tables, each as the rows its default query returns, in order. *)
Record Database := mk_db {
  Visit_objects : list (Z * date);            (* (point_of_interest_id, visit_date) *)
  Badge_objects : list Badge.t;
  BadgeRequirement_objects : list (Z * Z);    (* (badge_id, point_of_interest_id) *)
  PointOfInterest_objects : list PointOfInterest.t
}.

(** ** Insertion-ordered dictionaries *)

Module Dict.
Section dict.
Context {K V : Type} `{EqDecision K}.

(** [d.get(k)] *)
Fixpoint get (k : K) (d : list (K * V)) : option V :=
  match d with
  | [] => None
  | (k', v) :: rest => if decide (k = k') then Some v else get k rest
  end.

(** [d[k] = v]: an existing key keeps its position. *)
Fixpoint set (k : K) (v : V) (d : list (K * V)) : list (K * V) :=
  match d with
  | [] => [(k, v)]
  | (k', v') :: rest =>
      if decide (k = k') then (k', v) :: rest else (k', v') :: set k v rest
  end.

Definition keys (d : list (K * V)) : list K := map fst d.
Definition values (d : list (K * V)) : list V := map snd d.
End dict.

(** [d[k].append(x)] on a [defaultdict(list)]. *)
Definition append {K X : Type} `{EqDecision K} (k : K) (x : X)
    (d : list (K * list X)) : list (K * list X) :=
  set k (default [] (get k d) ++ [x]) d.

(** The values of the rows with key [k], in order: the list a
    [defaultdict(list)] holds under [k] after one [append] per row. *)
Definition grouped {R X : Type} (f : R → Z) (g : R → X) (k : Z)
    (rows : list R) : list X :=
  map g (List.filter (λ r, bool_decide (f r = k)) rows).
End Dict.

(** [sorted(l, key=key, reverse=True)]: the stable sort in descending
    order of [key] (elements with equal keys keep their order). *)
Section sorted_desc.
Context {A : Type} (key : A → Q).

Fixpoint insert_desc (x : A) (l : list A) : list A :=
  match l with
  | [] => [x]
  | y :: rest =>
      if Qle_bool (key y) (key x) then x :: y :: rest
      else y :: insert_desc x rest
  end.

Definition sorted_desc (l : list A) : list A := foldr insert_desc [] l.
End sorted_desc.

(** ** Scoring engine ([scoring_service.py]) *)

Module Scoring.

(** An entry of a POI ranking: the dictionary
    [{'poi': ..., 'score': ..., 'badges': []}], with the key
    ['aggregated_from'] present once the parent rollup has added to it. *)
Record ScoreItem := mk_item {
  poi : PointOfInterest.t;
  score : Q;
  badges : list Z;
  aggregated_from : option (list string)
}.

(** An entry of the region ranking. *)
Record RegionItem := mk_region {
  mesoregion_name : string;
  total_score : Q;
  poi_count : nat;
  top_pois : list ScoreItem
}.

(** [visits_by_poi.get(poi_id, [])] *)
Definition visits_of (visits_by_poi : gmap Z (list date)) (poi_id : Z) : list date :=
  default [] (visits_by_poi !! poi_id).

(** The claimed test of the engine on a badge object. *)
Definition is_claimed (badge : Badge.t) (visit_dates : list date) : bool :=
  Window.scoring_is_claimed (Badge.start_date badge) (Badge.end_date badge)
    visit_dates.

(** [{b.id: b for b in active_badges}] *)
Definition active_badges_map (active_badges : list Badge.t) : gmap Z Badge.t :=
  foldl (λ m b, <[Badge.id b := b]> m) ∅ active_badges.

(** [BadgeRequirement.objects.filter(badge_id__in=active_badge_ids)] *)
Definition requirements_of (db : Database) (active_badge_ids : list Z) : list (Z * Z) :=
  List.filter (λ req, bool_decide (req.1 ∈ active_badge_ids))
    (BadgeRequirement_objects db).

Definition pois_by_badge (requirements : list (Z * Z)) : list (Z * list Z) :=
  foldl (λ d req, Dict.append req.1 req.2 d) [] requirements.

Definition badges_by_poi (requirements : list (Z * Z)) : list (Z * list Z) :=
  foldl (λ d req, Dict.append req.2 req.1 d) [] requirements.

(** The inner loop counting the claimed POIs of one badge. *)
Fixpoint claimed_count (badge : Badge.t) (visits_by_poi : gmap Z (list date))
    (poi_ids : list Z) : Z :=
  match poi_ids with
  | [] => 0
  | poi_id :: rest =>
      (if is_claimed badge (visits_of visits_by_poi poi_id) then 1 else 0)
      + claimed_count badge visits_by_poi rest
  end.

(** The loop filling [remaining_counts]; [active_badges_map[badge_id]]
    raises [KeyError] on an unknown id. *)
Fixpoint remaining_counts_loop (badges_map : gmap Z Badge.t)
    (visits_by_poi : gmap Z (list date)) (items : list (Z * list Z))
    (remaining_counts : gmap Z Z) : option (gmap Z Z) :=
  match items with
  | [] => Some remaining_counts
  | (badge_id, poi_ids) :: rest =>
      match badges_map !! badge_id with
      | None => None
      | Some badge =>
          let total_reqs := Z.of_nat (length poi_ids) in
          remaining_counts_loop badges_map visits_by_poi rest
            (<[badge_id := total_reqs - claimed_count badge visits_by_poi poi_ids]>
               remaining_counts)
      end
  end.

(** The body of the loop [for badge_id in badge_ids] for one badge: the
    running [score] of the POI after this badge. *)
Definition score_step (badges_map : gmap Z Badge.t) (remaining_counts : gmap Z Z)
    (visit_dates : list date) (score : Q) (badge_id : Z) : option Q :=
  match badges_map !! badge_id with
  | None => None
  | Some badge =>
      if is_claimed badge visit_dates then Some score
      else
        let rem_count := default 0 (remaining_counts !! badge_id) in
        if 0 <? rem_count then Some (score + 100 / inject_Z rem_count)%Q
        else Some score
  end.

Fixpoint score_loop (badges_map : gmap Z Badge.t) (remaining_counts : gmap Z Z)
    (visit_dates : list date) (score : Q) (badge_ids : list Z) : option Q :=
  match badge_ids with
  | [] => Some score
  | badge_id :: rest =>
      match score_step badges_map remaining_counts visit_dates score badge_id with
      | None => None
      | Some score' =>
          score_loop badges_map remaining_counts visit_dates score' rest
      end
  end.

(** The loop filling [poi_scores]: a POI is kept when [score > 0]. *)
Fixpoint poi_scores_loop (badges_map : gmap Z Badge.t) (remaining_counts : gmap Z Z)
    (visits_by_poi : gmap Z (list date)) (items : list (Z * list Z))
    (poi_scores : list (Z * Q)) : option (list (Z * Q)) :=
  match items with
  | [] => Some poi_scores
  | (poi_id, badge_ids) :: rest =>
      match score_loop badges_map remaining_counts
              (visits_of visits_by_poi poi_id) 0%Q badge_ids with
      | None => None
      | Some score =>
          poi_scores_loop badges_map remaining_counts visits_by_poi rest
            (if negb (Qle_bool score 0) then Dict.set poi_id score poi_scores
             else poi_scores)
      end
  end.

(** [{p.id: p for p in PointOfInterest.objects.filter(id__in=ids)}] *)
Definition scored_pois_map (db : Database) (ids : list Z) : gmap Z PointOfInterest.t :=
  foldl (λ m p, <[PointOfInterest.id p := p]> m) ∅
    (List.filter (λ p, bool_decide (PointOfInterest.id p ∈ ids))
       (PointOfInterest_objects db)).

(** The loop building [results_list]: a score whose POI row is missing is
    skipped. *)
Fixpoint results_list (pois_map : gmap Z PointOfInterest.t)
    (poi_scores : list (Z * Q)) : list ScoreItem :=
  match poi_scores with
  | [] => []
  | (poi_id, s) :: rest =>
      match pois_map !! poi_id with
      | Some poi_obj => mk_item poi_obj s [] None :: results_list pois_map rest
      | None => results_list pois_map rest
      end
  end.

(** [remaining_counts] as [calculate_poi_scores] fills it. *)
Definition remaining_counts (db : Database) (active_badges : list Badge.t)
    (visits_by_poi : gmap Z (list date)) : option (gmap Z Z) :=
  remaining_counts_loop (active_badges_map active_badges) visits_by_poi
    (pois_by_badge (requirements_of db (map Badge.id active_badges))) ∅.

(** [calculate_poi_scores(active_badges, visits_by_poi)] *)
Definition calculate_poi_scores (db : Database) (active_badges : list Badge.t)
    (visits_by_poi : gmap Z (list date)) : option (list ScoreItem) :=
  let active_badge_ids := map Badge.id active_badges in
  let badges_map := active_badges_map active_badges in
  let requirements := requirements_of db active_badge_ids in
  match remaining_counts db active_badges visits_by_poi with
  | None => None
  | Some remaining_counts =>
      match poi_scores_loop badges_map remaining_counts visits_by_poi
              (badges_by_poi requirements) [] with
      | None => None
      | Some [] => Some []
      | Some poi_scores =>
          Some (sorted_desc score
                  (results_list (scored_pois_map db (Dict.keys poi_scores))
                     poi_scores))
      end
  end.

(** *** The quantities of the specification *)

(** The POIs a badge requires. *)
Definition required_pois (db : Database) (badge_id : Z) : list Z :=
  map snd (List.filter (λ req, bool_decide (req.1 = badge_id))
             (BadgeRequirement_objects db)).

(** Those of them the badge counts as claimed. *)
Definition claimed_pois (db : Database) (visits_by_poi : gmap Z (list date))
    (b : Badge.t) : list Z :=
  List.filter (λ poi_id, is_claimed b (visits_of visits_by_poi poi_id))
    (required_pois db (Badge.id b)).

(** [remaining(b)]: total required POIs of [b] minus claimed POIs of [b]. *)
Definition remaining (db : Database) (visits_by_poi : gmap Z (list date))
    (b : Badge.t) : Z :=
  Z.of_nat (length (required_pois db (Badge.id b)))
  - Z.of_nat (length (claimed_pois db visits_by_poi b)).

(** *** Parent rollup

    The entries of [base_scores_list] are dictionaries shared by reference
    between the list, [scores_dict] and the result, and the rollup updates
    them in place.  The store below holds the entries at the positions of
    [base_scores_list]; a reference to an entry is its position. *)

(** [{item['poi'].id: item for item in base_scores_list}] *)
Definition scores_dict_of (base_scores_list : list ScoreItem) : list (Z * nat) :=
  foldl (λ d ix, Dict.set (PointOfInterest.id (poi ix.2)) ix.1 d) []
    (imap (λ i item, (i, item)) base_scores_list).

(** [[item['poi'] for item in base_scores_list
      if item['poi'].parent is not None]] *)
Definition children_of (base_scores_list : list ScoreItem) : list PointOfInterest.t :=
  List.filter (λ p, bool_decide (is_Some (PointOfInterest.parent_id p)))
    (map poi base_scores_list).

(** [child.parent_id in scores_dict] followed by
    [scores_dict[child.parent_id]]. *)
Definition parent_ref (scores_dict : list (Z * nat)) (child : PointOfInterest.t) : option nat :=
  match PointOfInterest.parent_id child with
  | None => None
  | Some pid => Dict.get pid scores_dict
  end.

(** The body of [for child in children].  References held by
    [scores_dict] always resolve in the store. *)
Definition aggregate_child (scores_dict : list (Z * nat))
    (store : list ScoreItem) (child : PointOfInterest.t) : list ScoreItem :=
  match Dict.get (PointOfInterest.id child) scores_dict,
        parent_ref scores_dict child with
  | Some c, Some p =>
      match store !! c, store !! p with
      | Some child_score_item, Some parent_score_item =>
          <[p := mk_item (poi parent_score_item)
                   (score parent_score_item + score child_score_item)%Q
                   (badges parent_score_item)
                   (Some (default [] (aggregated_from parent_score_item)
                          ++ [PointOfInterest.name (poi child_score_item)]))]>
            store
      | _, _ => store
      end
  | _, _ => store
  end.

(** [list(scores_dict.values())] read through the store. *)
Definition final_results_list (scores_dict : list (Z * nat))
    (store : list ScoreItem) : list ScoreItem :=
  omap (λ r, store !! r) (Dict.values scores_dict).

(** [_aggregate_parent_scores_from_base]: the returned ranking, and the
    entries of [base_scores_list] as the call leaves them. *)
Definition _aggregate_parent_scores_from_base (base_scores_list : list ScoreItem)
    : list ScoreItem * list ScoreItem :=
  match base_scores_list with
  | [] => ([], [])
  | _ =>
      let scores_dict := scores_dict_of base_scores_list in
      let children := children_of base_scores_list in
      let store := foldl (aggregate_child scores_dict) base_scores_list children in
      (sorted_desc score (final_results_list scores_dict store), store)
  end.

(** The scored children of a POI: the entries of the base list whose
    parent it is, in order. *)
Definition scored_children (base_scores_list : list ScoreItem) (pid : Z)
    : list ScoreItem :=
  List.filter (λ item, bool_decide (PointOfInterest.parent_id (poi item) = Some pid))
    base_scores_list.

(** The scored POIs form two levels: an entry that has a parent has no
    scored children of its own. *)
Definition two_level (base_scores_list : list ScoreItem) : Prop :=
  ∀ item, item ∈ base_scores_list →
    is_Some (PointOfInterest.parent_id (poi item)) →
    scored_children base_scores_list (PointOfInterest.id (poi item)) = [].

(** The entry of a parent after the rollup added the entries [kids]. *)
Definition rolled_up (item : ScoreItem) (kids : list ScoreItem) : ScoreItem :=
  match kids with
  | [] => item
  | _ =>
      mk_item (poi item) (foldl Qplus (score item) (map score kids))
        (badges item)
        (Some (default [] (aggregated_from item)
               ++ map (λ kid, PointOfInterest.name (poi kid)) kids))
  end.

(** The entry of [item] once the children among [processed] have been
    gone through; [processed] is the part of the base list already
    handled, the entry handled last coming first.  Each child of [item]
    among them has added the score its own entry had when its turn came,
    and its name. *)
Fixpoint entry_after (processed : list ScoreItem) (item : ScoreItem) : ScoreItem :=
  match processed with
  | [] => item
  | child :: earlier =>
      let entry := entry_after earlier item in
      if decide (PointOfInterest.parent_id (poi child)
                 = Some (PointOfInterest.id (poi item)))
      then mk_item (poi entry)
             (score entry + score (entry_after earlier child))%Q
             (badges entry)
             (Some (default [] (aggregated_from entry)
                    ++ [PointOfInterest.name (poi child)]))
      else entry
  end.

(** *** Region rollup *)

(** The loop filling [mesoregion_scores], a
    [defaultdict(lambda: {'total_score': 0, 'pois': []})]. *)
Definition add_to_region (d : list (string * (Q * list ScoreItem)))
    (item : ScoreItem) : list (string * (Q * list ScoreItem)) :=
  match PointOfInterest.mesoregion (poi item) with
  | None => d
  | Some region_name =>
      let data := default (0%Q, []) (Dict.get region_name d) in
      Dict.set region_name ((data.1 + score item)%Q, data.2 ++ [item]) d
  end.

Definition _aggregate_mesoregion_scores_from_base (base_scores_list : list ScoreItem)
    : list RegionItem :=
  let mesoregion_scores := foldl add_to_region [] base_scores_list in
  sorted_desc total_score
    (map (λ nd : string * (Q * list ScoreItem),
            mk_region nd.1 nd.2.1 (length nd.2.2)
              (take 5 (sorted_desc score nd.2.2)))
       mesoregion_scores).

End Scoring.

(** ** The cached entry points of [scoring_service.py] *)

Module ScoringCache.
Import Scoring.

(** The result dictionary of [calculate_all_dashboard_scores]: an absent
    key is [None]. *)
Record results := mk_results {
  poi_ranking : option (list ScoreItem);
  region_ranking : option (list RegionItem);
  top_pois : option (list ScoreItem);
  top_regions : option (list RegionItem)
}.

(** The values the services store in the Django cache. *)
Inductive value :=
| ScoringData (visits_by_poi : gmap Z (list date)) (active_badges : list Badge.t)
| DashboardScores (r : results)
| Ranking (full_ranking : list ScoreItem).

(** The Django cache: [cache.get] is lookup, [cache.set] is insert (an
    entry that has timed out is an absent one), [cache.delete] is delete. *)
Abbreviation cache := (gmap string value).

(** A cached computation: the returned value and the cache it leaves, or
    [None] when an exception is raised. *)
Definition cached (A : Type) : Type := cache → option (A * cache).

(** The rows of [Visit.objects.values(...)] grouped by POI. *)
Definition visits_by_poi_of (db : Database) : gmap Z (list date) :=
  foldl (λ m visit, <[visit.1 := default [] (m !! visit.1) ++ [visit.2]]> m) ∅
    (Visit_objects db).

(** The badge filter of [get_scoring_data_cached]. *)
Definition badge_is_active (today : date) (b : Badge.t) : bool :=
  negb (Badge.is_fully_achieved b)
  && match Badge.start_date b with None => true | Some s => Py.date_leb s today end
  && match Badge.end_date b with None => true | Some e => Py.date_geb e today end.

(** [get_scoring_data_cached()] *)
Definition get_scoring_data_cached (db : Database) (today : date) : cached value :=
  λ c,
  let cache_key := "scoring_data_v1" in
  match c !! cache_key with
  | None =>
      let data := ScoringData (visits_by_poi_of db)
                    (List.filter (badge_is_active today) (Badge_objects db)) in
      Some (data, <[cache_key := data]> c)
  | Some data => Some (data, c)
  end.

(** [invalidate_scoring_cache()] *)
Definition invalidate_scoring_cache (c : cache) : cache :=
  delete "dashboard_scores_top_v1"
    (delete "dashboard_scores_full_v1"
       (delete "scoring_data_v1" c)).

(** [calculate_all_dashboard_scores(get_full_lists)]; reading
    [data['visits_by_poi']] from a cached value of another shape raises. *)
Definition calculate_all_dashboard_scores (db : Database) (today : date)
    (get_full_lists : bool) : cached value :=
  λ c,
  let cache_key_full := "dashboard_scores_full_v1" in
  let cache_key_top := "dashboard_scores_top_v1" in
  let cache_key := if get_full_lists then cache_key_full else cache_key_top in
  match c !! cache_key with
  | Some cached_results => Some (cached_results, c)
  | None =>
      match get_scoring_data_cached db today c with
      | Some (ScoringData visits_by_poi active_badges, c1) =>
          match calculate_poi_scores db active_badges visits_by_poi with
          | None => None
          | Some base_list =>
              let (full_poi_ranking, base_list') :=
                _aggregate_parent_scores_from_base base_list in
              let full_region_ranking :=
                _aggregate_mesoregion_scores_from_base base_list' in
              let r :=
                if get_full_lists
                then mk_results (Some full_poi_ranking) (Some full_region_ranking)
                       None None
                else mk_results None None (Some (take 10 full_poi_ranking))
                       (Some (take 5 full_region_ranking)) in
              Some (DashboardScores r, <[cache_key := DashboardScores r]> c1)
          end
      | _ => None
      end
  end.

(** The loop [for item in full_ranking] of [get_score_for_single_poi] and
    the final [return 0.0]. *)
Fixpoint find_score (full_ranking : list ScoreItem) (poi_id : Z) : Q :=
  match full_ranking with
  | [] => 0%Q
  | item :: rest =>
      if decide (PointOfInterest.id (poi item) = poi_id) then score item
      else find_score rest poi_id
  end.

(** The score a ranking holds for a POI, stated on the list itself: the
    score of the first entry that has the POI's id, and [0.0] when no
    entry has it. *)
Definition score_in (full_ranking : list ScoreItem) (poi_id : Z) (s : Q) : Prop :=
  (∃ before item after,
     full_ranking = before ++ item :: after ∧
     PointOfInterest.id (poi item) = poi_id ∧
     (∀ x, x ∈ before → PointOfInterest.id (poi x) ≠ poi_id) ∧
     s = score item)
  ∨ ((∀ x, x ∈ full_ranking → PointOfInterest.id (poi x) ≠ poi_id) ∧ s = 0%Q).

(** [get_score_for_single_poi(poi)]; [all_rankings.get] needs a
    dictionary and the loop needs a list of entries. *)
Definition get_score_for_single_poi (db : Database) (today : date)
    (p : PointOfInterest.t) : cached Q :=
  λ c,
  let cache_key := "full_poi_ranking_for_details" in
  match c !! cache_key with
  | None =>
      match calculate_all_dashboard_scores db today true c with
      | Some (DashboardScores all_rankings, c1) =>
          let full_ranking := default [] (poi_ranking all_rankings) in
          Some (find_score full_ranking (PointOfInterest.id p),
                <[cache_key := Ranking full_ranking]> c1)
      | _ => None
      end
  | Some (Ranking full_ranking) =>
      Some (find_score full_ranking (PointOfInterest.id p), c)
  | Some _ => None
  end.

(** Every entry present under a key of the scoring cache has the shape
    the services store under that key. *)
Definition well_shaped (c : cache) : Prop :=
  (∀ v, c !! "scoring_data_v1" = Some v → ∃ vs bs, v = ScoringData vs bs) ∧
  (∀ v, c !! "dashboard_scores_full_v1" = Some v → ∃ r, v = DashboardScores r) ∧
  (∀ v, c !! "dashboard_scores_top_v1" = Some v → ∃ r, v = DashboardScores r) ∧
  (∀ v, c !! "full_poi_ranking_for_details" = Some v → ∃ l, v = Ranking l).

End ScoringCache.

(** ** Cache invalidation handlers ([signals.py]) *)

Module Signals.
Import ScoringCache.

(** [post_save] / [post_delete] of [Visit] *)
Definition invalidate_scoring_cache_on_visit_change (c : cache) : cache :=
  delete "full_poi_ranking_for_details"
    (delete "dashboard_scores_top_v1"
       (delete "dashboard_scores_full_v1"
          (delete "scoring_data_v1" c))).

(** [post_save] / [post_delete] of [Badge] *)
Definition invalidate_scoring_cache_on_badge_change (c : cache) : cache :=
  delete "full_poi_ranking_for_details"
    (delete "dashboard_scores_top_v1"
       (delete "dashboard_scores_full_v1"
          (delete "scoring_data_v1" c))).

(** [post_save] / [post_delete] of [BadgeRequirement] *)
Definition invalidate_scoring_cache_on_requirement_change (c : cache) : cache :=
  delete "full_poi_ranking_for_details"
    (delete "dashboard_scores_top_v1"
       (delete "dashboard_scores_full_v1"
          (delete "scoring_data_v1" c))).

End Signals.

(** ** GPX parsing and trip statistics ([trip_service.py]) *)

Module Trip.

(** A coordinate of a [LineString] of dimension 3:
    (longitude, latitude, elevation). *)
Definition coord : Type := Q * Q * Q.

Definition elevation_of (p : coord) : Q := p.2.

(** What [gpxpy] yields for a document it accepts. *)
Record GPXTrackPoint := mk_point {
  longitude : Q;
  latitude : Q;
  elevation : option Q
}.

Record GPX := mk_gpx {
  tracks : list (list (list GPXTrackPoint));   (* track / segment / point *)
  length_3d : Q;                               (* [gpx.length_3d()], metres *)
  get_uphill_downhill : Q * Q                  (* [gpx.get_uphill_downhill()] *)
}.

(** An uploaded file, by what reading, decoding and [gpxpy.parse] make of
    it. *)
Inductive upload :=
| NotUtf8                 (* [decode('utf-8')] raises [UnicodeDecodeError] *)
| BadXml (msg : string)   (* [gpxpy.parse] raises [GPXXMLSyntaxException] *)
| BadGpx (msg : string)   (* [gpxpy.parse] raises another [GPXException] *)
| Parsed (gpx : GPX).

(** The exceptions leaving [parse_gpx_to_linestring_and_stats]. *)
Inductive exn :=
| ValueError (msg : string)
| UnicodeDecodeError
| GPXException (msg : string).

(** The dictionary [stats] of the parser: a key is set only when its
    value is truthy. *)
Record parse_stats := mk_parse_stats {
  parsed_distance_km : option Q;
  parsed_elevation_gain_m : option Z
}.

(** [point.elevation or 0] *)
Definition elevation_or_0 (e : option Q) : Q :=
  match e with
  | Some x => if Qeq_bool x 0 then 0%Q else x
  | None => 0%Q
  end.

(** The three nested loops collecting [points]. *)
Definition collect_points (gpx : GPX) : list coord :=
  concat (map (λ track,
    concat (map (λ segment,
      map (λ point, (longitude point, latitude point,
                     elevation_or_0 (elevation point))) segment) track))
    (tracks gpx)).

(** A number is truthy when it is not zero. *)
Definition truthy (x : Q) : bool := negb (Qeq_bool x 0).

(** [parse_gpx_to_linestring_and_stats(gpx_file)]: the coordinates of the
    [LineString] and [stats], or the exception raised. *)
Definition parse_gpx_to_linestring_and_stats (gpx_file : upload)
    : exn + (list coord * parse_stats) :=
  match gpx_file with
  | NotUtf8 => inl UnicodeDecodeError
  | BadXml msg => inl (ValueError ("Błąd w strukturze pliku GPX: " +:+ msg))
  | BadGpx msg => inl (GPXException msg)
  | Parsed gpx =>
      let points := collect_points gpx in
      if (length points <? 2)%nat
      then inl (ValueError
                 "Plik GPX musi zawierać co najmniej 2 punkty, aby utworzyć trasę.")
      else
        let length_3d_meters := length_3d gpx in
        let uphill := (get_uphill_downhill gpx).1 in
        inr (points,
             mk_parse_stats
               (if truthy length_3d_meters
                then Some (Py.round2 (length_3d_meters / 1000)) else None)
               (if truthy uphill then Some (Py.round uphill) else None))
  end.

(** The input is well-formed track data when [gpxpy] accepts it. *)
Definition well_formed (f : upload) : bool :=
  match f with Parsed _ => true | _ => false end.

(** The points a file yields (none when it is not accepted). *)
Definition points_of (f : upload) : list GPXTrackPoint :=
  match f with
  | Parsed gpx => concat (concat (tracks gpx))
  | _ => []
  end.

(** A coordinate renders a track point: same longitude and latitude, and
    the elevation of the point, 0 when the point has none. *)
Definition renders (point : GPXTrackPoint) (c : coord) : Prop :=
  c.1.1 = longitude point ∧ c.1.2 = latitude point ∧
  (c.2 == default 0 (elevation point))%Q.

(** A segment of a trip.  [gpx_file] is [None] when no file is attached,
    [gpx_path] is the stored geometry, [metric_length] is the length of
    [gpx_path.transform(3857)] or [None] when the transformation raises. *)
Record TripSegment := mk_segment {
  sequence : Z;
  gpx_file : option upload;
  gpx_path : option (list coord);
  metric_length : option Q
}.

Record segment_stats := mk_stats {
  distance_km : Q;
  elevation_gain_m : Z
}.

(** The loop of the fallback adding the positive elevation steps to
    [elevation_gain]. *)
Fixpoint elevation_gain_loop (elevation_gain : Q) (points : list coord) : Q :=
  match points with
  | p :: ((q :: _) as rest) =>
      let diff := (elevation_of q - elevation_of p)%Q in
      elevation_gain_loop
        (if negb (Qle_bool diff 0) then (elevation_gain + diff)%Q
         else elevation_gain)
        rest
  | _ => elevation_gain
  end.

(** [get_segment_stats(segment)] *)
Definition get_segment_stats (segment : TripSegment) : segment_stats :=
  let fallback :=
    match gpx_path segment with
    | Some ((_ :: _) as points) =>
        mk_stats
          (match metric_length segment with
           | Some len => Py.round2 (len / 1000)
           | None => 0%Q
           end)
          (Py.round (elevation_gain_loop 0 points))
    | _ => mk_stats 0 0
    end in
  match gpx_file segment with
  | Some (Parsed gpx) =>
      mk_stats
        (if truthy (length_3d gpx) then Py.round2 (length_3d gpx / 1000) else 0%Q)
        (if truthy (get_uphill_downhill gpx).1
         then Py.round (get_uphill_downhill gpx).1 else 0)
  | _ => fallback
  end.

(** The denormalised fields of a [Trip] and its segments. *)
Record t := mk {
  gpx_paths : list TripSegment;
  total_distance_km : Q;
  total_elevation_gain_m : Z;
  got_points : Z;
  everest_diff_m : Z
}.

(** [trip.gpx_paths.order_by('sequence')] *)
Fixpoint insert_by_sequence (s : TripSegment) (l : list TripSegment) : list TripSegment :=
  match l with
  | [] => [s]
  | s' :: rest =>
      if sequence s <=? sequence s' then s :: s' :: rest
      else s' :: insert_by_sequence s rest
  end.

Definition order_by_sequence (l : list TripSegment) : list TripSegment :=
  foldr insert_by_sequence [] l.

(** [all_points_in_order] after the first loop. *)
Definition all_points_in_order (segments : list TripSegment) : list coord :=
  concat (map (λ segment, default [] (gpx_path segment)) segments).

(** The body of the "Everest" loop on the pair
    [(max_everest_diff, min_elevation_so_far)]. *)
Definition everest_step (st : Q * Q) (current_elevation : Q) : Q * Q :=
  let potential_diff := (current_elevation - st.2)%Q in
  (Py.max st.1 potential_diff, Py.min st.2 current_elevation).

(** The block computing [everest_diff]. *)
Definition everest_diff (all_points : list coord) : Q :=
  if (1 <? length all_points)%nat then
    match map elevation_of all_points with
    | e0 :: rest => (foldl everest_step (0%Q, e0) rest).1
    | [] => 0%Q
    end
  else 0%Q.

(** [recalculate_trip_stats(trip)]: the trip with the fields written by
    the final [update]. *)
Definition recalculate_trip_stats (trip : t) : t :=
  let segments := order_by_sequence (gpx_paths trip) in
  let total_distance :=
    foldl (λ acc segment, (acc + distance_km (get_segment_stats segment))%Q) 0%Q
      segments in
  let total_elevation :=
    foldl (λ acc segment, acc + elevation_gain_m (get_segment_stats segment)) 0
      segments in
  mk (gpx_paths trip)
     (Py.round2 total_distance)
     (Py.round (inject_Z total_elevation))
     (Py.floor total_distance + Py.floor (inject_Z total_elevation / 100))
     (Py.round (everest_diff (all_points_in_order segments))).

(** *** The quantities of the specification *)

(** The concatenated, sequence-ordered elevation profile of a trip. *)
Definition elevation_profile (trip : t) : list Q :=
  map elevation_of (all_points_in_order (order_by_sequence (gpx_paths trip))).

(** The minimum of a non-empty list (0 for the empty one). *)
Definition minimum (l : list Q) : Q :=
  match l with
  | [] => 0%Q
  | x :: rest => foldl Qmin x rest
  end.

(** The maximum of a non-empty list (0 for the empty one). *)
Definition maximum (l : list Q) : Q :=
  match l with
  | [] => 0%Q
  | x :: rest => foldl Qmax x rest
  end.

(** [e[i] − min(e[0..i-1])]: the climb to point [i] from the lowest
    earlier point. *)
Definition climb (e : list Q) (i : nat) : Q :=
  (nth i e 0%Q - minimum (take i e))%Q.

(** The climbs to the points [i = 1..n-1]. *)
Definition climbs (e : list Q) : list Q :=
  map (climb e) (seq 1 (length e - 1)).

(** The profile never rises above its running minimum. *)
Definition never_rises (e : list Q) : bool :=
  forallb (λ i, Qle_bool (nth i e 0%Q) (minimum (take i e)))
    (seq 1 (length e - 1)).

End Trip.

(** ** Scores of the POIs of a queryset ([scoring_service.py]) *)

Module ScoringQueryset.
Import Scoring ScoringCache.

(** The loop over [requirements] filling [badges_by_poi]: a row counts
    only when its POI is in [poi_id_set]. *)
Definition badges_by_poi_in (poi_id_set : gset Z) (requirements : list (Z * Z))
    : list (Z * list Z) :=
  foldl (λ d req, if bool_decide (req.2 ∈ poi_id_set)
                  then Dict.append req.2 req.1 d else d) [] requirements.

(** The loop over the visits of one POI of one badge: the pair is added
    at the first visit within the window. *)
Definition add_claimed_pair (visits_by_poi : gmap Z (list date))
    (badge_id : Z) (badge : Badge.t) (pairs : gset (Z * Z)) (poi_id : Z)
    : gset (Z * Z) :=
  if is_claimed badge (visits_of visits_by_poi poi_id)
  then {[ (poi_id, badge_id) ]} ∪ pairs else pairs.

(** The loops filling the set [claimed_poi_badge_pairs]; the order in
    which [active_badges_map.items()] comes does not show in a set. *)
Definition claimed_poi_badge_pairs (badges_map : gmap Z Badge.t)
    (pois_by_badge : list (Z * list Z)) (visits_by_poi : gmap Z (list date))
    : gset (Z * Z) :=
  foldr (λ (kv : Z * Badge.t) pairs,
           foldl (add_claimed_pair visits_by_poi kv.1 kv.2) pairs
             (default [] (Dict.get kv.1 pois_by_badge)))
    ∅ (map_to_list badges_map).

(** The loop filling [claimed_counts_by_badge], a [defaultdict(int)]. *)
Definition claimed_counts_by_badge (pairs : list (Z * Z)) : gmap Z Z :=
  foldr (λ (pair : Z * Z) counts,
           <[pair.2 := default 0 (counts !! pair.2) + 1]> counts) ∅ pairs.

(** The loop filling [remaining_counts]. *)
Definition remaining_counts (pois_by_badge : list (Z * list Z))
    (claimed_counts : gmap Z Z) : gmap Z Z :=
  foldl (λ counts (kv : Z * list Z),
           <[kv.1 := Z.of_nat (length kv.2)
                     - default 0 (claimed_counts !! kv.1)]> counts)
    ∅ pois_by_badge.

(** The body of [for badge_id in badges_by_poi.get(poi_id, [])]. *)
Definition score_step (pairs : gset (Z * Z)) (remaining_counts : gmap Z Z)
    (poi_id : Z) (score : Q) (badge_id : Z) : Q :=
  if bool_decide ((poi_id, badge_id) ∈ pairs) then score
  else
    let rem_count := default 0 (remaining_counts !! badge_id) in
    if 0 <? rem_count then (score + 100 / inject_Z rem_count)%Q else score.

(** The loop filling [poi_scores], from the scoring data read. *)
Definition poi_scores (db : Database) (poi_ids : list Z)
    (active_badges : list Badge.t) (all_visits_data : gmap Z (list date))
    : gmap Z Q :=
  let active_badge_ids := map Badge.id active_badges in
  let badges_map := active_badges_map active_badges in
  let requirements := requirements_of db active_badge_ids in
  let poi_id_set : gset Z := list_to_set poi_ids in
  let pois_by_badge := pois_by_badge requirements in
  let badges_by_poi := badges_by_poi_in poi_id_set requirements in
  let pairs := claimed_poi_badge_pairs badges_map pois_by_badge all_visits_data in
  let remaining_counts :=
    remaining_counts pois_by_badge (claimed_counts_by_badge (elements pairs)) in
  foldr (λ poi_id scores,
           let score :=
             foldl (score_step pairs remaining_counts poi_id) 0%Q
               (default [] (Dict.get poi_id badges_by_poi)) in
           if negb (Qle_bool score 0) then <[poi_id := score]> scores
           else scores)
    ∅ (elements poi_id_set).

(** [calculate_scores_for_queryset(poi_queryset)]: the dictionary
    returned, read by key. *)
Definition calculate_scores_for_queryset (db : Database) (today : date)
    (poi_queryset : list PointOfInterest.t) : cached (gmap Z Q) :=
  λ c,
  let poi_ids := map PointOfInterest.id poi_queryset in
  match poi_ids with
  | [] => Some (∅, c)
  | _ =>
      match get_scoring_data_cached db today c with
      | Some (ScoringData all_visits_data active_badges, c1) =>
          match active_badges with
          | [] => Some (∅, c1)
          | _ => Some (poi_scores db poi_ids active_badges all_visits_data, c1)
          end
      | _ => None
      end
  end.

End ScoringQueryset.

(** ** The statuses of a queryset ([point_of_interest_service.py]) *)

Module StatusCalculator.

(** [visit_dates_by_poi_id]: the visits of the POIs of the queryset,
    grouped by POI. *)
Definition visit_dates_by_poi_id (db : Database) (poi_ids : list Z)
    : gmap Z (list date) :=
  foldl (λ data visit, <[visit.1 := default [] (data !! visit.1) ++ [visit.2]]> data)
    ∅ (List.filter (λ visit, bool_decide (visit.1 ∈ poi_ids)) (Visit_objects db)).

(** The badge a requirement row is joined with. *)
Definition badge_of (db : Database) (badge_id : Z) : option Badge.t :=
  List.find (λ b, bool_decide (Badge.id b = badge_id)) (Badge_objects db).

(** The rows of [requirements_qs]: the requirements of the POIs of the
    queryset, of the badges of [badges_queryset] when one is given, each
    with the fields of its badge. *)
Definition requirements_rows (db : Database) (poi_ids : list Z)
    (badges_queryset : option (list Badge.t)) : list (Z * Status.badge_data) :=
  omap (λ req : Z * Z,
          match badge_of db req.1 with
          | Some b =>
              Some (req.2, Status.mk_badge_data (Badge.is_fully_achieved b)
                             (Badge.start_date b) (Badge.end_date b))
          | None => None
          end)
    (List.filter
       (λ req : Z * Z,
          bool_decide (req.2 ∈ poi_ids)
          && match badges_queryset with
             | None => true
             | Some badges => bool_decide (req.1 ∈ map Badge.id badges)
             end)
       (BadgeRequirement_objects db)).

(** [requirements_data_by_poi_id] *)
Definition requirements_data_by_poi_id (db : Database) (poi_ids : list Z)
    (badges_queryset : option (list Badge.t)) : gmap Z (list Status.badge_data) :=
  foldl (λ data (row : Z * Status.badge_data),
           <[row.1 := default [] (data !! row.1) ++ [row.2]]> data)
    ∅ (requirements_rows db poi_ids badges_queryset).

(** [get_statuses]: the dictionary [{poi_id: status}]. *)
Definition get_statuses (db : Database) (today : date)
    (poi_list : list PointOfInterest.t) (badges_queryset : option (list Badge.t))
    : list (Z * Status.status) :=
  let poi_ids := map PointOfInterest.id poi_list in
  let visits := visit_dates_by_poi_id db poi_ids in
  let requirements := requirements_data_by_poi_id db poi_ids badges_queryset in
  foldl (λ result poi,
           Dict.set (PointOfInterest.id poi)
             (Status._determine_status today
                (default [] (visits !! PointOfInterest.id poi))
                (default [] (requirements !! PointOfInterest.id poi)))
             result)
    [] poi_list.

(** [calculate_poi_statuses(poi_queryset, badges_queryset=None)] *)
Definition calculate_poi_statuses (db : Database) (today : date)
    (poi_queryset : list PointOfInterest.t)
    (badges_queryset : option (list Badge.t)) : list (Z * Status.status) :=
  get_statuses db today poi_queryset badges_queryset.

(** The visit dates of a POI and the badge fields of its requirements,
    in the order of the tables. *)
Definition visit_dates_of (db : Database) (poi_id : Z) : list date :=
  Dict.grouped fst snd poi_id (Visit_objects db).

Definition badges_data_of (db : Database) (poi_id : Z)
    (badges_queryset : option (list Badge.t)) : list Status.badge_data :=
  Dict.grouped fst snd poi_id (requirements_rows db [poi_id] badges_queryset).

End StatusCalculator.

(** ** The [cache_clear] command ([management/commands/cache_clear.py]) *)

Module CacheClear.
Import ScoringCache.

(** [Command.handle] with [options['all']]: [cache.clear()] empties the
    cache, otherwise only the scoring data is deleted. *)
Definition handle (all : bool) (c : cache) : cache :=
  if all then ∅
  else
    let cache_key := "scoring_data_v1" in
    delete cache_key c.

End CacheClear.

(** ** The quantities of the region ranking *)

Module Regions.
Import Scoring.

(** The entries of a list that lie in the mesoregion [name], in order. *)
Definition members (base_scores_list : list ScoreItem) (name : string)
    : list ScoreItem :=
  List.filter
    (λ item, bool_decide (PointOfInterest.mesoregion (poi item) = Some name))
    base_scores_list.

(** The ranking entry of a mesoregion built from its members. *)
Definition entry_of (name : string) (members : list ScoreItem) : RegionItem :=
  mk_region name (foldl Qplus 0%Q (map score members)) (length members)
    (take 5 (sorted_desc score members)).

End Regions.

(** ** The quantities of the parent rollup *)

Module Rollup.
Import Scoring.

(** Every entry of the store is the entry of the base list at its
    position with a score that is not lower, and holds a score above 0. *)
Definition raised (base store : list ScoreItem) : Prop :=
  Forall2 (λ b e, poi e = poi b ∧ badges e = badges b ∧ (score b <= score e)%Q)
    base store ∧
  Forall (λ e, (0 < score e)%Q) store.

End Rollup.

(** ** Sequences of cache operations *)

Module CacheRun.
Import ScoringCache.

(** What can happen to the scoring cache: the reads of the services, the
    invalidations, the [cache_clear] command, the loss of an entry that
    timed out, and changes of the database and of the date in between. *)
Inductive operation :=
| Get_scoring_data
| Dashboard_scores (get_full_lists : bool)
| Single_poi_score (p : PointOfInterest.t)
| Queryset_scores (poi_queryset : list PointOfInterest.t)
| Manual_invalidation
| Visit_change
| Badge_change
| Requirement_change
| Cache_clear (all : bool)
| Entry_timed_out (key : string)
| Database_change (db : Database)
| Date_change (today : date).

Record state := mk_state {
  database : Database;
  today : date;
  the_cache : cache
}.

(** The state a read leaves: the cache it returns, or [None] when it
    raised. *)
Definition after {A : Type} (s : state) (result : option (A * cache))
    : option state :=
  match result with
  | Some (_, c) => Some (mk_state (database s) (today s) c)
  | None => None
  end.

(** One operation; [None] when it raises. *)
Definition step (s : state) (o : operation) : option state :=
  let with_cache c := Some (mk_state (database s) (today s) c) in
  match o with
  | Get_scoring_data =>
      after s (get_scoring_data_cached (database s) (today s) (the_cache s))
  | Dashboard_scores get_full_lists =>
      after s (calculate_all_dashboard_scores (database s) (today s)
                 get_full_lists (the_cache s))
  | Single_poi_score p =>
      after s (get_score_for_single_poi (database s) (today s) p (the_cache s))
  | Queryset_scores poi_queryset =>
      after s (ScoringQueryset.calculate_scores_for_queryset (database s)
                 (today s) poi_queryset (the_cache s))
  | Manual_invalidation => with_cache (invalidate_scoring_cache (the_cache s))
  | Visit_change =>
      with_cache (Signals.invalidate_scoring_cache_on_visit_change (the_cache s))
  | Badge_change =>
      with_cache (Signals.invalidate_scoring_cache_on_badge_change (the_cache s))
  | Requirement_change =>
      with_cache (Signals.invalidate_scoring_cache_on_requirement_change (the_cache s))
  | Cache_clear all => with_cache (CacheClear.handle all (the_cache s))
  | Entry_timed_out key => with_cache (delete key (the_cache s))
  | Database_change db => Some (mk_state db (today s) (the_cache s))
  | Date_change today => Some (mk_state (database s) today (the_cache s))
  end.

(** The operations in order, stopping at the first that raises. *)
Fixpoint run (s : state) (operations : list operation) : option state :=
  match operations with
  | [] => Some s
  | o :: rest =>
      match step s o with
      | None => None
      | Some s' => run s' rest
      end
  end.

End CacheRun.

(** ** The data of the elevation chart ([trip_service.py]) *)

Module ElevationChart.
Import Trip.

(** [x or 0] on a number. *)
Definition or_0 (x : Q) : Q := if Qeq_bool x 0 then 0%Q else x.

(** [round(x, 3)]: to three decimals. *)
Definition round3 (x : Q) : Q := (inject_Z (Py.round (x * 1000)) / 1000)%Q.

(** One series of the chart. *)
Record dataset := mk_dataset {
  label : string;
  dataset_color : string;
  data : list (Q * Q)              (* [[distance_km, elevation_m]] *)
}.

Section chart.
(** [geodesic(loc1, loc2).meters] of [geopy], on (latitude, longitude)
    pairs, and the [color] field of a segment. *)
Variable geodesic_meters : Q * Q → Q * Q → Q.
Variable color : TripSegment → string.

(** The body of [for i in range(len(points))] on
    [(cumulative_distance_m, last_point_coords, segment_data)]. *)
Definition point_step (st : Q * option coord * list (Q * Q))
    (current_point_coords : coord) : Q * option coord * list (Q * Q) :=
  let '(cumulative_distance_m, last_point_coords, segment_data) := st in
  let cumulative_distance_m :=
    match last_point_coords with
    | Some last =>
        let loc1 := (last.1.2, last.1.1) in
        let loc2 := (current_point_coords.1.2, current_point_coords.1.1) in
        (cumulative_distance_m + geodesic_meters loc1 loc2)%Q
    | None => cumulative_distance_m
    end in
  let distance_km := (cumulative_distance_m / 1000)%Q in
  let elevation_m := or_0 current_point_coords.2 in
  (cumulative_distance_m, Some current_point_coords,
   segment_data ++
     [match last_point_coords with
      | None => (0%Q, elevation_m)
      | Some _ => (round3 distance_km, elevation_m)
      end]).

(** The body of [for segment in segments_with_paths] on
    [(cumulative_distance_m, last_point_coords, datasets)]. *)
Definition segment_step (st : Q * option coord * list dataset)
    (segment : TripSegment) : Q * option coord * list dataset :=
  match gpx_path segment with
  | Some ((_ :: _) as points) =>
      let '(cumulative_distance_m, last_point_coords, datasets) := st in
      let segment_data :=
        match last_point_coords with
        | Some last =>
            [(round3 (cumulative_distance_m / 1000), or_0 last.2)]
        | None => []
        end in
      let '(cumulative_distance_m, last_point_coords, segment_data) :=
        foldl point_step (cumulative_distance_m, last_point_coords, segment_data)
          points in
      (cumulative_distance_m, last_point_coords,
       datasets ++ [mk_dataset ("Segment " +:+ pretty (sequence segment))
                      (color segment) segment_data])
  | _ => st
  end.

(** A stored path is truthy when it has points. *)
Definition has_path (segment : TripSegment) : bool :=
  match gpx_path segment with
  | Some (_ :: _) => true
  | _ => false
  end.

(** [get_elevation_profile_data(trip)]: the list given to [json.dumps],
    [None] for a trip without points. *)
Definition get_elevation_profile_data (trip : t) : option (list dataset) :=
  let segments_with_paths := order_by_sequence (gpx_paths trip) in
  if negb (existsb has_path segments_with_paths) then None
  else Some (foldl segment_step (0%Q, None, []) segments_with_paths).2.
End chart.

(** The elevations a list of series adds to the chart: all of the first
    series, and of each later one all but its first point, which repeats
    the last point of the series before. *)
Definition new_elevations (datasets : list dataset) : list Q :=
  match datasets with
  | [] => []
  | first :: later =>
      map snd (data first) ++ concat (map (λ d, tail (map snd (data d))) later)
  end.

(** What the loop over the segments has built once the points [seen]
    are behind it: the last point, the elevations added, and each series
    starting at the elevation the one before ended with. *)
Definition chart_of (seen : list coord) (st : Q * option coord * list dataset)
    : Prop :=
  st.1.2 = last seen ∧
  (st.2 = [] ↔ seen = []) ∧
  new_elevations st.2 = map (λ p, or_0 (elevation_of p)) seen ∧
  (last st.2 ≫= λ d, last (map snd (data d)))
    = (λ p, or_0 (elevation_of p)) <$> last seen ∧
  ∀ i d d', st.2 !! i = Some d → st.2 !! S i = Some d' →
            head (map snd (data d')) = last (map snd (data d)).

(** The distances of the chart, in the order they are drawn. *)
Definition distances (datasets : list dataset) : list Q :=
  map fst (concat (map data datasets)).

(** The distances written so far are in ascending order, none is
    negative and none exceeds the rounded distance covered. *)
Definition ascending (cumulative_distance_m : Q) (last_point_coords : option coord)
    (written : list Q) : Prop :=
  (0 <= cumulative_distance_m)%Q ∧
  StronglySorted Qle written ∧
  Forall (λ x, 0 <= x ∧ x <= round3 (cumulative_distance_m / 1000))%Q written ∧
  (last_point_coords = None → written = []).

End ElevationChart.

(** ** Python floats as IEEE 754 doubles *)

Module Float.

(** A [float] of CPython is a binary64 number: 53 bits of precision,
    infinities at the exponent 1024.  The arithmetic is that of the
    standard, correctly rounded to nearest with ties to even. *)
Definition prec : Z := 53.
Definition emax : Z := 1024.
Definition float : Type := spec_float.

(** [0.0]; also what the [int] 0 is converted to where it meets a
    [float]. *)
Definition zero : float := S754_zero false.

Definition add : float → float → float := SFadd prec emax.
Definition sub : float → float → float := SFsub prec emax.
Definition div : float → float → float := SFdiv prec emax.

(** [a < b]; false when either side is [nan]. *)
Definition ltb (a b : float) : bool := SFltb a b.

(** [bool(x)]: [x != 0.0], so [nan] is truthy and both zeros are not. *)
Definition truthy (x : float) : bool := negb (SFeqb x zero).

(** [max(a, b)]: the first argument unless the second is strictly
    greater. *)
Definition max (a b : float) : float := if ltb a b then b else a.

(** [min(a, b)]: the first argument unless the second is strictly
    smaller. *)
Definition min (a b : float) : float := if ltb b a then b else a.

(** [float(k)] of an [int]. *)
Definition of_int (k : Z) : float := binary_normalize prec emax k 0 false.

(** The double nearest to the fraction [k / d]: the true division
    [k / d] of two [int]s, and the reading of a decimal literal. *)
Definition of_ratio (k : Z) (d : positive) : float :=
  match k with
  | Z0 => zero
  | Zpos m => SFdiv prec emax (S754_finite false m 0) (S754_finite false d 0)
  | Zneg m => SFdiv prec emax (S754_finite true m 0) (S754_finite false d 0)
  end.

Definition is_nan (x : float) : bool :=
  match x with S754_nan => true | _ => false end.

Definition is_finite (x : float) : bool :=
  match x with S754_zero _ | S754_finite _ _ _ => true | _ => false end.

Definition sign (x : float) : bool :=
  match x with
  | S754_zero s | S754_infinity s | S754_finite s _ _ => s
  | S754_nan => false
  end.

(** The number a finite double stands for. *)
Definition to_Q (x : float) : option Q :=
  match x with
  | S754_zero _ => Some 0%Q
  | S754_finite s m e =>
      Some (inject_Z (if s then Zneg m else Zpos m) * Qpower 2 e)%Q
  | _ => None
  end.

(** [round(x)]: the nearest integer of the number [x] stands for, ties
    to the even one; raises on an infinity or [nan]. *)
Definition round (x : float) : option Z := Py.round <$> to_Q x.

(** [math.floor(x)]; raises on an infinity or [nan]. *)
Definition floor (x : float) : option Z := Py.floor <$> to_Q x.

(** [round(x, 2)]: the double nearest to the number [x] stands for
    rounded to hundredths, ties to the even hundredth; an infinity or
    [nan] is returned as it is, and a zero result keeps the sign of
    [x]. *)
Definition round2 (x : float) : float :=
  match to_Q x with
  | None => x
  | Some q =>
      match Py.round (q * 100) with
      | Z0 => S754_zero (sign x)
      | k => of_ratio k 100
      end
  end.

End Float.

(** [sorted(l, key=key, reverse=True)] on [float] keys: the stable sort
    in descending order; the sort compares with [<] only. *)
Section sorted_desc_float.
Context {A : Type} (key : A → Float.float).

Fixpoint insert_desc_float (x : A) (l : list A) : list A :=
  match l with
  | [] => [x]
  | y :: rest =>
      if Float.ltb (key x) (key y) then y :: insert_desc_float x rest
      else x :: y :: rest
  end.

Definition sorted_desc_float (l : list A) : list A := foldr insert_desc_float [] l.
End sorted_desc_float.

(** ** The scoring engine on doubles ([scoring_service.py])

    [calculate_poi_scores] once more, with the score a [float] as in the
    code.  The integer and dictionary parts ([remaining_counts], the
    grouping of the requirement rows, the claimed test) are those of
    [Scoring]. *)

Module Scoring64.

Record ScoreItem := mk_item {
  poi : PointOfInterest.t;
  score : Float.float;
  badges : list Z;
  aggregated_from : option (list string)
}.

(** The body of the loop [for badge_id in badge_ids]:
    [score += 100 / rem_count] divides two [int]s and adds the quotient
    to the running score. *)
Definition score_step (badges_map : gmap Z Badge.t) (remaining_counts : gmap Z Z)
    (visit_dates : list date) (score : Float.float) (badge_id : Z)
    : option Float.float :=
  match badges_map !! badge_id with
  | None => None
  | Some badge =>
      if Scoring.is_claimed badge visit_dates then Some score
      else
        let rem_count := default 0 (remaining_counts !! badge_id) in
        if 0 <? rem_count
        then Some (Float.add score (Float.of_ratio 100 (Z.to_pos rem_count)))
        else Some score
  end.

Fixpoint score_loop (badges_map : gmap Z Badge.t) (remaining_counts : gmap Z Z)
    (visit_dates : list date) (score : Float.float) (badge_ids : list Z)
    : option Float.float :=
  match badge_ids with
  | [] => Some score
  | badge_id :: rest =>
      match score_step badges_map remaining_counts visit_dates score badge_id with
      | None => None
      | Some score' =>
          score_loop badges_map remaining_counts visit_dates score' rest
      end
  end.

(** The loop filling [poi_scores]; [score] starts as the [int] 0 and a
    POI is kept when [score > 0]. *)
Fixpoint poi_scores_loop (badges_map : gmap Z Badge.t) (remaining_counts : gmap Z Z)
    (visits_by_poi : gmap Z (list date)) (items : list (Z * list Z))
    (poi_scores : list (Z * Float.float)) : option (list (Z * Float.float)) :=
  match items with
  | [] => Some poi_scores
  | (poi_id, badge_ids) :: rest =>
      match score_loop badges_map remaining_counts
              (Scoring.visits_of visits_by_poi poi_id) Float.zero badge_ids with
      | None => None
      | Some score =>
          poi_scores_loop badges_map remaining_counts visits_by_poi rest
            (if Float.ltb Float.zero score then Dict.set poi_id score poi_scores
             else poi_scores)
      end
  end.

(** The loop building [results_list]. *)
Fixpoint results_list (pois_map : gmap Z PointOfInterest.t)
    (poi_scores : list (Z * Float.float)) : list ScoreItem :=
  match poi_scores with
  | [] => []
  | (poi_id, s) :: rest =>
      match pois_map !! poi_id with
      | Some poi_obj => mk_item poi_obj s [] None :: results_list pois_map rest
      | None => results_list pois_map rest
      end
  end.

(** [calculate_poi_scores(active_badges, visits_by_poi)] *)
Definition calculate_poi_scores (db : Database) (active_badges : list Badge.t)
    (visits_by_poi : gmap Z (list date)) : option (list ScoreItem) :=
  let active_badge_ids := map Badge.id active_badges in
  let badges_map := Scoring.active_badges_map active_badges in
  let requirements := Scoring.requirements_of db active_badge_ids in
  match Scoring.remaining_counts db active_badges visits_by_poi with
  | None => None
  | Some remaining_counts =>
      match poi_scores_loop badges_map remaining_counts visits_by_poi
              (Scoring.badges_by_poi requirements) [] with
      | None => None
      | Some [] => Some []
      | Some poi_scores =>
          Some (sorted_desc_float score
                  (results_list
                     (Scoring.scored_pois_map db (Dict.keys poi_scores))
                     poi_scores))
      end
  end.

(** *** The quantities of the specification

    They are stated on the tables and the visits, without the
    dictionaries and the claimed test of the engine. *)

(** A visit date within the window of the badge is decidable. *)
#[global] Instance claims_spec_dec (s e : option date) (d : date) :
  Decision (Window.claims_spec s e d).
Proof.
  unfold Window.claims_spec.
  assert (∀ (bound : option date) (ok : date → bool),
            Decision (bound = None ∨ ∃ x, bound = Some x ∧ ok x = true)) as Hdec.
  { intros [x|] ok.
    - destruct (ok x) eqn:Hok.
      + left. right. by exists x.
      + right. intros [?|(y & [= <-] & Hy)]; congruence.
    - left. by left. }
  destruct (Hdec s (λ x, Py.date_leb x d)) as [Hs|Hs];
    [destruct (Hdec e (λ x, Py.date_leb d x)) as [He|He]|].
  - left. done.
  - right. intros [_ ?]. done.
  - right. intros [? _]. done.
Defined.

(** The POI is claimed for the badge: one of its recorded visits lies
    within the window of the badge. *)
Definition claimed_for (visits_by_poi : gmap Z (list date)) (b : Badge.t)
    (poi_id : Z) : Prop :=
  ∃ visit_dates,
    visits_by_poi !! poi_id = Some visit_dates ∧
    Exists (Window.claims_spec (Badge.start_date b) (Badge.end_date b)) visit_dates.

#[global] Instance claimed_for_dec visits_by_poi b poi_id :
  Decision (claimed_for visits_by_poi b poi_id).
Proof.
  unfold claimed_for.
  destruct (visits_by_poi !! poi_id) as [visit_dates|].
  - destruct (decide (Exists (Window.claims_spec (Badge.start_date b)
                                (Badge.end_date b)) visit_dates)) as [H|H].
    + left. by exists visit_dates.
    + right. intros (l & [= <-] & Hl). done.
  - right. intros (l & Hl & _). done.
Defined.

(** [remaining(b)]: total required POIs of [b] minus claimed POIs of
    [b]. *)
Definition remaining (db : Database) (visits_by_poi : gmap Z (list date))
    (b : Badge.t) : Z :=
  Z.of_nat (length (Scoring.required_pois db (Badge.id b)))
  - Z.of_nat (length (filter (claimed_for visits_by_poi b)
                        (Scoring.required_pois db (Badge.id b)))).

(** The active badges that require the POI, one for each requirement
    row of the POI, in the order of the rows. *)
Definition badges_requiring (db : Database) (active_badges : list Badge.t)
    (poi_id : Z) : list Badge.t :=
  req ← BadgeRequirement_objects db;
  if decide (req.2 = poi_id)
  then filter (λ b, Badge.id b = req.1) active_badges
  else [].

(** What the badge adds to the score of the POI: nothing when the POI is
    claimed for it or no POI of it remains, and otherwise the double
    nearest to [100 / remaining(b)]. *)
Definition add_share (db : Database) (visits_by_poi : gmap Z (list date))
    (poi_id : Z) (score : Float.float) (b : Badge.t) : Float.float :=
  if decide (claimed_for visits_by_poi b poi_id) then score
  else if 0 <? remaining db visits_by_poi b
       then Float.add score
              (Float.of_ratio 100 (Z.to_pos (remaining db visits_by_poi b)))
       else score.

(** The score of a POI: the shares of the badges that require it, added
    one after the other to 0. *)
Definition expected_score (db : Database) (active_badges : list Badge.t)
    (visits_by_poi : gmap Z (list date)) (poi_id : Z) : Float.float :=
  foldl (add_share db visits_by_poi poi_id) Float.zero
    (badges_requiring db active_badges poi_id).

(** The contribution of the badge summed over the POIs it requires:
    what it adds to each of them, starting from 0, added up as doubles
    in the order of the requirement rows. *)
Definition total_contribution (db : Database) (visits_by_poi : gmap Z (list date))
    (b : Badge.t) : Float.float :=
  foldl Float.add Float.zero
    (map (λ poi_id, add_share db visits_by_poi poi_id Float.zero b)
       (Scoring.required_pois db (Badge.id b))).

End Scoring64.

(** ** Trip statistics on doubles ([trip_service.py])

    [get_segment_stats] and [recalculate_trip_stats] once more, with the
    lengths and elevations [float]s as in the code, and with the
    exceptions [round] and [math.floor] raise on an infinity or [nan]. *)

Module Trip64.

(** A coordinate of a [LineString] of dimension 3:
    (longitude, latitude, elevation). *)
Definition coord : Type := Float.float * Float.float * Float.float.

Definition elevation_of (p : coord) : Float.float := p.2.

(** What [get_segment_stats] reads of a parsed document. *)
Record GPX := mk_gpx {
  length_3d : Float.float;                        (* [gpx.length_3d()], metres *)
  get_uphill_downhill : Float.float * Float.float (* [gpx.get_uphill_downhill()] *)
}.

(** An attached file: reading, decoding or [gpxpy.parse] raises, or the
    document is parsed. *)
Inductive upload :=
| Unreadable
| Parsed (gpx : GPX).

(** A segment of a trip.  [gpx_file] is [None] when no file is attached,
    [gpx_path] is the stored geometry, [metric_length] is the length of
    [gpx_path.transform(3857)] or [None] when the transformation raises. *)
Record TripSegment := mk_segment {
  sequence : Z;
  gpx_file : option upload;
  gpx_path : option (list coord);
  metric_length : option Float.float
}.

Record segment_stats := mk_stats {
  distance_km : Float.float;
  elevation_gain_m : Z
}.

(** The loop of the fallback adding the positive elevation steps to
    [elevation_gain], which starts as the [int] 0. *)
Fixpoint elevation_gain_loop (elevation_gain : Float.float) (points : list coord)
    : Float.float :=
  match points with
  | p :: ((q :: _) as rest) =>
      let diff := Float.sub (elevation_of q) (elevation_of p) in
      elevation_gain_loop
        (if Float.ltb Float.zero diff then Float.add elevation_gain diff
         else elevation_gain)
        rest
  | _ => elevation_gain
  end.

(** The [try] block on an attached file: [inl] is the dictionary it
    returns, [inr] the dictionary as it stands when the block is left by
    an exception, which [except Exception: pass] swallows.  [round(uphill)]
    raises on an infinity or [nan], after [distance_km] has been set. *)
Definition stats_from_file (segment : TripSegment) : segment_stats + segment_stats :=
  match gpx_file segment with
  | Some (Parsed gpx) =>
      let distance :=
        if Float.truthy (length_3d gpx)
        then Float.round2 (Float.div (length_3d gpx) (Float.of_int 1000))
        else Float.zero in
      let uphill := (get_uphill_downhill gpx).1 in
      if Float.truthy uphill then
        match Float.round uphill with
        | Some gain => inl (mk_stats distance gain)
        | None => inr (mk_stats distance 0)
        end
      else inl (mk_stats distance 0)
  | _ => inr (mk_stats Float.zero 0)
  end.

(** [get_segment_stats(segment)]; [None] when the [round] of the
    fallback raises. *)
Definition get_segment_stats (segment : TripSegment) : option segment_stats :=
  match stats_from_file segment with
  | inl stats => Some stats
  | inr stats =>
      match gpx_path segment with
      | Some ((_ :: _) as points) =>
          let distance :=
            match metric_length segment with
            | Some len => Float.round2 (Float.div len (Float.of_int 1000))
            | None => Float.zero
            end in
          match Float.round (elevation_gain_loop Float.zero points) with
          | Some gain => Some (mk_stats distance gain)
          | None => None
          end
      | _ => Some stats
      end
  end.

(** The denormalised fields of a [Trip] and its segments. *)
Record t := mk {
  gpx_paths : list TripSegment;
  total_distance_km : Float.float;
  total_elevation_gain_m : Z;
  got_points : Z;
  everest_diff_m : Z
}.

(** [trip.gpx_paths.order_by('sequence')] *)
Fixpoint insert_by_sequence (s : TripSegment) (l : list TripSegment) : list TripSegment :=
  match l with
  | [] => [s]
  | s' :: rest =>
      if sequence s <=? sequence s' then s :: s' :: rest
      else s' :: insert_by_sequence s rest
  end.

Definition order_by_sequence (l : list TripSegment) : list TripSegment :=
  foldr insert_by_sequence [] l.

(** The first loop: the two running totals, [None] when
    [get_segment_stats] raises. *)
Fixpoint totals_loop (segments : list TripSegment) (total_distance : Float.float)
    (total_elevation : Z) : option (Float.float * Z) :=
  match segments with
  | [] => Some (total_distance, total_elevation)
  | segment :: rest =>
      match get_segment_stats segment with
      | None => None
      | Some stats =>
          totals_loop rest (Float.add total_distance (distance_km stats))
            (total_elevation + elevation_gain_m stats)
      end
  end.

(** [all_points_in_order] after the first loop. *)
Definition all_points_in_order (segments : list TripSegment) : list coord :=
  concat (map (λ segment, default [] (gpx_path segment)) segments).

(** The body of the "Everest" loop on the pair
    [(max_everest_diff, min_elevation_so_far)]. *)
Definition everest_step (st : Float.float * Float.float)
    (current_elevation : Float.float) : Float.float * Float.float :=
  let potential_diff := Float.sub current_elevation st.2 in
  (Float.max st.1 potential_diff, Float.min st.2 current_elevation).

(** The block computing [everest_diff]. *)
Definition everest_diff (all_points : list coord) : Float.float :=
  if (1 <? length all_points)%nat then
    match map elevation_of all_points with
    | e0 :: rest => (foldl everest_step (Float.zero, e0) rest).1
    | [] => Float.zero
    end
  else Float.zero.

(** [recalculate_trip_stats(trip)]: the trip with the fields written by
    the final [update]; [None] when the function raises before it. *)
Definition recalculate_trip_stats (trip : t) : option t :=
  let segments := order_by_sequence (gpx_paths trip) in
  match totals_loop segments Float.zero 0 with
  | None => None
  | Some (total_distance, total_elevation) =>
      let everest_diff := everest_diff (all_points_in_order segments) in
      match Float.floor total_distance,
            Float.floor (Float.of_ratio total_elevation 100),
            Float.round everest_diff with
      | Some distance_points, Some elevation_points, Some everest =>
          Some (mk (gpx_paths trip)
                  (Float.round2 total_distance)
                  total_elevation
                  (distance_points + elevation_points)
                  everest)
      | _, _, _ => None
      end
  end.

(** *** The quantities of the specification *)

(** The concatenated, sequence-ordered elevation profile of a trip. *)
Definition elevation_profile (trip : t) : list Float.float :=
  map elevation_of (all_points_in_order (order_by_sequence (gpx_paths trip))).

(** [min(l)] of a non-empty list (0 for the empty one). *)
Definition minimum (l : list Float.float) : Float.float :=
  match l with
  | [] => Float.zero
  | x :: rest => foldl Float.min x rest
  end.

(** [max(l)] of a non-empty list (0 for the empty one). *)
Definition maximum (l : list Float.float) : Float.float :=
  match l with
  | [] => Float.zero
  | x :: rest => foldl Float.max x rest
  end.

(** [e[i] − min(e[0..i-1])]: the climb to point [i] from the lowest
    earlier point, a difference of two doubles. *)
Definition climb (e : list Float.float) (i : nat) : Float.float :=
  Float.sub (nth i e Float.zero) (minimum (take i e)).

(** The climbs to the points [i = 1..n-1]. *)
Definition climbs (e : list Float.float) : list Float.float :=
  map (climb e) (seq 1 (length e - 1)).




End Trip64.

(** * Properties *)

(** ** The claim test at its call sites *)

Section window_facts.
Import Window.

Lemma date_leb_refl d : Py.date_leb d d = true.
Proof.
  unfold Py.date_leb. rewrite !Z.ltb_irrefl. apply Z.leb_refl.
Qed.

Lemma visit_in_window_spec s e d :
  visit_in_window s e d = true ↔ claims_spec s e d.
Proof.
  unfold visit_in_window, claims_spec, Py.date_geb.
  rewrite andb_true_iff. split.
  - intros [Hs He]. split.
    + destruct s as [s|]; [right; eauto | by left].
    + destruct e as [e|]; [right; eauto | by left].
  - intros [Hs He]. split.
    + destruct Hs as [-> | (s' & -> & H)]; done.
    + destruct He as [-> | (e' & -> & H)]; done.
Qed.

Lemma scoring_is_claimed_existsb s e vs :
  scoring_is_claimed s e vs = existsb (visit_in_window s e) vs.
Proof.
  induction vs as [|v vs IH]; simpl; [done|].
  rewrite IH. by destruct (visit_in_window s e v).
Qed.

Lemma status_is_claimed_spec s e vs :
  status_is_claimed s e vs = true ↔ ∃ d, d ∈ vs ∧ claims_spec s e d.
Proof.
  unfold status_is_claimed. rewrite existsb_exists.
  split; intros (d & Hd & H); exists d.
  - by rewrite list_elem_of_In, <- visit_in_window_spec.
  - by rewrite <- list_elem_of_In, visit_in_window_spec.
Qed.
End window_facts.

(** C5: the status calculator and the scoring engine decide "a visit
    claims the badge window" by the same function of the visit dates and
    the two bounds; a date claims the window exactly when each bound is
    absent or respected, so a visit on the start date or on the end date
    counts at both call sites and an absent bound never excludes a visit. *)
Theorem claimed_test_agrees (b : Badge.t) (visit_dates : list date) :
  Window.status_is_claimed (Badge.start_date b) (Badge.end_date b) visit_dates
    = Scoring.is_claimed b visit_dates
  ∧ (Scoring.is_claimed b visit_dates = true ↔
       ∃ d, d ∈ visit_dates ∧
            (∀ s, Badge.start_date b = Some s → Py.date_geb d s = true) ∧
            (∀ e, Badge.end_date b = Some e → Py.date_leb d e = true))
  ∧ (∀ d, Badge.start_date b = Some d →
          (∀ e, Badge.end_date b = Some e → Py.date_leb d e = true) →
          Window.status_is_claimed (Some d) (Badge.end_date b) [d] = true ∧
          Window.scoring_is_claimed (Some d) (Badge.end_date b) [d] = true)
  ∧ (∀ d, Badge.end_date b = Some d →
          (∀ s, Badge.start_date b = Some s → Py.date_leb s d = true) →
          Window.status_is_claimed (Badge.start_date b) (Some d) [d] = true ∧
          Window.scoring_is_claimed (Badge.start_date b) (Some d) [d] = true)
  ∧ (∀ d, Window.status_is_claimed None None [d] = true ∧
          Window.scoring_is_claimed None None [d] = true).
Proof.
  unfold Scoring.is_claimed.
  rewrite scoring_is_claimed_existsb.
  change (existsb (Window.visit_in_window (Badge.start_date b) (Badge.end_date b))
            visit_dates)
    with (Window.status_is_claimed (Badge.start_date b) (Badge.end_date b)
            visit_dates).
  split; [done|]. split.
  { rewrite status_is_claimed_spec. unfold Window.claims_spec, Py.date_geb.
    split.
    - intros (d & Hd & Hs & He). exists d. split; [done|]. split.
      + intros s Hb. destruct Hs as [Hs | (s' & Hs & H)]; congruence.
      + intros e Hb. destruct He as [He | (e' & He & H)]; congruence.
    - intros (d & Hd & Hs & He). exists d. split; [done|]. split.
      + destruct (Badge.start_date b) as [s|]; [right; eauto | by left].
      + destruct (Badge.end_date b) as [e|]; [right; eauto | by left]. }
  split; [|split].
  - intros d _ He.
    assert (Window.visit_in_window (Some d) (Badge.end_date b) d = true) as H.
    { unfold Window.visit_in_window, Py.date_geb. rewrite date_leb_refl.
      destruct (Badge.end_date b) as [e|]; [by rewrite (He e) | done]. }
    unfold Window.status_is_claimed. simpl. by rewrite H.
  - intros d _ Hs.
    assert (Window.visit_in_window (Badge.start_date b) (Some d) d = true) as H.
    { unfold Window.visit_in_window, Py.date_geb. rewrite date_leb_refl.
      destruct (Badge.start_date b) as [s|]; [by rewrite (Hs s) | done]. }
    unfold Window.status_is_claimed. simpl. by rewrite H.
  - done.
Qed.

(** The window [2023-01-01, 2023-12-31] claimed on its first and on its
    last day, at both call sites. *)
Lemma claimed_test_agrees_witness :
  let b := Badge.mk 1 (Some (mk_date 2023 1 1)) (Some (mk_date 2023 12 31)) false in
  (Window.status_is_claimed (Badge.start_date b) (Badge.end_date b)
     [mk_date 2023 1 1] = true ∧
   Scoring.is_claimed b [mk_date 2023 1 1] = true) ∧
  (Window.status_is_claimed (Badge.start_date b) (Badge.end_date b)
     [mk_date 2023 12 31] = true ∧
   Scoring.is_claimed b [mk_date 2023 12 31] = true).
Proof.
  intros b.
  pose proof (claimed_test_agrees b [mk_date 2023 1 1]) as (_ & _ & Hs & _ & _).
  pose proof (claimed_test_agrees b [mk_date 2023 12 31]) as (_ & _ & _ & He & _).
  split.
  - apply (Hs (mk_date 2023 1 1)); [reflexivity|].
    intros e [= <-]. reflexivity.
  - apply (He (mk_date 2023 12 31)); [reflexivity|].
    intros s [= <-]. reflexivity.
Defined.

(** ** The status of a POI *)

Section status_facts.
Import Status.

Lemma is_active_spec today b :
  is_active today b = true ↔ active_spec today b.
Proof.
  unfold is_active, active_spec, Py.date_geb.
  rewrite !andb_true_iff, negb_true_iff. split.
  - intros [[Hf Hs] He]. split; [done|]. split.
    + intros s Hb. by rewrite Hb in Hs.
    + intros e Hb. by rewrite Hb in He.
  - intros (Hf & Hs & He). split; [split|]; [done| |].
    + destruct (start_date b) as [s|]; [by apply Hs | done].
    + destruct (end_date b) as [e|]; [by apply He | done].
Qed.

Lemma is_claimed_spec visit_dates b :
  Window.status_is_claimed (start_date b) (end_date b) visit_dates = true
  ↔ claimed_spec visit_dates b.
Proof. apply status_is_claimed_spec. Qed.

Lemma claimed_badges_count_le visit_dates l :
  (claimed_badges_count visit_dates l ≤ length l)%nat.
Proof.
  induction l as [|b l IH]; simpl; [lia|].
  destruct (Window.status_is_claimed _ _ _); lia.
Qed.

(** The comparison [claimed_badges_count == len(active_badges_data)]
    holds exactly when every active badge is claimed. *)
Lemma all_claimed_iff visit_dates l :
  claimed_badges_count visit_dates l = length l
  ↔ Forall (claimed_spec visit_dates) l.
Proof.
  induction l as [|b l IH]; simpl.
  - split; [constructor | done].
  - pose proof (claimed_badges_count_le visit_dates l) as Hle.
    rewrite Forall_cons, <- IH, <- is_claimed_spec.
    destruct (Window.status_is_claimed _ _ _); split.
    + intros H. split; [done | lia].
    + intros [_ H]. lia.
    + intros H. lia.
    + intros [H _]. done.
Qed.

Lemma Forall_filter_active today (P : badge_data → Prop) l :
  Forall P (List.filter (is_active today) l)
  ↔ Forall (λ b, active_spec today b → P b) l.
Proof.
  induction l as [|b l IH]; simpl.
  - split; constructor.
  - rewrite Forall_cons, <- IH.
    destruct (is_active today b) eqn:Hb.
    + rewrite Forall_cons. apply is_active_spec in Hb. tauto.
    + assert (¬ active_spec today b) as Hn.
      { rewrite <- is_active_spec. by rewrite Hb. }
      tauto.
Qed.

Lemma filter_active_nil today l :
  List.filter (is_active today) l = []
  ↔ Forall (λ b, ¬ active_spec today b) l.
Proof.
  induction l as [|b l IH]; simpl.
  - split; [constructor | done].
  - rewrite Forall_cons, <- IH.
    destruct (is_active today b) eqn:Hb.
    + apply is_active_spec in Hb. split; [done | tauto].
    + assert (¬ active_spec today b) as Hn.
      { rewrite <- is_active_spec. by rewrite Hb. }
      tauto.
Qed.
End status_facts.

(** C1: the status of a POI in a badge context.  With no requirement in
    the context, or none whose badge is active, the status is
    [nieaktywny]; otherwise it is [zdobyty] when every active requirement
    badge has a visit within its window, else [do_ponowienia] when the POI
    has a visit of any date, else [niezdobyty]. *)
Theorem determine_status_spec (today : date) (visit_dates : list date)
    (badges_data : list Status.badge_data) :
  let st := Status._determine_status today visit_dates badges_data in
  let all_claimed :=
    Forall (λ b, Status.active_spec today b → Status.claimed_spec visit_dates b)
      badges_data in
  ((badges_data = [] ∨ Forall (λ b, ¬ Status.active_spec today b) badges_data) →
     st = Status.nieaktywny) ∧
  (Exists (Status.active_spec today) badges_data →
     (all_claimed → st = Status.zdobyty) ∧
     (¬ all_claimed → visit_dates ≠ [] → st = Status.do_ponowienia) ∧
     (¬ all_claimed → visit_dates = [] → st = Status.niezdobyty)).
Proof.
  intros st all_claimed. subst st all_claimed.
  unfold Status._determine_status. split.
  - intros [-> | Hnone]; [done|].
    apply filter_active_nil in Hnone. rewrite Hnone.
    by destruct badges_data.
  - intros Hex.
    destruct badges_data as [|b0 l0] eqn:Hl; [by apply Exists_nil in Hex|].
    rewrite <- Hl in *. clear Hl b0 l0.
    destruct (List.filter (Status.is_active today) badges_data) as [|a l] eqn:Hf.
    { apply filter_active_nil in Hf. apply Exists_exists in Hex as (b & Hb & Ha).
      rewrite Forall_forall in Hf. by destruct (Hf b Hb). }
    rewrite <- Hf. clear Hf a l.
    rewrite <- Forall_filter_active, <- all_claimed_iff.
    destruct (Nat.eqb_spec
                (Status.claimed_badges_count visit_dates
                   (List.filter (Status.is_active today) badges_data))
                (length (List.filter (Status.is_active today) badges_data)))
      as [Heq | Hne].
    + split; [done|]. split; intros Hn; by destruct Hn.
    + split; [done|]. split; intros _ Hv; destruct visit_dates; done.
Qed.

(** The scenario of the specification: one active requirement with the
    window [2023-01-01, 2023-12-31], seen on 2023-07-01. *)
Lemma determine_status_spec_witness :
  let today := mk_date 2023 7 1 in
  let b := Status.mk_badge_data false (Some (mk_date 2023 1 1))
             (Some (mk_date 2023 12 31)) in
  Status._determine_status today [] [b] = Status.niezdobyty ∧
  Status._determine_status today [mk_date 2023 6 1] [b] = Status.zdobyty ∧
  Status._determine_status today [mk_date 2024 1 1] [b] = Status.do_ponowienia ∧
  Status._determine_status today [mk_date 2023 6 1] [] = Status.nieaktywny.
Proof.
  intros today b.
  assert (Status.active_spec today b) as Hact.
  { split; [done|]. split; intros d [= <-]; reflexivity. }
  assert (Exists (Status.active_spec today) [b]) as Hex by (by left).
  assert (∀ d, Py.date_leb d (mk_date 2023 12 31) = false →
               ¬ Forall (λ b0, Status.active_spec today b0 →
                               Status.claimed_spec [d] b0) [b]) as Hout.
  { intros d Hd Hall. apply Forall_inv in Hall.
    destruct (Hall Hact) as (d' & Hin & _ & He).
    apply list_elem_of_singleton in Hin as ->.
    destruct He as [He | (e & [= <-] & He)]; [done | congruence]. }
  split; [|split; [|split]].
  - apply (determine_status_spec today [] [b]); [done| |done].
    intros Hall. apply Forall_inv in Hall.
    destruct (Hall Hact) as (d & Hin & _). by apply elem_of_nil in Hin.
  - apply (determine_status_spec today [mk_date 2023 6 1] [b]); [done|].
    constructor; [|constructor]. intros _. exists (mk_date 2023 6 1).
    split; [by left|]. split; right; eexists; (split; [reflexivity|reflexivity]).
  - apply (determine_status_spec today [mk_date 2024 1 1] [b]); [done| |done].
    by apply Hout.
  - apply (determine_status_spec today [mk_date 2023 6 1] []). by left.
Defined.

(** ** Insertion-ordered dictionaries *)

Section dict_facts.
Context {K V : Type} `{EqDecision K}.
Implicit Types (k : K) (v : V) (d : list (K * V)).

Lemma dict_get_set_eq k v d : Dict.get k (Dict.set k v d) = Some v.
Proof.
  induction d as [|[k' v'] d IH]; simpl.
  - by rewrite decide_True.
  - destruct (decide (k = k')) as [->|Hne]; simpl.
    + by rewrite decide_True.
    + by rewrite decide_False.
Qed.

Lemma dict_get_set_ne k k' v d :
  k ≠ k' → Dict.get k (Dict.set k' v d) = Dict.get k d.
Proof.
  intros Hne. induction d as [|[k2 v2] d IH]; simpl.
  - by rewrite decide_False.
  - destruct (decide (k' = k2)) as [->|Hne2]; simpl.
    + by rewrite !decide_False.
    + destruct (decide (k = k2)); done.
Qed.

Lemma dict_keys_set k v d :
  Dict.keys (Dict.set k v d)
  = if decide (k ∈ Dict.keys d) then Dict.keys d else Dict.keys d ++ [k].
Proof.
  unfold Dict.keys. induction d as [|[k' v'] d IH]; [done|].
  cbn [Dict.set map fst].
  destruct (decide (k = k')) as [->|Hne]; cbn [map fst].
  - destruct (decide (k' ∈ k' :: map fst d)) as [Hin|Hnin]; [done|].
    destruct Hnin. by left.
  - rewrite IH. destruct (decide (k ∈ map fst d)) as [Hin|Hnin].
    + destruct (decide (k ∈ k' :: map fst d)) as [Hin'|Hnin']; [done|].
      destruct Hnin'. by right.
    + destruct (decide (k ∈ k' :: map fst d)) as [Hin'|Hnin']; [|done].
      apply elem_of_cons in Hin' as [?|?]; done.
Qed.

Lemma dict_keys_set_NoDup k v d :
  NoDup (Dict.keys d) → NoDup (Dict.keys (Dict.set k v d)).
Proof.
  intros Hd. rewrite dict_keys_set. case_decide; [done|].
  apply NoDup_app. split; [done|]. split.
  - intros x Hx Hx'. apply list_elem_of_singleton in Hx' as ->. done.
  - apply NoDup_singleton.
Qed.

Lemma dict_get_None k d : Dict.get k d = None ↔ k ∉ Dict.keys d.
Proof.
  unfold Dict.keys. induction d as [|[k' v'] d IH]; simpl.
  - split; [intros _; apply not_elem_of_nil | done].
  - rewrite not_elem_of_cons. destruct (decide (k = k')) as [->|Hne].
    + split; [done | by intros [? _]].
    + rewrite IH. tauto.
Qed.

Lemma dict_get_Some_elem k v d : Dict.get k d = Some v → (k, v) ∈ d.
Proof.
  induction d as [|[k' v'] d IH]; simpl; [done|].
  destruct (decide (k = k')) as [->|Hne].
  - intros [= ->]. by left.
  - intros Hg. right. by apply IH.
Qed.

Lemma dict_elem_get k v d :
  NoDup (Dict.keys d) → (k, v) ∈ d → Dict.get k d = Some v.
Proof.
  unfold Dict.keys. induction d as [|[k' v'] d IH]; simpl.
  - intros _ Hin. by apply elem_of_nil in Hin.
  - intros Hnd Hin. apply NoDup_cons in Hnd as [Hk Hnd].
    apply elem_of_cons in Hin as [[= <- <-]|Hin].
    + by rewrite decide_True.
    + rewrite decide_False; [by apply IH|].
      intros ->. apply Hk. apply list_elem_of_fmap.
      by exists (k', v).
Qed.
End dict_facts.

(** A [defaultdict(list)] filled by one [append] per row groups the rows
    by key, in order. *)
Section grouping.
Context {R X : Type} (f : R → Z) (g : R → X).

Abbreviation grouped := (Dict.grouped f g).

Lemma get_foldl_append rows d0 k :
  Dict.get k (foldl (λ d r, Dict.append (f r) (g r) d) d0 rows)
  = match grouped k rows with
    | [] => Dict.get k d0
    | l => Some (default [] (Dict.get k d0) ++ l)
    end.
Proof.
  unfold Dict.grouped. revert d0.
  induction rows as [|r rows IH]; intros d0; simpl; [done|].
  rewrite IH. unfold Dict.append.
  destruct (bool_decide (f r = k)) eqn:Hk.
  - apply bool_decide_eq_true in Hk as <-.
    rewrite dict_get_set_eq. simpl.
    destruct (map g (List.filter _ rows)); simpl; [done|].
    by rewrite <- app_assoc.
  - apply bool_decide_eq_false in Hk.
    rewrite dict_get_set_ne by done. done.
Qed.

Lemma keys_foldl_append_NoDup rows d0 :
  NoDup (Dict.keys d0) →
  NoDup (Dict.keys (foldl (λ d r, Dict.append (f r) (g r) d) d0 rows)).
Proof.
  revert d0. induction rows as [|r rows IH]; intros d0 Hd0; simpl; [done|].
  apply IH. by apply dict_keys_set_NoDup.
Qed.

Lemma elem_foldl_append rows k l :
  (k, l) ∈ foldl (λ d r, Dict.append (f r) (g r) d) [] rows →
  l = grouped k rows ∧ l ≠ [].
Proof.
  intros Hin.
  apply dict_elem_get in Hin; [|apply keys_foldl_append_NoDup, NoDup_nil_2].
  rewrite get_foldl_append in Hin. simpl in Hin.
  destruct (grouped k rows) eqn:Hg; [done|].
  by injection Hin as <-.
Qed.

Lemma elem_of_grouped x k rows :
  x ∈ grouped k rows ↔ ∃ r, r ∈ rows ∧ f r = k ∧ g r = x.
Proof.
  unfold Dict.grouped. rewrite list_elem_of_fmap. split.
  - intros (r & -> & Hr). apply list_elem_of_In, filter_In in Hr as [Hr Hk].
    apply bool_decide_eq_true in Hk. exists r. by rewrite list_elem_of_In.
  - intros (r & Hr & Hk & <-). exists r. split; [done|].
    apply list_elem_of_In, filter_In. split; [by apply list_elem_of_In|].
    by apply bool_decide_eq_true.
Qed.
End grouping.

(** ** The scoring engine *)

Section scoring_facts.
Import Scoring.

Lemma badges_map_foldl_notin bs (m0 : gmap Z Badge.t) k :
  k ∉ map Badge.id bs →
  foldl (λ m b, <[Badge.id b := b]> m) m0 bs !! k = m0 !! k.
Proof.
  revert m0. induction bs as [|b bs IH]; intros m0 Hk; simpl; [done|].
  simpl in Hk. apply not_elem_of_cons in Hk as [Hne Hk].
  rewrite IH by done. by rewrite lookup_insert_ne.
Qed.

Lemma badges_map_foldl_Some bs (m0 : gmap Z Badge.t) k b :
  foldl (λ m b, <[Badge.id b := b]> m) m0 bs !! k = Some b →
  (b ∈ bs ∧ Badge.id b = k) ∨ m0 !! k = Some b.
Proof.
  revert m0. induction bs as [|b' bs IH]; intros m0; simpl; [by right|].
  intros Hl. apply IH in Hl as [[Hin Hid]|Hl].
  - left. split; [by right | done].
  - destruct (decide (Badge.id b' = k)) as [<-|Hne].
    + rewrite lookup_insert_eq in Hl. injection Hl as ->. left. split; [by left|done].
    + rewrite lookup_insert_ne in Hl by done. by right.
Qed.

Lemma active_badges_map_lookup bs b :
  NoDup (map Badge.id bs) → b ∈ bs →
  active_badges_map bs !! Badge.id b = Some b.
Proof.
  unfold active_badges_map. generalize (∅ : gmap Z Badge.t).
  induction bs as [|b' bs IH]; intros m0 Hnd Hin; simpl.
  - by apply elem_of_nil in Hin.
  - simpl in Hnd. apply NoDup_cons in Hnd as [Hb' Hnd].
    apply elem_of_cons in Hin as [->|Hin].
    + rewrite badges_map_foldl_notin by done. apply lookup_insert_eq.
    + by apply IH.
Qed.

Lemma active_badges_map_is_Some bs k :
  k ∈ map Badge.id bs → is_Some (active_badges_map bs !! k).
Proof.
  unfold active_badges_map. generalize (∅ : gmap Z Badge.t).
  induction bs as [|b bs IH]; intros m0 Hin; simpl.
  - by apply elem_of_nil in Hin.
  - simpl in Hin. destruct (decide (k ∈ map Badge.id bs)) as [Hk|Hk].
    + by apply IH.
    + apply elem_of_cons in Hin as [->|Hin]; [|done].
      rewrite badges_map_foldl_notin by done. rewrite lookup_insert_eq. eauto.
Qed.

Lemma requirements_of_elem db ids r :
  r ∈ requirements_of db ids ↔ r ∈ BadgeRequirement_objects db ∧ r.1 ∈ ids.
Proof.
  unfold requirements_of. rewrite !list_elem_of_In, filter_In.
  rewrite bool_decide_eq_true. by rewrite !list_elem_of_In.
Qed.

(** The POIs gathered for an active badge are the POIs it requires. *)
Lemma grouped_requirements db ids k :
  k ∈ ids →
  Dict.grouped fst snd k (requirements_of db ids) = required_pois db k.
Proof.
  intros Hk. unfold Dict.grouped, required_pois, requirements_of. f_equal.
  induction (BadgeRequirement_objects db) as [|r l IH]; simpl; [done|].
  destruct (bool_decide (r.1 = k)) eqn:Hr.
  - apply bool_decide_eq_true in Hr. rewrite bool_decide_true by (by rewrite Hr).
    simpl. rewrite bool_decide_true by done. by rewrite IH.
  - destruct (bool_decide (r.1 ∈ ids)); simpl; [|done].
    by rewrite Hr.
Qed.

Lemma claimed_count_filter b visits_by_poi poi_ids :
  claimed_count b visits_by_poi poi_ids
  = Z.of_nat (length (List.filter
       (λ poi_id, is_claimed b (visits_of visits_by_poi poi_id)) poi_ids)).
Proof.
  induction poi_ids as [|p l IH]; simpl; [done|].
  rewrite IH. destruct (is_claimed b _); simpl; lia.
Qed.

(** The loop filling [remaining_counts] never raises on keys of the
    badge map, and leaves for each key its total minus its claimed count. *)
Lemma remaining_counts_loop_spec bm visits_by_poi items acc :
  NoDup (Dict.keys items) →
  (∀ k, k ∈ Dict.keys items → is_Some (bm !! k)) →
  ∃ rc, remaining_counts_loop bm visits_by_poi items acc = Some rc ∧
    ∀ k, rc !! k =
      match Dict.get k items, bm !! k with
      | Some poi_ids, Some b =>
          Some (Z.of_nat (length poi_ids) - claimed_count b visits_by_poi poi_ids)
      | _, _ => acc !! k
      end.
Proof.
  revert acc. induction items as [|[bid poi_ids] items IH]; intros acc Hnd Hbm.
  - exists acc. split; [done|]. intros k. simpl. done.
  - simpl. unfold Dict.keys in Hnd, Hbm. simpl in Hnd, Hbm.
    apply NoDup_cons in Hnd as [Hbid Hnd].
    destruct (Hbm bid) as [b Hb]; [by left|]. rewrite Hb.
    destruct (IH (<[bid := Z.of_nat (length poi_ids)
                         - claimed_count b visits_by_poi poi_ids]> acc))
      as (rc & Hrc & Hlook); [done | |].
    { intros k Hk. apply Hbm. by right. }
    exists rc. split; [done|]. intros k. rewrite Hlook.
    destruct (decide (k = bid)) as [->|Hne].
    + rewrite Hb.
      assert (Dict.get bid items = None) as -> by (by apply dict_get_None).
      by rewrite lookup_insert_eq.
    + rewrite lookup_insert_ne by done. done.
Qed.
End scoring_facts.

Section scoring_share_facts.
Import Scoring.

Lemma pois_by_badge_keys db ids k :
  k ∈ Dict.keys (pois_by_badge (requirements_of db ids)) → k ∈ ids.
Proof.
  unfold Dict.keys. intros Hk.
  apply list_elem_of_fmap in Hk as ([k' l] & -> & Hin). simpl.
  apply elem_foldl_append in Hin as [-> Hne].
  destruct (Dict.grouped fst snd k' (requirements_of db ids)) as [|x l] eqn:Hg;
    [done|].
  assert (x ∈ Dict.grouped fst snd k' (requirements_of db ids)) as Hx
    by (rewrite Hg; by left).
  apply elem_of_grouped in Hx as (r & Hr & <- & _).
  by apply requirements_of_elem in Hr as [_ Hr].
Qed.

Lemma pois_by_badge_get db ids k :
  k ∈ ids → required_pois db k ≠ [] →
  Dict.get k (pois_by_badge (requirements_of db ids)) = Some (required_pois db k).
Proof.
  intros Hk Hne. unfold pois_by_badge.
  rewrite (get_foldl_append fst snd), grouped_requirements by done.
  by destruct (required_pois db k).
Qed.

Lemma remaining_counts_total db active_badges visits_by_poi :
  ∃ rc, remaining_counts db active_badges visits_by_poi = Some rc ∧
    ∀ b, NoDup (map Badge.id active_badges) → b ∈ active_badges →
         required_pois db (Badge.id b) ≠ [] →
         rc !! Badge.id b = Some (remaining db visits_by_poi b).
Proof.
  unfold remaining_counts.
  destruct (remaining_counts_loop_spec (active_badges_map active_badges)
              visits_by_poi
              (pois_by_badge (requirements_of db (map Badge.id active_badges))) ∅)
    as (rc & Hrc & Hlook).
  { apply (keys_foldl_append_NoDup fst snd), NoDup_nil_2. }
  { intros k Hk. by apply active_badges_map_is_Some, (pois_by_badge_keys db). }
  exists rc. split; [done|]. intros b Hnd Hb Hreq.
  assert (Badge.id b ∈ map Badge.id active_badges) as Hid.
  { apply list_elem_of_fmap. by exists b. }
  rewrite Hlook, pois_by_badge_get, active_badges_map_lookup by done.
  by rewrite claimed_count_filter.
Qed.

(** The loop over the badges of a POI meets every active badge that
    requires it. *)
Lemma badges_by_poi_get db ids b poi_id :
  Badge.id b ∈ ids → poi_id ∈ required_pois db (Badge.id b) →
  ∃ badge_ids,
    Dict.get poi_id (badges_by_poi (requirements_of db ids)) = Some badge_ids ∧
    Badge.id b ∈ badge_ids.
Proof.
  intros Hid Hreq.
  apply (elem_of_grouped fst snd) in Hreq as (r & Hr & Hk & Hp).
  assert (Badge.id b ∈ Dict.grouped snd fst poi_id (requirements_of db ids))
    as Hin.
  { apply elem_of_grouped. exists r. split; [|done].
    apply requirements_of_elem. split; [done | by rewrite Hk]. }
  unfold badges_by_poi. rewrite (get_foldl_append snd fst).
  destruct (Dict.grouped snd fst poi_id (requirements_of db ids)) as [|x l];
    [by apply elem_of_nil in Hin|].
  eexists. split; [done|]. exact Hin.
Qed.

End scoring_share_facts.

(** ** Stable descending sort *)

Section sorted_desc_facts.
Context {A : Type} (key : A → Q).

Lemma insert_desc_Permutation x l : insert_desc key x l ≡ₚ x :: l.
Proof.
  induction l as [|y l IH]; simpl; [done|].
  destruct (Qle_bool (key y) (key x)); [done|].
  rewrite IH. apply Permutation_swap.
Qed.

Lemma sorted_desc_Permutation l : sorted_desc key l ≡ₚ l.
Proof.
  induction l as [|x l IH]; simpl; [done|].
  by rewrite insert_desc_Permutation, IH.
Qed.

Lemma insert_desc_sorted x l :
  StronglySorted (λ a b, key b <= key a)%Q l →
  StronglySorted (λ a b, key b <= key a)%Q (insert_desc key x l).
Proof.
  induction 1 as [|y l Hl IH Hy]; simpl.
  - repeat constructor.
  - destruct (Qle_bool (key y) (key x)) eqn:Hyx.
    + apply Qle_bool_iff in Hyx. constructor; [by constructor|].
      constructor; [done|].
      eapply Forall_impl; [exact Hy|]. intros z Hz. simpl in Hz.
      by apply Qle_trans with (key y).
    + constructor; [done|].
      rewrite insert_desc_Permutation. constructor; [|done].
      apply Qlt_le_weak, Qnot_le_lt. intros Hle.
      apply Qle_bool_iff in Hle. congruence.
Qed.

Lemma sorted_desc_sorted l :
  StronglySorted (λ a b, key b <= key a)%Q (sorted_desc key l).
Proof.
  induction l as [|x l IH]; simpl; [constructor|].
  by apply insert_desc_sorted.
Qed.
End sorted_desc_facts.

(** ** The parent rollup *)

Section parent_rollup_facts.
Import Scoring.

Abbreviation item_id := (λ item : ScoreItem, PointOfInterest.id (poi item)).

Lemma dict_set_fresh {V} (k : Z) (v : V) d :
  k ∉ Dict.keys d → Dict.set k v d = d ++ [(k, v)].
Proof.
  unfold Dict.keys. induction d as [|[k' v'] d IH]; simpl; [done|].
  intros Hk. apply not_elem_of_cons in Hk as [Hne Hk].
  rewrite decide_False by done. by rewrite IH.
Qed.

Lemma scores_dict_foldl (l : list ScoreItem) (off : nat) (d0 : list (Z * nat)) :
  NoDup (Dict.keys d0 ++ map item_id l) →
  foldl (λ d ix, Dict.set (item_id ix.2) ix.1 d) d0
    (imap (λ i item, ((off + i)%nat, item)) l)
  = d0 ++ imap (λ i item, (item_id item, (off + i)%nat)) l.
Proof.
  revert off d0. induction l as [|x l IH]; intros off d0 Hnd.
  - simpl. by rewrite app_nil_r.
  - rewrite !imap_cons. cbn [foldl fst snd].
    rewrite (imap_ext _ (λ i item, ((S off + i)%nat, item)))
      by (intros; simpl; f_equal; lia).
    rewrite (imap_ext (_ ∘ S) (λ i item, (item_id item, (S off + i)%nat)))
      by (intros; simpl; f_equal; lia).
    assert (item_id x ∉ Dict.keys d0) as Hx.
    { apply NoDup_app in Hnd as (_ & Hdisj & _). intros Hin.
      apply (Hdisj _ Hin). by left. }
    rewrite dict_set_fresh by done.
    rewrite IH.
    + by rewrite <- app_assoc.
    + unfold Dict.keys in *. rewrite fmap_app, <- app_assoc. exact Hnd.
Qed.

Lemma scores_dict_of_NoDup base :
  NoDup (map item_id base) →
  scores_dict_of base = imap (λ i item, (item_id item, i)) base.
Proof.
  intros Hnd. unfold scores_dict_of.
  exact (scores_dict_foldl base 0 [] Hnd).
Qed.

Lemma scores_dict_keys base :
  NoDup (map item_id base) → Dict.keys (scores_dict_of base) = map item_id base.
Proof.
  intros Hnd. rewrite scores_dict_of_NoDup by done. unfold Dict.keys.
  rewrite fmap_imap. apply imap_const.
Qed.

Lemma scores_dict_values base :
  NoDup (map item_id base) →
  Dict.values (scores_dict_of base) = seq 0 (length base).
Proof.
  intros Hnd. rewrite scores_dict_of_NoDup by done. unfold Dict.values.
  rewrite fmap_imap.
  rewrite (imap_ext _ (λ i _, id i)) by done.
  rewrite imap_seq_0. apply list_fmap_id.
Qed.

Lemma scores_dict_get base i item :
  NoDup (map item_id base) → base !! i = Some item →
  Dict.get (item_id item) (scores_dict_of base) = Some i.
Proof.
  intros Hnd Hi. apply dict_elem_get; [by rewrite scores_dict_keys|].
  rewrite scores_dict_of_NoDup by done.
  by apply (elem_of_lookup_imap_2 (λ i item, (item_id item, i))).
Qed.

Lemma scores_dict_get_None base k :
  NoDup (map item_id base) → k ∉ map item_id base →
  Dict.get k (scores_dict_of base) = None.
Proof.
  intros Hnd Hk. apply dict_get_None. by rewrite scores_dict_keys.
Qed.

Lemma NoDup_ids_lookup base i j x y :
  NoDup (map item_id base) → base !! i = Some x → base !! j = Some y →
  item_id x = item_id y → i = j.
Proof.
  intros Hnd Hi Hj Hid.
  apply (NoDup_lookup (map item_id base) i j (item_id x)); [done| |].
  - by rewrite list_lookup_fmap, Hi.
  - by rewrite list_lookup_fmap, Hj, Hid.
Qed.

(** The body of the loop with its dictionary lookups resolved. *)
Lemma aggregate_child_unscored_parent base child pid store :
  NoDup (map item_id base) → child ∈ base →
  PointOfInterest.parent_id (poi child) = Some pid →
  pid ∉ map item_id base →
  aggregate_child (scores_dict_of base) store (poi child) = store.
Proof.
  intros Hnd Hin Hp Hpid. unfold aggregate_child, parent_ref.
  rewrite Hp, (scores_dict_get_None base pid) by done.
  by destruct (Dict.get _ _).
Qed.

Lemma aggregate_child_scored_parent base ci pi child parent store x y :
  NoDup (map item_id base) →
  base !! ci = Some child → base !! pi = Some parent →
  PointOfInterest.parent_id (poi child) = Some (item_id parent) →
  store !! ci = Some x → store !! pi = Some y →
  aggregate_child (scores_dict_of base) store (poi child)
  = <[pi := mk_item (poi y) (score y + score x)%Q (badges y)
              (Some (default [] (aggregated_from y)
                     ++ [PointOfInterest.name (poi x)]))]> store.
Proof.
  intros Hnd Hci Hpi Hp Hx Hy. unfold aggregate_child, parent_ref.
  rewrite Hp, (scores_dict_get base ci child), (scores_dict_get base pi parent)
    by done.
  by rewrite Hx, Hy.
Qed.

Lemma aggregate_child_pois dict store c :
  poi <$> aggregate_child dict store c = poi <$> store.
Proof.
  unfold aggregate_child.
  destruct (Dict.get _ _) as [ci|]; [|done].
  destruct (parent_ref _ _) as [pi|]; [|done].
  destruct (store !! ci) as [x|]; [|done].
  destruct (store !! pi) as [y|] eqn:Hy; [|done].
  rewrite list_fmap_insert. simpl.
  apply list_insert_id. by rewrite list_lookup_fmap, Hy.
Qed.

Lemma foldl_aggregate_pois dict cs store :
  poi <$> foldl (aggregate_child dict) store cs = poi <$> store.
Proof.
  revert store. induction cs as [|c cs IH]; intros store; simpl; [done|].
  by rewrite IH, aggregate_child_pois.
Qed.

Lemma omap_lookup_seq {X} (l : list X) :
  omap (λ i, l !! i) (seq 0 (length l)) = l.
Proof.
  induction l as [|x l IH] using rev_ind; [done|].
  rewrite length_app. simpl. rewrite Nat.add_1_r, seq_S, omap_app. simpl.
  rewrite list_lookup_middle by done. simpl. f_equal.
  transitivity (omap (λ i, l !! i) (seq 0 (length l))); [|exact IH].
  apply list_omap_ext. apply Forall2_same_length_lookup_2; [done|].
  intros i a b Ha Hb. rewrite Ha in Hb. injection Hb as <-.
  apply lookup_seq in Ha as [-> Hlt]. simpl.
  by rewrite lookup_app_l.
Qed.

(** With distinct POI ids the ranking is the sorted store. *)
Lemma aggregate_parent_ranking base :
  NoDup (map item_id base) →
  _aggregate_parent_scores_from_base base
  = (sorted_desc score
       (foldl (aggregate_child (scores_dict_of base)) base (children_of base)),
     foldl (aggregate_child (scores_dict_of base)) base (children_of base)).
Proof.
  intros Hnd. unfold _aggregate_parent_scores_from_base.
  destruct base as [|b0 base0] eqn:Hb; [done|]. rewrite <- Hb in *.
  f_equal. f_equal. unfold final_results_list.
  rewrite scores_dict_values by done.
  set (store := foldl _ _ _).
  assert (length base = length store) as ->.
  { rewrite <- (length_fmap poi base), <- (length_fmap poi store).
    unfold store. by rewrite foldl_aggregate_pois. }
  apply omap_lookup_seq.
Qed.
End parent_rollup_facts.

Section two_level_facts.
Import Scoring.

Abbreviation item_id := (λ item : ScoreItem, PointOfInterest.id (poi item)).

Lemma children_of_app l1 l2 :
  children_of (l1 ++ l2) = children_of l1 ++ children_of l2.
Proof. unfold children_of. by rewrite map_app, List.filter_app. Qed.

Lemma scored_children_app l1 l2 pid :
  scored_children (l1 ++ l2) pid
  = scored_children l1 pid ++ scored_children l2 pid.
Proof. unfold scored_children. by rewrite List.filter_app. Qed.

Lemma rolled_up_snoc parent kids x :
  mk_item (poi (rolled_up parent kids))
    (score (rolled_up parent kids) + score x)%Q
    (badges (rolled_up parent kids))
    (Some (default [] (aggregated_from (rolled_up parent kids))
           ++ [PointOfInterest.name (poi x)]))
  = rolled_up parent (kids ++ [x]).
Proof.
  destruct kids as [|k ks]; [done|].
  unfold rolled_up. cbn [app poi score badges aggregated_from].
  change (k :: ks ++ [x]) with ((k :: ks) ++ [x]).
  rewrite !map_app, foldl_app. simpl.
  by rewrite <- app_assoc.
Qed.

(** After the children among a prefix of the base list are processed,
    every entry holds its base value rolled up with its scored children
    among that prefix. *)
Lemma two_level_store base :
  NoDup (map item_id base) → two_level base →
  ∀ done todo, base = done ++ todo →
  ∀ p e, base !! p = Some e →
    foldl (aggregate_child (scores_dict_of base)) base (children_of done) !! p
    = Some (rolled_up e (scored_children done (item_id e))).
Proof.
  intros Hnd Hflat done.
  induction done as [|x done IH] using rev_ind; intros todo Hbase p e Hp.
  - done.
  - rewrite children_of_app, scored_children_app, foldl_app.
    specialize (IH (x :: todo)).
    rewrite <- app_assoc in Hbase. specialize (IH Hbase).
    set (s := foldl _ base (children_of done)) in *.
    assert (base !! length done = Some x) as Hx.
    { rewrite Hbase. by apply list_lookup_middle. }
    unfold children_of at 1, scored_children at 2. cbn [map List.filter].
    destruct (PointOfInterest.parent_id (poi x)) as [pid|] eqn:Hpar.
    2:{ rewrite bool_decide_false by (by intros [? ?]).
        rewrite bool_decide_false by done.
        cbn [foldl]. rewrite app_nil_r. by apply IH. }
    rewrite bool_decide_true by eauto. cbn [foldl].
    destruct (decide (pid ∈ map item_id base)) as [Hin|Hnin].
    + apply list_elem_of_fmap in Hin as (parent & Hpid & Hin).
      apply list_elem_of_lookup in Hin as [pi Hpi].
      assert (s !! length done = Some x) as Hsx.
      { rewrite (IH _ _ Hx).
        assert (scored_children done (item_id x) = []) as ->; [|done].
        pose proof (Hflat x) as Hx0.
        rewrite Hbase, scored_children_app in Hx0.
        apply app_eq_nil in Hx0 as [? ?]; [done| |by rewrite Hpar].
        rewrite <- Hbase. by apply list_elem_of_lookup_2 in Hx. }
      assert (PointOfInterest.parent_id (poi x) = Some (item_id parent)) as Hpx
        by (by rewrite Hpar, Hpid).
      pose proof (IH _ _ Hpi) as Hsp.
      rewrite (aggregate_child_scored_parent base (length done) pi x parent s x
                 (rolled_up parent (scored_children done (item_id parent)))
                 Hnd Hx Hpi Hpx Hsx Hsp).
      rewrite rolled_up_snoc.
      destruct (decide (p = pi)) as [->|Hne].
      * rewrite list_lookup_insert_eq.
        2:{ apply lookup_lt_is_Some. rewrite Hsp. eauto. }
        rewrite Hpi in Hp. injection Hp as <-.
        by rewrite bool_decide_true by (by rewrite Hpid).
      * rewrite list_lookup_insert_ne by done.
        rewrite bool_decide_false, app_nil_r; [by apply IH|].
        intros [= Heq]. apply Hne.
        apply (NoDup_ids_lookup base p pi e parent); [done..|].
        by rewrite <- Hpid.
    + rewrite (aggregate_child_unscored_parent base x pid) by
        (try done; by apply list_elem_of_lookup_2 in Hx).
      rewrite bool_decide_false, app_nil_r; [by apply IH|].
      intros [= ->]. apply Hnin. apply list_elem_of_fmap. exists e.
      split; [done|]. by apply list_elem_of_lookup_2 in Hp.
Qed.
End two_level_facts.

Section chain_facts.
Import Scoring.

Abbreviation item_id := (λ item : ScoreItem, PointOfInterest.id (poi item)).

Lemma entry_after_poi processed item : poi (entry_after processed item) = poi item.
Proof.
  induction processed as [|child earlier IH]; simpl; [done|].
  by case_decide.
Qed.

(** After the children among a prefix of the base list are processed,
    every entry is what [entry_after] says of that prefix. *)
Lemma rollup_store base :
  NoDup (map item_id base) →
  ∀ done todo, base = done ++ todo →
  ∀ p e, base !! p = Some e →
    foldl (aggregate_child (scores_dict_of base)) base (children_of done) !! p
    = Some (entry_after (rev done) e).
Proof.
  intros Hnd done.
  induction done as [|x done IH] using rev_ind; intros todo Hbase p e Hp.
  - done.
  - rewrite children_of_app, foldl_app, rev_app_distr.
    specialize (IH (x :: todo)).
    rewrite <- app_assoc in Hbase. specialize (IH Hbase).
    set (s := foldl _ base (children_of done)) in *.
    assert (base !! length done = Some x) as Hx.
    { rewrite Hbase. by apply list_lookup_middle. }
    unfold children_of at 1. cbn [map List.filter rev app entry_after].
    destruct (PointOfInterest.parent_id (poi x)) as [pid|] eqn:Hpar.
    2:{ rewrite bool_decide_false by (by intros [? ?]).
        rewrite decide_False by done. cbn [foldl]. by apply IH. }
    rewrite bool_decide_true by eauto. cbn [foldl].
    destruct (decide (pid ∈ map item_id base)) as [Hin|Hnin].
    + apply list_elem_of_fmap in Hin as (parent & Hpid & Hin).
      apply list_elem_of_lookup in Hin as [pi Hpi].
      assert (PointOfInterest.parent_id (poi x) = Some (item_id parent)) as Hpx
        by (by rewrite Hpar, Hpid).
      rewrite (aggregate_child_scored_parent base (length done) pi x parent s
                 (entry_after (rev done) x) (entry_after (rev done) parent)
                 Hnd Hx Hpi Hpx (IH _ _ Hx) (IH _ _ Hpi)).
      rewrite !entry_after_poi.
      destruct (decide (p = pi)) as [->|Hne].
      * rewrite list_lookup_insert_eq.
        2:{ apply lookup_lt_is_Some. rewrite (IH _ _ Hpi). eauto. }
        rewrite Hpi in Hp. injection Hp as <-.
        by rewrite decide_True by (by rewrite Hpid).
      * rewrite list_lookup_insert_ne by done.
        rewrite decide_False; [by apply IH|].
        intros [= Heq]. apply Hne.
        apply (NoDup_ids_lookup base p pi e parent); [done..|].
        by rewrite <- Hpid.
    + rewrite (aggregate_child_unscored_parent base x pid) by
        (try done; by apply list_elem_of_lookup_2 in Hx).
      rewrite decide_False; [by apply IH|].
      intros [= ->]. apply Hnin. apply list_elem_of_fmap. exists e.
      split; [done|]. by apply list_elem_of_lookup_2 in Hp.
Qed.
End chain_facts.

(** C3 (as the code has it): the parent rollup keeps exactly the scored
    POIs and returns them sorted descending by score.  A child whose
    parent is not itself in the scored list adds nothing (no entry is made
    for that parent); a child whose parent is in the list adds its score,
    as it stands when the child is processed, to the parent's entry and
    its name to [aggregated_from].  The ranking therefore holds, for every
    scored POI, the entry [entry_after] describes: its own score plus, in
    list order, the score each of its scored children had when that
    child's turn came.  When the scored POIs form two levels, each entry
    ends with its own score plus the scores of its scored children and
    lists exactly those children. *)
Theorem parent_rollup_spec (base : list Scoring.ScoreItem) :
  NoDup (map (λ item, PointOfInterest.id (Scoring.poi item)) base) →
  let ranking := (Scoring._aggregate_parent_scores_from_base base).1 in
  let scores_dict := Scoring.scores_dict_of base in
  StronglySorted (λ a b, Scoring.score b <= Scoring.score a)%Q ranking ∧
  Scoring.poi <$> ranking ≡ₚ Scoring.poi <$> base ∧
  (∀ child pid store,
     child ∈ base →
     PointOfInterest.parent_id (Scoring.poi child) = Some pid →
     pid ∉ map (λ item, PointOfInterest.id (Scoring.poi item)) base →
     Scoring.aggregate_child scores_dict store (Scoring.poi child) = store) ∧
  (∀ ci pi child parent store x y,
     base !! ci = Some child → base !! pi = Some parent →
     PointOfInterest.parent_id (Scoring.poi child)
       = Some (PointOfInterest.id (Scoring.poi parent)) →
     store !! ci = Some x → store !! pi = Some y →
     Scoring.aggregate_child scores_dict store (Scoring.poi child)
     = <[pi := Scoring.mk_item (Scoring.poi y)
                 (Scoring.score y + Scoring.score x)%Q (Scoring.badges y)
                 (Some (default [] (Scoring.aggregated_from y)
                        ++ [PointOfInterest.name (Scoring.poi x)]))]> store) ∧
  (∀ item, item ∈ base → Scoring.entry_after (rev base) item ∈ ranking) ∧
  (Scoring.two_level base →
   ∀ item, item ∈ base →
     Scoring.rolled_up item
       (Scoring.scored_children base (PointOfInterest.id (Scoring.poi item)))
     ∈ ranking).
Proof.
  intros Hnd ranking scores_dict. subst ranking scores_dict.
  rewrite aggregate_parent_ranking by done. cbn [fst].
  split; [apply sorted_desc_sorted|].
  split.
  { rewrite sorted_desc_Permutation. by rewrite foldl_aggregate_pois. }
  split.
  { intros child pid store Hin Hp Hpid.
    by apply (aggregate_child_unscored_parent base child pid). }
  split.
  { intros ci pi child parent store x y Hci Hpi Hp Hx Hy.
    by apply (aggregate_child_scored_parent base ci pi child parent). }
  split.
  { intros item Hin. rewrite sorted_desc_Permutation.
    apply list_elem_of_lookup in Hin as [p Hp].
    apply (list_elem_of_lookup_2 _ p).
    apply (rollup_store base Hnd base []); [by rewrite app_nil_r | done]. }
  intros Hflat item Hin.
  rewrite sorted_desc_Permutation.
  apply list_elem_of_lookup in Hin as [p Hp].
  apply (list_elem_of_lookup_2 _ p).
  apply (two_level_store base Hnd Hflat base []); [by rewrite app_nil_r | done].
Qed.

(** Two scored children of a scored parent and one scored POI whose
    parent was not scored; then a chain of three scored POIs, where the
    grandparent receives what the parent holds once the child has been
    added to it. *)
Lemma parent_rollup_spec_witness :
  let item i n p s := Scoring.mk_item (PointOfInterest.mk i n p None) s [] None in
  let base := [item 2 "Kopa" (Some 1) 50%Q; item 1 "Masyw" None 10%Q;
               item 3 "Turnia" (Some 1) 30%Q; item 4 "Wierch" (Some 9) 5%Q] in
  let ranking := (Scoring._aggregate_parent_scores_from_base base).1 in
  let chain := [item 3 "Turnia" (Some 2) 50%Q; item 2 "Kopa" (Some 1) 10%Q;
                item 1 "Masyw" None 30%Q] in
  let chain_ranking := (Scoring._aggregate_parent_scores_from_base chain).1 in
  (StronglySorted (λ a b, Scoring.score b <= Scoring.score a)%Q ranking ∧
   Scoring.mk_item (PointOfInterest.mk 1 "Masyw" None None) (10 + 50 + 30)%Q []
     (Some ["Kopa"; "Turnia"]) ∈ ranking ∧
   item 4 "Wierch" (Some 9) 5%Q ∈ ranking ∧
   Scoring.poi <$> ranking ≡ₚ Scoring.poi <$> base) ∧
  (Scoring.mk_item (PointOfInterest.mk 2 "Kopa" (Some 1) None) (10 + 50)%Q []
     (Some ["Turnia"]) ∈ chain_ranking ∧
   Scoring.mk_item (PointOfInterest.mk 1 "Masyw" None None) (30 + (10 + 50))%Q []
     (Some ["Kopa"]) ∈ chain_ranking).
Proof.
  intros item base ranking chain chain_ranking.
  assert (NoDup (map (λ it, PointOfInterest.id (Scoring.poi it)) base)) as Hnd.
  { apply (NoDup_ListNoDup [2; 1; 3; 4]).
    repeat (constructor; [simpl; intuition lia|]). constructor. }
  assert (NoDup (map (λ it, PointOfInterest.id (Scoring.poi it)) chain)) as Hndc.
  { apply (NoDup_ListNoDup [3; 2; 1]).
    repeat (constructor; [simpl; intuition lia|]). constructor. }
  assert (Scoring.two_level base) as Hflat.
  { intros it Hin Hp.
    repeat (apply elem_of_cons in Hin as [-> | Hin]);
      try reflexivity; try (by apply elem_of_nil in Hin).
    by destruct Hp. }
  destruct (parent_rollup_spec base Hnd) as (Hsorted & Hperm & _ & _ & _ & Hroll).
  destruct (parent_rollup_spec chain Hndc) as (_ & _ & _ & _ & Hchain & _).
  split.
  - split; [exact Hsorted|]. split; [|split; [|exact Hperm]].
    + apply (Hroll Hflat (item 1 "Masyw" None 10%Q)). right. by left.
    + apply (Hroll Hflat (item 4 "Wierch" (Some 9) 5%Q)). do 3 right. by left.
  - split.
    + apply (Hchain (item 2 "Kopa" (Some 1) 10%Q)). right. by left.
    + apply (Hchain (item 1 "Masyw" None 30%Q)). do 2 right. by left.
Defined.

(** The claim as the specification words it: the score of a scored child
    reaches a ranking entry of its parent also when the parent was not
    scored.  It fails on a single scored child. *)
Lemma parent_rollup_counterexample :
  let child := Scoring.mk_item (PointOfInterest.mk 2 "Kopa" (Some 1) None)
                 50%Q [] None in
  (Scoring._aggregate_parent_scores_from_base [child]).1 = [child] ∧
  ¬ (∃ entry,
       entry ∈ (Scoring._aggregate_parent_scores_from_base [child]).1 ∧
       PointOfInterest.id (Scoring.poi entry) = 1).
Proof.
  intros child.
  assert ((Scoring._aggregate_parent_scores_from_base [child]).1 = [child]) as Heq
    by reflexivity.
  split; [exact Heq|]. rewrite Heq.
  intros (entry & Hin & Hid).
  apply list_elem_of_singleton in Hin as ->. discriminate Hid.
Qed.

(** ** Which POIs are scored *)

Section scored_facts.
Import Scoring.

(** A score that changes in the loop over the badges of a POI comes from
    a badge the POI has not claimed. *)
Lemma score_loop_changed bm rc visits badge_ids s0 s :
  score_loop bm rc visits s0 badge_ids = Some s → s ≠ s0 →
  ∃ bid b, bid ∈ badge_ids ∧ bm !! bid = Some b ∧ is_claimed b visits = false.
Proof.
  revert s0. induction badge_ids as [|bid bids IH]; intros s0; simpl.
  - intros [= ->] Hne. done.
  - unfold score_step.
    destruct (bm !! bid) as [b|] eqn:Hb; [|done].
    destruct (is_claimed b visits) eqn:Hcl.
    + intros Hl Hne. destruct (IH _ Hl Hne) as (bid' & b' & Hin & Hb' & Hcl').
      exists bid', b'. split; [by right | done].
    + intros _ _. exists bid, b. split; [by left | done].
Qed.

Lemma score_loop_total bm rc visits badge_ids s0 :
  (∀ bid, bid ∈ badge_ids → is_Some (bm !! bid)) →
  is_Some (score_loop bm rc visits s0 badge_ids).
Proof.
  revert s0. induction badge_ids as [|bid bids IH]; intros s0 Hbm; simpl.
  - eauto.
  - unfold score_step. destruct (Hbm bid) as [b ->]; [by left|].
    assert (∀ bid', bid' ∈ bids → is_Some (bm !! bid')) as Hbm'
      by (intros; apply Hbm; by right).
    destruct (is_claimed b visits); [by apply IH|].
    destruct (0 <? default 0 (rc !! bid)); by apply IH.
Qed.

Lemma poi_scores_loop_spec bm rc visits_by_poi items acc :
  (∀ p bids bid, (p, bids) ∈ items → bid ∈ bids → is_Some (bm !! bid)) →
  ∃ ps, poi_scores_loop bm rc visits_by_poi items acc = Some ps ∧
    ∀ k, k ∈ Dict.keys ps →
      k ∈ Dict.keys acc ∨
      ∃ bids s, (k, bids) ∈ items ∧
        score_loop bm rc (visits_of visits_by_poi k) 0%Q bids = Some s ∧
        Qle_bool s 0 = false.
Proof.
  revert acc. induction items as [|[p bids] items IH]; intros acc Hbm.
  - exists acc. split; [done|]. intros k Hk. by left.
  - simpl.
    destruct (score_loop_total bm rc (visits_of visits_by_poi p) bids 0%Q)
      as [s Hs].
    { intros bid Hbid. apply (Hbm p bids); [by left | done]. }
    rewrite Hs.
    destruct (IH (if negb (Qle_bool s 0) then Dict.set p s acc else acc))
      as (ps & Hps & Hkeys).
    { intros p' bids' bid Hin. apply (Hbm p' bids'). by right. }
    exists ps. split; [done|]. intros k Hk.
    destruct (Hkeys k Hk) as [Hacc | (bids' & s' & Hin & Hs' & Hpos)].
    + destruct (Qle_bool s 0) eqn:Hle; simpl in Hacc; [by left|].
      rewrite dict_keys_set in Hacc. case_decide as Hp; [by left|].
      apply elem_of_app in Hacc as [Hacc|Hacc]; [by left|].
      apply list_elem_of_singleton in Hacc as ->. right.
      exists bids, s. split; [by left | done].
    + right. exists bids', s'. split; [by right | done].
Qed.

Lemma badges_by_poi_elem reqs p bids bid :
  (p, bids) ∈ badges_by_poi reqs → bid ∈ bids → (bid, p) ∈ reqs.
Proof.
  unfold badges_by_poi. intros Hin Hbid.
  apply (elem_foldl_append snd fst) in Hin as [-> _].
  apply elem_of_grouped in Hbid as ([bid' p'] & Hr & Hp & Hb).
  simpl in *. by subst.
Qed.

Lemma scored_pois_map_id db ids k p :
  scored_pois_map db ids !! k = Some p → PointOfInterest.id p = k.
Proof.
  unfold scored_pois_map.
  generalize (List.filter (λ p, bool_decide (PointOfInterest.id p ∈ ids))
                (PointOfInterest_objects db)).
  assert (∀ k p, (∅ : gmap Z PointOfInterest.t) !! k = Some p →
                 PointOfInterest.id p = k) as Hempty by done.
  revert Hempty. generalize (∅ : gmap Z PointOfInterest.t).
  intros m Hm l. revert m Hm.
  induction l as [|x l IH]; intros m Hm; simpl; [by apply Hm|].
  apply IH. intros k' p'. destruct (decide (PointOfInterest.id x = k')) as [<-|Hne].
  - rewrite lookup_insert_eq. by intros [= <-].
  - rewrite lookup_insert_ne by done. apply Hm.
Qed.

Lemma results_list_ids pm ps item :
  (∀ k p, pm !! k = Some p → PointOfInterest.id p = k) →
  item ∈ results_list pm ps →
  PointOfInterest.id (poi item) ∈ Dict.keys ps.
Proof.
  intros Hpm. unfold Dict.keys.
  induction ps as [|[k s] ps IH]; simpl.
  - intros Hin. by apply elem_of_nil in Hin.
  - destruct (pm !! k) as [o|] eqn:Ho.
    + intros Hin. apply elem_of_cons. apply elem_of_cons in Hin as [Heq|Hin].
      * left. rewrite Heq. simpl. by apply Hpm.
      * right. by apply IH.
    + intros Hin. right. by apply IH.
Qed.

(** [calculate_poi_scores] never raises, and every POI it scores has a
    requirement of an active badge that no visit claims. *)
Lemma calculate_poi_scores_spec db active_badges visits_by_poi :
  ∃ base,
    calculate_poi_scores db active_badges visits_by_poi = Some base ∧
    ∀ item, item ∈ base →
      ∃ b, b ∈ active_badges ∧
        (Badge.id b, PointOfInterest.id (poi item)) ∈ BadgeRequirement_objects db ∧
        is_claimed b (visits_of visits_by_poi (PointOfInterest.id (poi item)))
          = false.
Proof.
  unfold calculate_poi_scores.
  destruct (remaining_counts_total db active_badges visits_by_poi)
    as (rc & -> & _).
  set (reqs := requirements_of db (map Badge.id active_badges)).
  destruct (poi_scores_loop_spec (active_badges_map active_badges) rc
              visits_by_poi (badges_by_poi reqs) [])
    as (ps & -> & Hkeys).
  { intros p bids bid Hin Hbid. apply active_badges_map_is_Some.
    pose proof (badges_by_poi_elem reqs p bids bid Hin Hbid) as Hreq.
    by apply requirements_of_elem in Hreq as [_ ?]. }
  assert (∀ item,
            item ∈ results_list (scored_pois_map db (Dict.keys ps)) ps →
            ∃ b, b ∈ active_badges ∧
              (Badge.id b, PointOfInterest.id (poi item))
                ∈ BadgeRequirement_objects db ∧
              is_claimed b (visits_of visits_by_poi (PointOfInterest.id (poi item)))
                = false) as Hitems.
  { intros item Hin.
    apply results_list_ids in Hin; [|apply scored_pois_map_id].
    destruct (Hkeys _ Hin) as [Hnil | (bids & s & Hbids & Hs & Hpos)].
    { by apply elem_of_nil in Hnil. }
    destruct (score_loop_changed _ _ _ _ _ _ Hs) as (bid & b & Hbid & Hb & Hcl).
    { intros ->. done. }
    apply badges_map_foldl_Some in Hb as [[Hb Hid]|Hb]; [|done].
    exists b. split; [done|]. split; [|done].
    pose proof (badges_by_poi_elem reqs _ bids bid Hbids Hbid) as Hreq.
    apply requirements_of_elem in Hreq as [Hreq _]. by rewrite Hid. }
  destruct ps as [|kv ps'] eqn:Hps.
  - exists []. split; [done|]. intros item Hin. by apply elem_of_nil in Hin.
  - eexists. split; [done|]. intros item Hin.
    rewrite sorted_desc_Permutation in Hin. by apply Hitems.
Qed.

(** The parent rollup makes no entry for a POI outside the base list. *)
Lemma aggregate_parent_ids base entry :
  entry ∈ (_aggregate_parent_scores_from_base base).1 →
  poi entry ∈ poi <$> base.
Proof.
  unfold _aggregate_parent_scores_from_base.
  destruct base as [|b0 base0] eqn:Hb.
  { intros Hin. by apply elem_of_nil in Hin. }
  rewrite <- Hb. clear Hb b0 base0. cbn [fst].
  rewrite sorted_desc_Permutation. unfold final_results_list.
  intros Hin. apply list_elem_of_omap in Hin as (r & _ & Hr).
  apply list_elem_of_lookup_2 in Hr.
  rewrite <- (foldl_aggregate_pois (scores_dict_of base) (children_of base) base).
  apply list_elem_of_fmap. by exists entry.
Qed.
End scored_facts.

(** ** The shape of the cache entries is an invariant of the services *)

Section cache_shape_facts.
Import Scoring ScoringCache Signals.
Implicit Types c : gmap string value.

Lemma well_shaped_empty : well_shaped ∅.
Proof. repeat split; intros v Hv; by rewrite lookup_empty in Hv. Qed.

Lemma well_shaped_delete k c : well_shaped c → well_shaped (delete k c).
Proof.
  intros (H1 & H2 & H3 & H4).
  repeat split; intros v Hv; apply lookup_delete_Some in Hv as [_ Hv]; eauto.
Qed.

Lemma well_shaped_insert_data vs bs c :
  well_shaped c → well_shaped (<["scoring_data_v1" := ScoringData vs bs]> c).
Proof.
  intros (H1 & H2 & H3 & H4).
  repeat split; intros v Hv; rewrite lookup_insert in Hv;
    case_decide; simplify_eq; eauto.
Qed.

Lemma well_shaped_insert_full r c :
  well_shaped c →
  well_shaped (<["dashboard_scores_full_v1" := DashboardScores r]> c).
Proof.
  intros (H1 & H2 & H3 & H4).
  repeat split; intros v Hv; rewrite lookup_insert in Hv;
    case_decide; simplify_eq; eauto.
Qed.

Lemma well_shaped_insert_top r c :
  well_shaped c →
  well_shaped (<["dashboard_scores_top_v1" := DashboardScores r]> c).
Proof.
  intros (H1 & H2 & H3 & H4).
  repeat split; intros v Hv; rewrite lookup_insert in Hv;
    case_decide; simplify_eq; eauto.
Qed.

Lemma well_shaped_insert_ranking l c :
  well_shaped c →
  well_shaped (<["full_poi_ranking_for_details" := Ranking l]> c).
Proof.
  intros (H1 & H2 & H3 & H4).
  repeat split; intros v Hv; rewrite lookup_insert in Hv;
    case_decide; simplify_eq; eauto.
Qed.

Lemma invalidation_well_shaped c :
  well_shaped c →
  well_shaped (invalidate_scoring_cache c) ∧
  well_shaped (invalidate_scoring_cache_on_visit_change c) ∧
  well_shaped (invalidate_scoring_cache_on_badge_change c) ∧
  well_shaped (invalidate_scoring_cache_on_requirement_change c).
Proof.
  intros Hc. repeat split; repeat apply well_shaped_delete; exact Hc.
Qed.

Lemma get_scoring_data_cached_well_shaped db today c v c' :
  well_shaped c → get_scoring_data_cached db today c = Some (v, c') →
  well_shaped c'.
Proof.
  unfold get_scoring_data_cached. intros Hc.
  destruct (c !! "scoring_data_v1"); intros [= <- <-]; [done|].
  by apply well_shaped_insert_data.
Qed.

Lemma calculate_all_dashboard_scores_well_shaped db today full c v c' :
  well_shaped c →
  calculate_all_dashboard_scores db today full c = Some (v, c') →
  well_shaped c'.
Proof.
  unfold calculate_all_dashboard_scores. intros Hc.
  destruct (c !! (if full then _ else _)); [by intros [= <- <-]|].
  destruct (get_scoring_data_cached db today c) as [[d c1]|] eqn:Hd; [|done].
  apply (get_scoring_data_cached_well_shaped _ _ _ _ _ Hc) in Hd.
  destruct d as [vs bs| |]; [|done..].
  destruct (calculate_poi_scores db bs vs) as [base|]; [|done].
  destruct (_aggregate_parent_scores_from_base base) as [ranking base'].
  intros [= <- <-].
  destruct full; [by apply well_shaped_insert_full | by apply well_shaped_insert_top].
Qed.

Lemma get_score_for_single_poi_well_shaped db today p c s c' :
  well_shaped c → get_score_for_single_poi db today p c = Some (s, c') →
  well_shaped c'.
Proof.
  unfold get_score_for_single_poi. intros Hc.
  destruct (c !! "full_poi_ranking_for_details") as [[| |l]|];
    [done | done | by intros [= <- <-] |].
  destruct (calculate_all_dashboard_scores db today true c) as [[v c1]|] eqn:Hv;
    [|done].
  apply (calculate_all_dashboard_scores_well_shaped _ _ _ _ _ _ Hc) in Hv.
  destruct v as [| r |]; [done| |done].
  intros [= <- <-]. by apply well_shaped_insert_ranking.
Qed.
End cache_shape_facts.

(** ** The score of a single POI *)

Section single_poi_facts.
Import Scoring ScoringCache.

Lemma find_score_absent full_ranking poi_id :
  poi_id ∉ map (λ item, PointOfInterest.id (poi item)) full_ranking →
  find_score full_ranking poi_id = 0%Q.
Proof.
  induction full_ranking as [|item l IH]; simpl; [done|].
  intros Hnin. apply not_elem_of_cons in Hnin as [Hne Hnin].
  rewrite decide_False by done. by apply IH.
Qed.

(** A computation of the full lists on a cache that holds no full
    ranking: it never raises, and ranks only POIs with an unclaimed
    requirement of a badge of the scoring data it read. *)
Lemma calculate_all_full_miss db today c :
  well_shaped c → c !! "dashboard_scores_full_v1" = None →
  ∃ full_poi_ranking regions c1 visits_by_poi active_badges,
    calculate_all_dashboard_scores db today true c
    = Some (DashboardScores
              (mk_results (Some full_poi_ranking) (Some regions) None None), c1) ∧
    c1 !! "full_poi_ranking_for_details" = c !! "full_poi_ranking_for_details" ∧
    (c !! "scoring_data_v1" = None →
     visits_by_poi = visits_by_poi_of db ∧
     active_badges = List.filter (badge_is_active today) (Badge_objects db)) ∧
    ∀ entry, entry ∈ full_poi_ranking →
      ∃ b, b ∈ active_badges ∧
        (Badge.id b, PointOfInterest.id (poi entry)) ∈ BadgeRequirement_objects db ∧
        is_claimed b (visits_of visits_by_poi (PointOfInterest.id (poi entry)))
          = false.
Proof.
  intros (Hdata & _ & _ & _) Hfull.
  unfold calculate_all_dashboard_scores. rewrite Hfull.
  assert (∃ vs bs c0,
            get_scoring_data_cached db today c = Some (ScoringData vs bs, c0) ∧
            c0 !! "full_poi_ranking_for_details"
              = c !! "full_poi_ranking_for_details" ∧
            (c !! "scoring_data_v1" = None →
             vs = visits_by_poi_of db ∧
             bs = List.filter (badge_is_active today) (Badge_objects db)))
    as (vs & bs & c0 & -> & Hc0 & Hcold).
  { unfold get_scoring_data_cached.
    destruct (c !! "scoring_data_v1") as [v|] eqn:Hv.
    - destruct (Hdata v eq_refl) as (vs & bs & ->).
      exists vs, bs, c. done.
    - eexists _, _, _. split; [done|]. split; [|done].
      by rewrite lookup_insert_ne. }
  destruct (calculate_poi_scores_spec db bs vs) as (base & -> & Hbase).
  destruct (_aggregate_parent_scores_from_base base) as [ranking base'] eqn:Hagg.
  eexists ranking, _, _, vs, bs. split; [done|].
  split; [by rewrite lookup_insert_ne|]. split; [done|].
  intros entry Hin.
  assert (poi entry ∈ poi <$> base) as Hpoi.
  { apply aggregate_parent_ids. by rewrite Hagg. }
  apply list_elem_of_fmap in Hpoi as (item & -> & Hitem).
  by apply Hbase.
Qed.
End single_poi_facts.

(** C10: for a POI whose id does not occur in the full aggregated ranking
    the single-POI lookup returns exactly 0 and does not fail; the ranking
    read is the one left under the lookup's cache key.  In particular, on
    a cache without scoring entries, a POI none of whose requirements of
    an active badge is unclaimed is absent from the ranking and gets 0. *)
Theorem single_poi_score_absent (db : Database) (today : date)
    (p : PointOfInterest.t) (c : gmap string ScoringCache.value) :
  ScoringCache.well_shaped c →
  ∃ full_ranking c',
    ScoringCache.get_score_for_single_poi db today p c
    = Some (ScoringCache.find_score full_ranking (PointOfInterest.id p), c') ∧
    c' !! "full_poi_ranking_for_details" = Some (ScoringCache.Ranking full_ranking) ∧
    (PointOfInterest.id p
       ∉ map (λ item, PointOfInterest.id (Scoring.poi item)) full_ranking →
     ScoringCache.get_score_for_single_poi db today p c = Some (0%Q, c')) ∧
    (c !! "full_poi_ranking_for_details" = None →
     c !! "dashboard_scores_full_v1" = None →
     c !! "scoring_data_v1" = None →
     (∀ b, b ∈ Badge_objects db →
           ScoringCache.badge_is_active today b = true →
           (Badge.id b, PointOfInterest.id p) ∈ BadgeRequirement_objects db →
           Scoring.is_claimed b
             (Scoring.visits_of (ScoringCache.visits_by_poi_of db)
                (PointOfInterest.id p)) = true) →
     ScoringCache.get_score_for_single_poi db today p c = Some (0%Q, c')).
Proof.
  intros Hc. pose proof Hc as (_ & Hfullshape & _ & Hkeyshape).
  unfold ScoringCache.get_score_for_single_poi.
  destruct (c !! "full_poi_ranking_for_details") as [v|] eqn:Hkey.
  { destruct (Hkeyshape v eq_refl) as (r & ->).
    exists r, c. split; [done|]. split; [done|]. split; [|done].
    intros Hnin. by rewrite find_score_absent. }
  destruct (c !! "dashboard_scores_full_v1") as [v|] eqn:Hfull.
  { destruct (Hfullshape v eq_refl) as (r & ->).
    unfold ScoringCache.calculate_all_dashboard_scores. rewrite Hfull.
    eexists _, _. split; [done|]. split; [by rewrite lookup_insert_eq|].
    split; [|done]. intros Hnin. by rewrite find_score_absent. }
  destruct (calculate_all_full_miss db today c Hc Hfull)
    as (ranking & regions & c1 & vs & bs & -> & Hc1 & Hcold & Hranked).
  cbn [ScoringCache.poi_ranking default from_option id].
  exists ranking, (<["full_poi_ranking_for_details" := ScoringCache.Ranking ranking]> c1).
  split; [done|]. split; [by rewrite lookup_insert_eq|].
  split.
  { intros Hnin. by rewrite find_score_absent. }
  intros _ _ Hdata Hclaimed. rewrite find_score_absent; [done|].
  intros Hin. apply list_elem_of_fmap in Hin as (entry & Hid & Hin).
  destruct (Hranked entry Hin) as (b & Hb & Hreq & Hcl).
  destruct (Hcold Hdata) as [-> ->].
  apply list_elem_of_In, filter_In in Hb as [Hb Hact].
  apply list_elem_of_In in Hb.
  rewrite <- Hid in Hcl, Hreq. rewrite Hclaimed in Hcl; done.
Qed.

(** One badge with the window [2023-01-01, 2023-12-31] requiring two
    POIs, the first visited on 2023-06-01: on an empty cache the visited
    POI gets 0. *)
Lemma single_poi_score_absent_witness :
  let b := Badge.mk 7 (Some (mk_date 2023 1 1)) (Some (mk_date 2023 12 31)) false in
  let p1 := PointOfInterest.mk 1 "Kopa" None None in
  let p2 := PointOfInterest.mk 2 "Turnia" None None in
  let db := mk_db [(1, mk_date 2023 6 1)] [b] [(7, 1); (7, 2)] [p1; p2] in
  ∃ c', ScoringCache.get_score_for_single_poi db (mk_date 2023 7 1) p1 ∅
        = Some (0%Q, c').
Proof.
  intros b p1 p2 db.
  destruct (single_poi_score_absent db (mk_date 2023 7 1) p1 ∅ well_shaped_empty)
    as (r & c' & _ & _ & _ & Hcold).
  exists c'. apply Hcold; try apply lookup_empty.
  intros b' Hb' _ _. apply list_elem_of_singleton in Hb' as ->. reflexivity.
Defined.

(** ** Cache invalidation *)

Section invalidation_facts.
Import ScoringCache Signals.

(** The keys of the scoring cache. *)
Lemma handlers_delete_every_entry (c : gmap string value) (k : string) :
  k ∈ ["scoring_data_v1"; "dashboard_scores_full_v1";
       "dashboard_scores_top_v1"; "full_poi_ranking_for_details"] →
  invalidate_scoring_cache_on_visit_change c !! k = None ∧
  invalidate_scoring_cache_on_badge_change c !! k = None ∧
  invalidate_scoring_cache_on_requirement_change c !! k = None.
Proof.
  intros Hk.
  unfold invalidate_scoring_cache_on_visit_change,
    invalidate_scoring_cache_on_badge_change,
    invalidate_scoring_cache_on_requirement_change.
  repeat (apply elem_of_cons in Hk as [-> | Hk]);
    [| | | | by apply elem_of_nil in Hk];
    repeat split; by simplify_map_eq.
Qed.

(** The manual operation deletes three of the four entries and leaves the
    ranking of the single-POI lookup where it is. *)
Lemma manual_invalidation_entries (c : gmap string value) :
  invalidate_scoring_cache c !! "scoring_data_v1" = None ∧
  invalidate_scoring_cache c !! "dashboard_scores_full_v1" = None ∧
  invalidate_scoring_cache c !! "dashboard_scores_top_v1" = None ∧
  invalidate_scoring_cache c !! "full_poi_ranking_for_details"
    = c !! "full_poi_ranking_for_details".
Proof.
  unfold invalidate_scoring_cache. repeat split; by simplify_map_eq.
Qed.
End invalidation_facts.

(** C6 at a failing input.  One active badge requires two unvisited POIs,
    and the score of the first is read, which fills the cache.  Then the
    first POI is visited.  After the handler of a [Visit] change the score
    read is the new one, 0; after the manual invalidation the score read
    is still the one cached before the visit, 50. *)
Theorem manual_invalidation_keeps_stale_score :
  let today := mk_date 2023 7 1 in
  let b := Badge.mk 7 (Some (mk_date 2023 1 1)) (Some (mk_date 2023 12 31)) false in
  let p1 := PointOfInterest.mk 1 "Kopa" None None in
  let p2 := PointOfInterest.mk 2 "Turnia" None None in
  let before := mk_db [] [b] [(7, 1); (7, 2)] [p1; p2] in
  let after := mk_db [(1, mk_date 2023 6 1)] [b] [(7, 1); (7, 2)] [p1; p2] in
  let first_read := ScoringCache.get_score_for_single_poi before today p1 ∅ in
  let c := default ∅ (snd <$> first_read) in
  (Qeq_bool 50 ∘ fst <$> first_read) = Some true ∧
  (Qeq_bool 0 ∘ fst <$>
     ScoringCache.get_score_for_single_poi after today p1
       (Signals.invalidate_scoring_cache_on_visit_change c)) = Some true ∧
  (Qeq_bool 50 ∘ fst <$>
     ScoringCache.get_score_for_single_poi after today p1
       (ScoringCache.invalidate_scoring_cache c)) = Some true.
Proof.
  intros today b p1 p2 before after first_read c.
  split; [|split]; vm_compute; reflexivity.
Qed.

(** ** The GPX parser *)

Section parser_facts.
Import Trip.

Lemma elevation_or_0_default e : (elevation_or_0 e == default 0 e)%Q.
Proof.
  destruct e as [x|]; simpl; [|reflexivity].
  destruct (Qeq_bool x 0) eqn:Hx; [|reflexivity].
  apply Qeq_bool_iff in Hx. by symmetry.
Qed.

Lemma collect_points_points gpx :
  collect_points gpx
  = map (λ point, (longitude point, latitude point,
                   elevation_or_0 (elevation point)))
      (concat (concat (tracks gpx))).
Proof.
  unfold collect_points. induction (tracks gpx) as [|track ts IH]; simpl; [done|].
  rewrite IH, concat_app, map_app. f_equal.
  induction track as [|segment track IHt]; simpl; [done|].
  by rewrite IHt, map_app.
Qed.

Lemma collect_points_renders gpx :
  Forall2 renders (concat (concat (tracks gpx))) (collect_points gpx).
Proof.
  rewrite collect_points_points.
  induction (concat (concat (tracks gpx))) as [|point l IH]; simpl;
    constructor; [|done].
  repeat split. apply elevation_or_0_default.
Qed.
End parser_facts.

(** C7: the GPX parser fails exactly when the input is not well-formed
    track data or yields fewer than 2 track points; otherwise it returns
    the points in order as (longitude, latitude, elevation), an absent
    elevation being 0.  A syntax error of the document and a track that is
    too short are reported as [ValueError]. *)
Theorem parse_gpx_spec (f : Trip.upload) :
  ((∃ e, Trip.parse_gpx_to_linestring_and_stats f = inl e) ↔
     Trip.well_formed f = false ∨ (length (Trip.points_of f) < 2)%nat) ∧
  (Trip.well_formed f = true → (2 ≤ length (Trip.points_of f))%nat →
     ∃ points stats,
       Trip.parse_gpx_to_linestring_and_stats f = inr (points, stats) ∧
       Forall2 Trip.renders (Trip.points_of f) points) ∧
  (Trip.well_formed f = true → (length (Trip.points_of f) < 2)%nat →
     ∃ msg, Trip.parse_gpx_to_linestring_and_stats f = inl (Trip.ValueError msg)) ∧
  (∀ m, f = Trip.BadXml m →
     ∃ msg, Trip.parse_gpx_to_linestring_and_stats f = inl (Trip.ValueError msg)).
Proof.
  assert (∀ gpx, length (Trip.collect_points gpx)
                 = length (concat (concat (Trip.tracks gpx)))) as Hlen.
  { intros gpx. symmetry. eapply Forall2_length, collect_points_renders. }
  destruct f as [|msg|msg|gpx]; simpl.
  - split; [split; [by left | eauto]|]. split; [done|]. split; [done|]. done.
  - split; [split; [by left | eauto]|]. split; [done|]. split; [done|]. eauto.
  - split; [split; [by left | eauto]|]. split; [done|]. split; [done|]. done.
  - rewrite Hlen.
    destruct (Nat.ltb_spec (length (concat (concat (Trip.tracks gpx)))) 2)
      as [Hlt|Hge].
    + split; [split; [by right | eauto]|]. split; [lia|]. split; [eauto|done].
    + split.
      { split; [by intros [e ?] | intros [?|?]; [done|lia]]. }
      split; [|split; [lia|done]].
      intros _ _. eexists _, _. split; [done|]. apply collect_points_renders.
Qed.

(** A track of two points, the second without an elevation. *)
Lemma parse_gpx_spec_witness :
  let f := Trip.Parsed
             (Trip.mk_gpx [[[Trip.mk_point 20 49 (Some 1000%Q);
                             Trip.mk_point 21 50 None]]] 1500 (0, 0)%Q) in
  ∃ stats,
    Trip.parse_gpx_to_linestring_and_stats f
    = inr ([(20, 49, 1000)%Q; (21, 50, 0)%Q], stats).
Proof.
  intros f.
  destruct (parse_gpx_spec f) as (_ & Hok & _).
  destruct Hok as (points & stats & Heq & _); [reflexivity | simpl; lia |].
  exists stats. pose proof Heq as Hpoints. vm_compute in Hpoints.
  injection Hpoints as Hpoints _. rewrite Heq. by rewrite <- Hpoints.
Defined.

(** ** Python numbers *)

Section number_facts.

Lemma py_max_Qmax a b : (Py.max a b == Qmax a b)%Q.
Proof.
  unfold Py.max. destruct (Qle_bool b a) eqn:Hle.
  - apply Qle_bool_iff in Hle. symmetry. by apply Q.max_l.
  - symmetry. apply Q.max_r. apply Qlt_le_weak, Qnot_le_lt.
    intros H. apply Qle_bool_iff in H. congruence.
Qed.

Lemma py_min_Qmin a b : (Py.min a b == Qmin a b)%Q.
Proof.
  unfold Py.min. destruct (Qle_bool a b) eqn:Hle.
  - apply Qle_bool_iff in Hle. symmetry. by apply Q.min_l.
  - symmetry. apply Q.min_r. apply Qlt_le_weak, Qnot_le_lt.
    intros H. apply Qle_bool_iff in H. congruence.
Qed.

Lemma round_comp x y : (x == y)%Q → Py.round x = Py.round y.
Proof.
  intros Hxy. unfold Py.round. rewrite (Qfloor_comp x y Hxy).
  assert (x - inject_Z (Qfloor y) == y - inject_Z (Qfloor y))%Q as Hd
    by (by rewrite Hxy).
  by rewrite (Qcompare_comp _ _ Hd (1 # 2)%Q (1 # 2)%Q (Qeq_refl _)).
Qed.

Lemma round_ge_floor x : Qfloor x ≤ Py.round x.
Proof.
  unfold Py.round. destruct (Qcompare _ _); [|lia..].
  destruct (Z.even _); lia.
Qed.

Lemma round_nonneg x : (0 <= x)%Q → 0 ≤ Py.round x.
Proof.
  intros Hx. pose proof (round_ge_floor x).
  pose proof (Qfloor_resp_le 0 x Hx) as Hf.
  change (Qfloor 0) with 0 in Hf. lia.
Qed.
End number_facts.

(** ** The "Everest" loop *)

Section everest_facts.
Import Trip.

Lemma minimum_snoc pre x : pre ≠ [] → minimum (pre ++ [x]) = Qmin (minimum pre) x.
Proof.
  destruct pre as [|y pre]; [done|]. intros _. simpl. by rewrite foldl_app.
Qed.

Lemma maximum_snoc l x : l ≠ [] → maximum (l ++ [x]) = Qmax (maximum l) x.
Proof.
  destruct l as [|y l]; [done|]. intros _. simpl. by rewrite foldl_app.
Qed.

Lemma climb_prefix pre rest i :
  (i < length pre)%nat → climb (pre ++ rest) i = climb pre i.
Proof.
  intros Hi. unfold climb.
  rewrite app_nth1 by done.
  rewrite take_app_le by lia. done.
Qed.

Lemma climb_last pre x :
  climb (pre ++ [x]) (length pre) = (x - minimum pre)%Q.
Proof.
  unfold climb. rewrite app_nth2 by lia. rewrite Nat.sub_diag. simpl.
  by rewrite take_app_length.
Qed.

Lemma climbs_snoc pre x :
  pre ≠ [] → climbs (pre ++ [x]) = climbs pre ++ [(x - minimum pre)%Q].
Proof.
  intros Hpre. unfold climbs. rewrite length_app. simpl.
  assert (length pre ≠ 0)%nat as Hlen by (by destruct pre).
  replace (length pre + 1 - 1)%nat with (S (length pre - 1)) by lia.
  rewrite seq_S, map_app. simpl.
  replace (S (length pre - 1)) with (length pre) by lia.
  rewrite climb_last. f_equal.
  apply map_ext_in. intros i Hi. apply in_seq in Hi.
  apply climb_prefix. lia.
Qed.

(** The running maximum is 0 or the largest climb so far. *)
Lemma Qmax_0_maximum_snoc l x :
  (Qmax 0 (maximum (l ++ [x])) == Qmax (Qmax 0 (maximum l)) x)%Q.
Proof.
  destruct l as [|y l].
  - simpl. rewrite (Q.max_l 0 0) by apply Qle_refl. reflexivity.
  - rewrite maximum_snoc by done. by rewrite Q.max_assoc.
Qed.

Lemma everest_loop rest : ∀ pre mx mn,
  pre ≠ [] →
  (mx == Qmax 0 (maximum (climbs pre)))%Q →
  (mn == minimum pre)%Q →
  ((foldl everest_step (mx, mn) rest).1
   == Qmax 0 (maximum (climbs (pre ++ rest))))%Q.
Proof.
  induction rest as [|x rest IH]; intros pre mx mn Hpre Hmx Hmn.
  - simpl. by rewrite app_nil_r.
  - cbn [foldl]. unfold everest_step at 2. cbn [fst snd].
    replace (pre ++ x :: rest) with ((pre ++ [x]) ++ rest)
      by (by rewrite <- app_assoc).
    apply IH.
    + by destruct pre.
    + rewrite climbs_snoc by done. rewrite Qmax_0_maximum_snoc.
      rewrite py_max_Qmax. by rewrite Hmx, Hmn.
    + rewrite minimum_snoc by done. rewrite py_min_Qmin. by rewrite Hmn.
Qed.

(** The value the block leaves in [everest_diff]. *)
Lemma everest_diff_spec points :
  (2 ≤ length points)%nat →
  (everest_diff points
   == Qmax 0 (maximum (climbs (map elevation_of points))))%Q.
Proof.
  intros Hlen. unfold everest_diff.
  destruct (Nat.ltb_spec 1 (length points)) as [_|?]; [|lia].
  destruct points as [|p points]; [simpl in Hlen; lia|].
  cbn [map].
  apply (everest_loop (map elevation_of points) [elevation_of p]);
    [done| |reflexivity].
  simpl. rewrite (Q.max_l 0 0) by apply Qle_refl. reflexivity.
Qed.

Lemma everest_diff_short points :
  (length points < 2)%nat → everest_diff points = 0%Q.
Proof.
  intros Hlen. unfold everest_diff.
  by destruct (Nat.ltb_spec 1 (length points)) as [?|_]; [lia|].
Qed.

Lemma everest_diff_nonneg points : (0 <= everest_diff points)%Q.
Proof.
  destruct (le_lt_dec 2 (length points)) as [Hlen|Hlen].
  - rewrite everest_diff_spec by done. apply Q.le_max_l.
  - rewrite everest_diff_short by done. apply Qle_refl.
Qed.
End everest_facts.

(** ** A profile that never rises *)

Section never_rises_facts.
Import Trip.

Lemma maximum_nonpos l :
  Forall (λ c, c <= 0)%Q l → (maximum l <= 0)%Q.
Proof.
  destruct l as [|x l]; [intros _; apply Qle_refl|].
  intros Hl. apply Forall_cons in Hl as [Hx Hl]. simpl.
  revert x Hx. induction Hl as [|y l Hy Hl IH]; intros x Hx; simpl; [done|].
  apply IH. by apply Q.max_lub.
Qed.

Lemma never_rises_climbs e :
  never_rises e = true → Forall (λ c, c <= 0)%Q (climbs e).
Proof.
  unfold never_rises, climbs. intros Hnr.
  apply Forall_forall. intros c Hc.
  apply list_elem_of_In, in_map_iff in Hc as (i & <- & Hi).
  pose proof (proj1 (forallb_forall _ _) Hnr i Hi) as Hle.
  apply Qle_bool_iff in Hle. unfold climb.
  apply Qle_minus_iff in Hle. apply Qle_minus_iff.
  eapply Qle_trans; [exact Hle|]. apply Qle_lteq. right. ring.
Qed.
End never_rises_facts.

(** C9: the [everest_diff_m] written by [recalculate_trip_stats] is never
    negative; it is 0 for a profile that never rises above its running
    minimum, and 0 for a trip whose concatenated point list has fewer
    than 2 points. *)
Theorem everest_diff_m_nonneg (trip : Trip.t) :
  0 ≤ Trip.everest_diff_m (Trip.recalculate_trip_stats trip) ∧
  (Trip.never_rises (Trip.elevation_profile trip) = true →
   Trip.everest_diff_m (Trip.recalculate_trip_stats trip) = 0) ∧
  ((length (Trip.all_points_in_order
              (Trip.order_by_sequence (Trip.gpx_paths trip))) < 2)%nat →
   Trip.everest_diff_m (Trip.recalculate_trip_stats trip) = 0).
Proof.
  unfold Trip.recalculate_trip_stats. cbn [Trip.everest_diff_m].
  set (points := Trip.all_points_in_order
                   (Trip.order_by_sequence (Trip.gpx_paths trip))).
  assert ((length points < 2)%nat → Py.round (Trip.everest_diff points) = 0)
    as Hshort.
  { intros Hlen. by rewrite everest_diff_short. }
  split; [apply round_nonneg, everest_diff_nonneg|].
  split; [|exact Hshort].
  intros Hnr. destruct (le_lt_dec 2 (length points)) as [Hlen|Hlen];
    [|by apply Hshort].
  change 0 with (Py.round 0). apply round_comp.
  rewrite everest_diff_spec by done.
  apply Q.max_l, maximum_nonpos, never_rises_climbs. exact Hnr.
Qed.

(** A descending trip, and a trip of a single point. *)
Lemma everest_diff_m_nonneg_witness :
  let path l := Some (map (λ e : Q, (20%Q, 49%Q, e)) l) in
  let descending :=
    Trip.mk [Trip.mk_segment 1 None (path [300; 200; 100]%Q) None] 0 0 0 0 in
  let single :=
    Trip.mk [Trip.mk_segment 1 None (path [300]%Q) None] 0 0 0 0 in
  Trip.everest_diff_m (Trip.recalculate_trip_stats descending) = 0 ∧
  Trip.everest_diff_m (Trip.recalculate_trip_stats single) = 0.
Proof.
  intros path descending single. split.
  - apply (proj1 (proj2 (everest_diff_m_nonneg descending))). reflexivity.
  - apply (proj2 (proj2 (everest_diff_m_nonneg single))). simpl. lia.
Defined.

(** ** The totals of a trip *)

Section totals_facts.
Import Trip.

Lemma insert_by_sequence_Permutation s l : insert_by_sequence s l ≡ₚ s :: l.
Proof.
  induction l as [|s' l IH]; simpl; [done|].
  destruct (sequence s <=? sequence s'); [done|].
  rewrite IH. apply Permutation_swap.
Qed.

Lemma order_by_sequence_Permutation l : order_by_sequence l ≡ₚ l.
Proof.
  induction l as [|s l IH]; simpl; [done|].
  by rewrite insert_by_sequence_Permutation, IH.
Qed.



End totals_facts.

(** * Further properties of the services *)

(** ** Grouping rows in a dictionary of lists *)

Section gmap_grouping.
Context {R X : Type} (f : R → Z) (g : R → X).

Lemma gmap_grouped_foldl rows (m0 : gmap Z (list X)) k :
  default [] (foldl (λ data r, <[f r := default [] (data !! f r) ++ [g r]]> data)
                m0 rows !! k)
  = default [] (m0 !! k) ++ Dict.grouped f g k rows.
Proof.
  unfold Dict.grouped. revert m0.
  induction rows as [|r rows IH]; intros m0; simpl; [by rewrite app_nil_r|].
  rewrite IH. destruct (bool_decide (f r = k)) eqn:Hk.
  - apply bool_decide_eq_true in Hk as <-.
    rewrite lookup_insert_eq. simpl. by rewrite <- app_assoc.
  - apply bool_decide_eq_false in Hk. by rewrite lookup_insert_ne.
Qed.

Lemma grouped_filter (h : R → bool) k rows :
  (∀ r, f r = k → h r = true) →
  Dict.grouped f g k (List.filter h rows) = Dict.grouped f g k rows.
Proof.
  intros Hh. unfold Dict.grouped. f_equal.
  induction rows as [|r rows IH]; simpl; [done|].
  destruct (bool_decide (f r = k)) eqn:Hk.
  - rewrite Hh by (by apply bool_decide_eq_true in Hk). simpl.
    by rewrite Hk, IH.
  - destruct (h r); simpl; [by rewrite Hk|done].
Qed.
End gmap_grouping.

(** ** The statuses of a queryset *)

Section status_calculator_facts.
Import StatusCalculator.

Lemma visit_dates_by_poi_id_lookup db poi_ids k :
  k ∈ poi_ids →
  default [] (visit_dates_by_poi_id db poi_ids !! k) = visit_dates_of db k.
Proof.
  intros Hk. unfold visit_dates_by_poi_id, visit_dates_of.
  rewrite (gmap_grouped_foldl fst snd), lookup_empty. simpl.
  apply grouped_filter. intros r <-. by apply bool_decide_eq_true.
Qed.

Lemma grouped_omap_filter {Y} (j : Z * Z → option (Z * Y))
    (h1 h2 : Z * Z → bool) (reqs : list (Z * Z)) k :
  (∀ req y, j req = Some y → y.1 = req.2) →
  (∀ req, req.2 = k → h1 req = h2 req) →
  Dict.grouped fst snd k (omap j (List.filter h1 reqs))
  = Dict.grouped fst snd k (omap j (List.filter h2 reqs)).
Proof.
  intros Hj Hh.
  assert (∀ req, req.2 ≠ k → ∀ l,
            Dict.grouped fst snd k (omap j (req :: l))
            = Dict.grouped fst snd k (omap j l)) as Hskip.
  { intros req Hne l. unfold Dict.grouped. cbn [omap list_omap].
    destruct (j req) as [y|] eqn:Hy; [|done]. cbn [List.filter].
    rewrite bool_decide_false; [done|]. by rewrite (Hj _ _ Hy). }
  induction reqs as [|req reqs IH]; [done|]. cbn [List.filter].
  destruct (decide (req.2 = k)) as [Hk|Hk].
  - rewrite (Hh req Hk). destruct (h2 req); [|done].
    unfold Dict.grouped in *. cbn [omap list_omap].
    destruct (j req) as [y|]; [|done]. cbn [List.filter].
    destruct (bool_decide (y.1 = k)); [|done]. cbn [map]. by f_equal.
  - destruct (h1 req), (h2 req); rewrite ?(Hskip req Hk); done.
Qed.

Lemma requirements_rows_grouped db poi_ids bq k :
  k ∈ poi_ids →
  Dict.grouped fst snd k (requirements_rows db poi_ids bq)
  = badges_data_of db k bq.
Proof.
  intros Hk. unfold badges_data_of, requirements_rows.
  apply grouped_omap_filter.
  - intros req y. destruct (badge_of db req.1); [|done]. by intros [= <-].
  - intros req <-. f_equal.
    rewrite !bool_decide_true; [done | by left | done].
Qed.

Lemma requirements_data_lookup db poi_ids bq k :
  k ∈ poi_ids →
  default [] (requirements_data_by_poi_id db poi_ids bq !! k)
  = badges_data_of db k bq.
Proof.
  intros Hk. unfold requirements_data_by_poi_id.
  rewrite (gmap_grouped_foldl fst snd), lookup_empty. simpl.
  by apply requirements_rows_grouped.
Qed.

Lemma get_foldl_set {V} (h : Z → V) (pois : list PointOfInterest.t) d0 k :
  Dict.get k
    (foldl (λ d poi, Dict.set (PointOfInterest.id poi) (h (PointOfInterest.id poi)) d)
       d0 pois)
  = if bool_decide (k ∈ map PointOfInterest.id pois) then Some (h k)
    else Dict.get k d0.
Proof.
  revert d0. induction pois as [|poi pois IH]; intros d0; [done|].
  cbn [foldl map]. rewrite IH.
  destruct (decide (k ∈ map PointOfInterest.id pois)) as [Hin|Hnin].
  - rewrite !bool_decide_true; [done | by right | done].
  - rewrite (bool_decide_false _ Hnin).
    destruct (decide (k = PointOfInterest.id poi)) as [->|Hne].
    + rewrite bool_decide_true by (by left). apply dict_get_set_eq.
    + rewrite bool_decide_false.
      * by apply dict_get_set_ne.
      * intros Hin. apply elem_of_cons in Hin as [?|?]; done.
Qed.

(** The entry of a POI in the dictionary of statuses. *)
Lemma get_statuses_lookup db today poi_list bq poi_id :
  Dict.get poi_id (calculate_poi_statuses db today poi_list bq)
  = if bool_decide (poi_id ∈ map PointOfInterest.id poi_list)
    then Some (Status._determine_status today (visit_dates_of db poi_id)
                 (badges_data_of db poi_id bq))
    else None.
Proof.
  unfold calculate_poi_statuses, get_statuses.
  rewrite (get_foldl_set
             (λ k, Status._determine_status today
                     (default [] (visit_dates_by_poi_id db
                                    (map PointOfInterest.id poi_list) !! k))
                     (default [] (requirements_data_by_poi_id db
                                    (map PointOfInterest.id poi_list) bq !! k)))).
  case_bool_decide as Hk; [|done].
  by rewrite visit_dates_by_poi_id_lookup, requirements_data_lookup.
Qed.
End status_calculator_facts.

(** X1: every POI of the queryset gets the status decided on its own visit
    dates and on the badges of its own requirements within the context:
    its entry is the one a queryset of that POI alone gives, whatever
    other POIs the queryset holds, and a POI outside the queryset gets no
    entry. *)
Theorem get_statuses_per_poi (db : Database) (today : date)
    (poi_list : list PointOfInterest.t) (badges_queryset : option (list Badge.t)) :
  (∀ p, p ∈ poi_list →
     Dict.get (PointOfInterest.id p)
       (StatusCalculator.calculate_poi_statuses db today poi_list badges_queryset)
     = Dict.get (PointOfInterest.id p)
         (StatusCalculator.calculate_poi_statuses db today [p] badges_queryset)
     ∧ Dict.get (PointOfInterest.id p)
         (StatusCalculator.calculate_poi_statuses db today poi_list badges_queryset)
       = Some (Status._determine_status today
                 (StatusCalculator.visit_dates_of db (PointOfInterest.id p))
                 (StatusCalculator.badges_data_of db (PointOfInterest.id p)
                    badges_queryset))) ∧
  (∀ poi_id, poi_id ∉ map PointOfInterest.id poi_list →
     Dict.get poi_id
       (StatusCalculator.calculate_poi_statuses db today poi_list badges_queryset)
     = None).
Proof.
  split.
  - intros p Hp. rewrite !get_statuses_lookup.
    rewrite !bool_decide_true; [done | by left |].
    apply list_elem_of_fmap. by exists p.
  - intros poi_id Hnin. rewrite get_statuses_lookup.
    by rewrite bool_decide_false.
Qed.

(** ** The scored POIs, exactly *)

Section base_list_facts.
Import Scoring.

Lemma score_step_le bm rc visits s bid s' :
  score_step bm rc visits s bid = Some s' → (s <= s')%Q.
Proof.
  unfold score_step. destruct (bm !! bid) as [b|]; [|done].
  destruct (is_claimed b visits); [intros [= <-]; apply Qle_refl|].
  destruct (Z.ltb_spec 0 (default 0 (rc !! bid))) as [Hpos|_];
    [|intros [= <-]; apply Qle_refl].
  intros [= <-]. rewrite <- (Qplus_0_r s) at 1.
  apply Qplus_le_r. apply Qlt_le_weak, Qlt_shift_div_l.
  - by rewrite <- (Zlt_Qlt 0).
  - rewrite Qmult_0_l. reflexivity.
Qed.

Lemma score_loop_le bm rc visits bids s0 s :
  score_loop bm rc visits s0 bids = Some s → (s0 <= s)%Q.
Proof.
  revert s0. induction bids as [|bid bids IH]; intros s0; simpl.
  - intros [= <-]. apply Qle_refl.
  - destruct (score_step bm rc visits s0 bid) as [s1|] eqn:Hs1; [|done].
    intros Hl. eapply Qle_trans; [by eapply score_step_le | by apply IH].
Qed.

(** A badge with POIs remaining that the POI has not claimed raises its
    score. *)
Lemma score_loop_lt bm rc visits bids s0 s bid b n :
  score_loop bm rc visits s0 bids = Some s →
  bid ∈ bids → bm !! bid = Some b → is_claimed b visits = false →
  rc !! bid = Some n → 0 < n →
  (s0 < s)%Q.
Proof.
  intros Hl Hin Hb Hcl Hn Hpos. revert s0 Hl.
  induction bids as [|bid' bids IH]; intros s0; simpl.
  - by apply elem_of_nil in Hin.
  - destruct (score_step bm rc visits s0 bid') as [s1|] eqn:Hs1; [|done].
    intros Hl. apply elem_of_cons in Hin as [<-|Hin].
    + apply Qlt_le_trans with s1; [|by eapply score_loop_le].
      unfold score_step in Hs1. rewrite Hb, Hcl, Hn in Hs1. simpl in Hs1.
      rewrite (proj2 (Z.ltb_lt 0 n) Hpos) in Hs1. injection Hs1 as <-.
      rewrite <- (Qplus_0_r s0) at 1. apply Qplus_lt_r.
      apply Qlt_shift_div_l; [by rewrite <- (Zlt_Qlt 0)|].
      rewrite Qmult_0_l. reflexivity.
    + apply Qle_lt_trans with s1; [by eapply score_step_le | by apply IH].
Qed.

Lemma poi_scores_loop_get bm rc visits_by_poi items acc ps k :
  NoDup (Dict.keys items) →
  poi_scores_loop bm rc visits_by_poi items acc = Some ps →
  Dict.get k ps =
    match Dict.get k items with
    | Some bids =>
        match score_loop bm rc (visits_of visits_by_poi k) 0%Q bids with
        | Some s => if negb (Qle_bool s 0) then Some s else Dict.get k acc
        | None => Dict.get k acc
        end
    | None => Dict.get k acc
    end.
Proof.
  revert acc. induction items as [|[p b0] items IH]; intros acc Hnd; simpl.
  - by intros [= <-].
  - unfold Dict.keys in Hnd. simpl in Hnd. apply NoDup_cons in Hnd as [Hp Hnd].
    destruct (score_loop bm rc (visits_of visits_by_poi p) 0%Q b0) as [s|] eqn:Hs;
      [|done].
    intros Hl. rewrite (IH _ Hnd Hl).
    destruct (decide (k = p)) as [->|Hne].
    + assert (Dict.get p items = None) as -> by (by apply dict_get_None).
      rewrite Hs. destruct (negb (Qle_bool s 0)); [|done].
      apply dict_get_set_eq.
    + assert (Dict.get k (if negb (Qle_bool s 0) then Dict.set p s acc else acc)
              = Dict.get k acc) as ->; [|done].
      destruct (negb (Qle_bool s 0)); [|done]. by apply dict_get_set_ne.
Qed.

Lemma poi_scores_loop_NoDup bm rc visits_by_poi items acc ps :
  NoDup (Dict.keys acc) →
  poi_scores_loop bm rc visits_by_poi items acc = Some ps →
  NoDup (Dict.keys ps).
Proof.
  revert acc. induction items as [|[p b0] items IH]; intros acc Hnd; simpl.
  - by intros [= <-].
  - destruct (score_loop _ _ _ _ _) as [s|]; [|done].
    apply IH. destruct (negb _); [|done]. by apply dict_keys_set_NoDup.
Qed.

Lemma results_list_elem pm ps item :
  item ∈ results_list pm ps ↔
  ∃ k s o, (k, s) ∈ ps ∧ pm !! k = Some o ∧ item = mk_item o s [] None.
Proof.
  induction ps as [|[k s] ps IH]; simpl.
  - split; [intros H; by apply elem_of_nil in H|].
    intros (? & ? & ? & H & _). by apply elem_of_nil in H.
  - destruct (pm !! k) as [o|] eqn:Ho.
    + rewrite elem_of_cons, IH. split.
      * intros [->|(k' & s' & o' & Hin & Hpm & ->)].
        -- exists k, s, o. split; [by left|done].
        -- exists k', s', o'. split; [by right|done].
      * intros (k' & s' & o' & Hin & Hpm & ->).
        apply elem_of_cons in Hin as [[= -> ->]|Hin].
        -- left. congruence.
        -- right. eauto 7.
    + rewrite IH. split.
      * intros (k' & s' & o' & Hin & Hpm & ->).
        exists k', s', o'. split; [by right|done].
      * intros (k' & s' & o' & Hin & Hpm & ->).
        apply elem_of_cons in Hin as [[= -> ->]|Hin]; [congruence|eauto 7].
Qed.

Lemma scored_pois_map_is_Some db ids k :
  k ∈ ids → k ∈ map PointOfInterest.id (PointOfInterest_objects db) →
  is_Some (scored_pois_map db ids !! k).
Proof.
  intros Hk Hrow. unfold scored_pois_map.
  assert (k ∈ map PointOfInterest.id
              (List.filter (λ p, bool_decide (PointOfInterest.id p ∈ ids))
                 (PointOfInterest_objects db))) as Hin.
  { apply list_elem_of_fmap in Hrow as (p & -> & Hp).
    apply list_elem_of_fmap. exists p. split; [done|].
    apply list_elem_of_In, filter_In. split; [by apply list_elem_of_In|].
    by apply bool_decide_eq_true. }
  revert Hin. generalize (List.filter (λ p, bool_decide (PointOfInterest.id p ∈ ids))
                            (PointOfInterest_objects db)).
  generalize (∅ : gmap Z PointOfInterest.t).
  intros m l. revert m. induction l as [|x l IH]; intros m Hin; simpl.
  - by apply elem_of_nil in Hin.
  - simpl in Hin. destruct (decide (k ∈ map PointOfInterest.id l)) as [Hl|Hl].
    + by apply IH.
    + apply elem_of_cons in Hin as [->|Hin]; [|done].
      clear IH. revert m. induction l as [|y l IHl]; intros m; simpl.
      * rewrite lookup_insert_eq. eauto.
      * simpl in Hl. apply not_elem_of_cons in Hl as [Hne Hl].
        rewrite insert_insert_ne by done. by apply IHl.
Qed.

Lemma scored_pois_map_elem db ids k o :
  scored_pois_map db ids !! k = Some o → o ∈ PointOfInterest_objects db.
Proof.
  unfold scored_pois_map.
  assert (∀ l (m : gmap Z PointOfInterest.t),
            foldl (λ m p, <[PointOfInterest.id p := p]> m) m l !! k = Some o →
            o ∈ l ∨ m !! k = Some o) as Hfold.
  { induction l as [|x l IH]; intros m; simpl; [by right|].
    intros Hl. apply IH in Hl as [Hl|Hl]; [left; by right|].
    destruct (decide (PointOfInterest.id x = k)) as [<-|Hne].
    - rewrite lookup_insert_eq in Hl. injection Hl as ->. left. by left.
    - rewrite lookup_insert_ne in Hl by done. by right. }
  intros Ho. apply Hfold in Ho as [Ho|Ho]; [|by rewrite lookup_empty in Ho].
  apply list_elem_of_In, filter_In in Ho as [Ho _]. by apply list_elem_of_In.
Qed.

(** The base list holds a POI exactly when its row exists and the loop
    over its badges leaves a positive score, and holds it with that
    score. *)
Lemma calculate_poi_scores_elem db active_badges visits_by_poi base :
  calculate_poi_scores db active_badges visits_by_poi = Some base →
  ∃ rc, remaining_counts db active_badges visits_by_poi = Some rc ∧
  ∀ k s,
    (∃ item, item ∈ base ∧ PointOfInterest.id (poi item) = k ∧ score item = s) ↔
    (k ∈ map PointOfInterest.id (PointOfInterest_objects db) ∧
     ∃ bids,
       Dict.get k (badges_by_poi
                     (requirements_of db (map Badge.id active_badges)))
       = Some bids ∧
       score_loop (active_badges_map active_badges) rc
         (visits_of visits_by_poi k) 0%Q bids = Some s ∧
       Qle_bool s 0 = false).
Proof.
  unfold calculate_poi_scores.
  destruct (remaining_counts db active_badges visits_by_poi) as [rc|]; [|done].
  set (reqs := requirements_of db (map Badge.id active_badges)).
  set (bm := active_badges_map active_badges).
  destruct (poi_scores_loop bm rc visits_by_poi (badges_by_poi reqs) [])
    as [ps|] eqn:Hps; [|done].
  intros Hbase. exists rc. split; [done|]. intros k s.
  assert (NoDup (Dict.keys (badges_by_poi reqs))) as Hnd
    by (apply (keys_foldl_append_NoDup snd fst), NoDup_nil_2).
  pose proof (poi_scores_loop_NoDup _ _ _ _ [] _ (NoDup_nil_2) Hps) as Hndps.
  assert (∀ k s, (k, s) ∈ ps ↔
            ∃ bids, Dict.get k (badges_by_poi reqs) = Some bids ∧
              score_loop bm rc (visits_of visits_by_poi k) 0%Q bids = Some s ∧
              Qle_bool s 0 = false) as Hchar.
  { intros k' s'. split.
    - intros Hin. apply dict_elem_get in Hin; [|done].
      rewrite (poi_scores_loop_get _ _ _ _ _ _ k' Hnd Hps) in Hin.
      destruct (Dict.get k' (badges_by_poi reqs)) as [bids|]; [|done].
      destruct (score_loop bm rc _ _ bids) as [s0|] eqn:Hs0; [|done].
      destruct (Qle_bool s0 0) eqn:Hle; [done|]. simpl in Hin.
      injection Hin as <-. by exists bids.
    - intros (bids & Hb & Hs & Hpos). apply dict_get_Some_elem.
      rewrite (poi_scores_loop_get _ _ _ _ _ _ k' Hnd Hps), Hb, Hs, Hpos. done. }
  assert (∀ item, item ∈ base ↔
            item ∈ results_list (scored_pois_map db (Dict.keys ps)) ps) as Hb.
  { intros item. destruct ps as [|kv ps']; injection Hbase as <-; [done|].
    by rewrite sorted_desc_Permutation. }
  split.
  - intros (item & Hin & <- & <-). apply Hb, results_list_elem in Hin
      as (k' & s' & o & Hin & Ho & ->). simpl.
    pose proof (scored_pois_map_id _ _ _ _ Ho) as Hid. rewrite Hid.
    split; [|by apply Hchar].
    apply scored_pois_map_elem in Ho.
    apply list_elem_of_fmap. by exists o.
  - intros (Hrow & Hex). apply Hchar in Hex.
    destruct (scored_pois_map_is_Some db (Dict.keys ps) k) as [o Ho]; [|done|].
    { apply list_elem_of_fmap. by exists (k, s). }
    exists (mk_item o s [] None). split; [|split; [|done]].
    + apply Hb, results_list_elem. eauto 7.
    + simpl. by eapply scored_pois_map_id.
Qed.
End base_list_facts.

(** ** Status and score of a POI *)

Section status_score_facts.
Import Scoring ScoringCache StatusCalculator.

Lemma visits_by_poi_of_lookup db k :
  visits_of (visits_by_poi_of db) k = visit_dates_of db k.
Proof.
  unfold visits_of, visits_by_poi_of, visit_dates_of.
  by rewrite (gmap_grouped_foldl fst snd), lookup_empty.
Qed.

(** The status is [niezdobyty] or [do_ponowienia] exactly when some
    active requirement badge has no visit within its window. *)
Lemma determine_status_open today visits bds :
  (Status._determine_status today visits bds = Status.niezdobyty ∨
   Status._determine_status today visits bds = Status.do_ponowienia) ↔
  ∃ bd, bd ∈ bds ∧ Status.is_active today bd = true ∧
        Window.status_is_claimed (Status.start_date bd) (Status.end_date bd)
          visits = false.
Proof.
  assert (∀ l, Status.claimed_badges_count visits l = length l ↔
               Forall (λ bd, Window.status_is_claimed (Status.start_date bd)
                               (Status.end_date bd) visits = true) l) as Hall.
  { intros l. rewrite all_claimed_iff. apply Forall_proper; [|done].
    intros bd. symmetry. apply is_claimed_spec. }
  assert (∀ bd, bd ∈ List.filter (Status.is_active today) bds ↔
                bd ∈ bds ∧ Status.is_active today bd = true) as Hfilter.
  { intros bd. by rewrite !list_elem_of_In, filter_In. }
  unfold Status._determine_status.
  destruct bds as [|b0 l0] eqn:Hbds.
  { split; [by intros [?|?]|]. intros (bd & Hin & _). by apply elem_of_nil in Hin. }
  rewrite <- Hbds in *. clear Hbds b0 l0.
  destruct (List.filter (Status.is_active today) bds) as [|a l] eqn:Hf.
  { split; [by intros [?|?]|]. intros (bd & Hin & Hact & _).
    assert (bd ∈ []) as Hnil by (by apply Hfilter).
    by apply elem_of_nil in Hnil. }
  rewrite <- Hf in *. clear Hf a l.
  destruct (Nat.eqb_spec
              (Status.claimed_badges_count visits
                 (List.filter (Status.is_active today) bds))
              (length (List.filter (Status.is_active today) bds))) as [Heq|Hne].
  - split; [by intros [?|?]|]. intros (bd & Hin & Hact & Hcl).
    apply Hall in Heq. rewrite Forall_forall in Heq.
    rewrite Heq in Hcl; [done|]. by apply Hfilter.
  - split.
    + intros _. rewrite Hall in Hne. apply not_Forall_Exists in Hne; [|apply _].
      apply Exists_exists in Hne as (bd & Hin & Hcl).
      apply Hfilter in Hin as [Hin Hact]. exists bd.
      split; [done|]. split; [done|]. by apply not_true_is_false.
    + intros _. destruct visits; [by left | by right].
Qed.

Lemma badge_of_Some db bid b :
  badge_of db bid = Some b → b ∈ Badge_objects db ∧ Badge.id b = bid.
Proof.
  unfold badge_of. intros Hf. apply find_some in Hf as [Hin Hid].
  split; [by apply list_elem_of_In | by apply bool_decide_eq_true in Hid].
Qed.

Lemma badge_of_lookup db b :
  NoDup (map Badge.id (Badge_objects db)) → b ∈ Badge_objects db →
  badge_of db (Badge.id b) = Some b.
Proof.
  unfold badge_of. induction (Badge_objects db) as [|x l IH]; simpl.
  - intros _ Hin. by apply elem_of_nil in Hin.
  - intros Hnd Hin. apply NoDup_cons in Hnd as [Hx Hnd].
    apply elem_of_cons in Hin as [->|Hin].
    + by rewrite bool_decide_true.
    + rewrite bool_decide_false; [by apply IH|].
      intros Heq. apply Hx. rewrite Heq. apply list_elem_of_fmap. by exists b.
Qed.

(** The badge fields the status calculator reads for a POI are those of
    the badges that require it. *)
Lemma badges_data_of_elem db k bd :
  bd ∈ badges_data_of db k None ↔
  ∃ bid b, (bid, k) ∈ BadgeRequirement_objects db ∧ badge_of db bid = Some b ∧
    bd = Status.mk_badge_data (Badge.is_fully_achieved b) (Badge.start_date b)
           (Badge.end_date b).
Proof.
  unfold badges_data_of. rewrite elem_of_grouped. unfold requirements_rows.
  split.
  - intros ([k' bd'] & Hrow & Hk & Hbd). simpl in *. subst.
    apply list_elem_of_omap in Hrow as ([bid pid] & Hreq & Hj).
    apply list_elem_of_In, filter_In in Hreq as [Hreq _].
    simpl in Hj. destruct (badge_of db bid) as [b|] eqn:Hb; [|done].
    injection Hj as <- <-. exists bid, b. by rewrite list_elem_of_In.
  - intros (bid & b & Hreq & Hb & ->). eexists (k, _). split; [|done].
    apply list_elem_of_omap. exists (bid, k). split.
    + apply list_elem_of_In, filter_In. split; [by apply list_elem_of_In|].
      simpl. rewrite bool_decide_true by (by left). done.
    + simpl. by rewrite Hb.
Qed.

Lemma filter_length_lt {X} (h : X → bool) (l : list X) x :
  x ∈ l → h x = false → (length (List.filter h l) < length l)%nat.
Proof.
  intros Hin Hx. induction l as [|y l IH]; [by apply elem_of_nil in Hin|].
  pose proof (filter_length_le h l) as Hle. simpl.
  apply elem_of_cons in Hin as [<-|Hin].
  - rewrite Hx. lia.
  - specialize (IH Hin). destruct (h y); simpl; lia.
Qed.

Lemma remaining_pos db visits_by_poi b k :
  k ∈ required_pois db (Badge.id b) →
  is_claimed b (visits_of visits_by_poi k) = false →
  0 < remaining db visits_by_poi b.
Proof.
  intros Hreq Hcl. unfold remaining, claimed_pois.
  pose proof (filter_length_lt
                (λ poi_id, is_claimed b (visits_of visits_by_poi poi_id))
                _ k Hreq Hcl). lia.
Qed.
End status_score_facts.

(** X2: a POI of the table is in the base list of the scoring engine exactly
    when its status over all badges is [niezdobyty] or [do_ponowienia]:
    POIs that are [zdobyty] or [nieaktywny] never get a score. *)
Theorem status_matches_scoring (db : Database) (today : date)
    (poi_list : list PointOfInterest.t) (p : PointOfInterest.t) :
  NoDup (map Badge.id (Badge_objects db)) →
  p ∈ PointOfInterest_objects db →
  p ∈ poi_list →
  ∃ base status,
    Scoring.calculate_poi_scores db
      (List.filter (ScoringCache.badge_is_active today) (Badge_objects db))
      (ScoringCache.visits_by_poi_of db) = Some base ∧
    Dict.get (PointOfInterest.id p)
      (StatusCalculator.calculate_poi_statuses db today poi_list None)
    = Some status ∧
    ((∃ item, item ∈ base ∧
              PointOfInterest.id (Scoring.poi item) = PointOfInterest.id p) ↔
     status = Status.niezdobyty ∨ status = Status.do_ponowienia).
Proof.
  intros Hnd Hrow Hp.
  set (active := List.filter (ScoringCache.badge_is_active today) (Badge_objects db)).
  set (vs := ScoringCache.visits_by_poi_of db).
  set (k := PointOfInterest.id p).
  destruct (calculate_poi_scores_spec db active vs) as (base & Hbase & Hunclaimed).
  exists base. eexists. split; [done|].
  rewrite get_statuses_lookup.
  rewrite bool_decide_true by (apply list_elem_of_fmap; by exists p).
  split; [done|]. fold k.
  rewrite determine_status_open.
  assert (∀ b, b ∈ active ↔
               b ∈ Badge_objects db ∧ ScoringCache.badge_is_active today b = true)
    as Hactive.
  { intros b. unfold active. by rewrite !list_elem_of_In, filter_In. }
  assert (∀ b, Window.status_is_claimed (Badge.start_date b) (Badge.end_date b)
                 (StatusCalculator.visit_dates_of db k)
               = Scoring.is_claimed b (Scoring.visits_of vs k)) as Hsame.
  { intros b. unfold vs. rewrite visits_by_poi_of_lookup.
    unfold Scoring.is_claimed. by rewrite scoring_is_claimed_existsb. }
  split.
  - intros (item & Hin & Hid).
    destruct (Hunclaimed item Hin) as (b & Hb & Hreq & Hcl).
    rewrite Hid in Hreq, Hcl. fold k in Hreq, Hcl.
    apply Hactive in Hb as [Hb Hact].
    eexists. split; [|split].
    + apply badges_data_of_elem. exists (Badge.id b), b.
      split; [done|]. split; [by apply badge_of_lookup | done].
    + exact Hact.
    + simpl. by rewrite Hsame.
  - intros (bd & Hbd & Hact & Hcl).
    apply badges_data_of_elem in Hbd as (bid & b & Hreq & Hb & ->).
    apply badge_of_Some in Hb as [Hb <-]. simpl in Hcl. rewrite Hsame in Hcl.
    assert (b ∈ active) as Hbact by (by apply Hactive).
    assert (NoDup (map Badge.id active)) as Hndact.
    { unfold active. clear -Hnd.
      induction (Badge_objects db) as [|x l IH]; simpl; [constructor|].
      simpl in Hnd. apply NoDup_cons in Hnd as [Hx Hnd].
      destruct (ScoringCache.badge_is_active today x); [|by apply IH].
      simpl. constructor; [|by apply IH].
      intros Hin. apply Hx. apply list_elem_of_fmap in Hin as (y & -> & Hy).
      apply list_elem_of_fmap. exists y. split; [done|].
      apply list_elem_of_In, filter_In in Hy as [Hy _]. by apply list_elem_of_In. }
    assert (Badge.id b ∈ map Badge.id active) as Hid
      by (apply list_elem_of_fmap; by exists b).
    assert (k ∈ Scoring.required_pois db (Badge.id b)) as Hrequired.
    { apply (elem_of_grouped fst snd). by exists (Badge.id b, k). }
    destruct (badges_by_poi_get db _ b k Hid Hrequired) as (bids & Hbids & Hin).
    destruct (calculate_poi_scores_elem db active vs base Hbase)
      as (rc & Hrc & Hchar).
    destruct (remaining_counts_total db active vs) as (rc' & Hrc' & Hlook).
    rewrite Hrc in Hrc'. injection Hrc' as <-.
    assert (rc !! Badge.id b = Some (Scoring.remaining db vs b)) as Hrem.
    { apply Hlook; [done..|]. intros Hnil. rewrite Hnil in Hrequired.
      by apply elem_of_nil in Hrequired. }
    destruct (score_loop_total (Scoring.active_badges_map active) rc
                (Scoring.visits_of vs k) bids 0%Q) as [s Hs].
    { intros bid Hbid. apply active_badges_map_is_Some.
      pose proof (badges_by_poi_elem _ _ _ _ (dict_get_Some_elem _ _ _ Hbids) Hbid)
        as Hr.
      by apply requirements_of_elem in Hr as [_ ?]. }
    assert (0 < s)%Q as Hpos.
    { eapply score_loop_lt; [exact Hs | exact Hin | | exact Hcl | exact Hrem |].
      - by apply active_badges_map_lookup.
      - by apply remaining_pos with k. }
    destruct (proj2 (Hchar k s)) as (item & Hitem & Hid' & _).
    { split; [apply list_elem_of_fmap; by exists p|].
      exists bids. split; [done|]. split; [done|].
      destruct (Qle_bool s 0) eqn:Hle; [|done].
      apply Qle_bool_iff in Hle. by apply Qle_not_lt in Hle. }
    by exists item.
Qed.

(** One badge requiring two POIs, the first visited in its window: the
    second is [niezdobyty] and is in the base list. *)
Lemma status_matches_scoring_witness :
  let b := Badge.mk 7 (Some (mk_date 2023 1 1)) (Some (mk_date 2023 12 31)) false in
  let p1 := PointOfInterest.mk 1 "Kopa" None None in
  let p2 := PointOfInterest.mk 2 "Turnia" None None in
  let db := mk_db [(1, mk_date 2023 6 1)] [b] [(7, 1); (7, 2)] [p1; p2] in
  let today := mk_date 2023 7 1 in
  Dict.get 2 (StatusCalculator.calculate_poi_statuses db today [p1; p2] None)
    = Some Status.niezdobyty ∧
  ∃ base item,
    Scoring.calculate_poi_scores db
      (List.filter (ScoringCache.badge_is_active today) (Badge_objects db))
      (ScoringCache.visits_by_poi_of db) = Some base ∧
    item ∈ base ∧ PointOfInterest.id (Scoring.poi item) = 2.
Proof.
  intros b p1 p2 db today.
  assert (NoDup (map Badge.id (Badge_objects db))) as Hnd.
  { apply NoDup_ListNoDup. repeat constructor. simpl. tauto. }
  destruct (status_matches_scoring db today [p1; p2] p2 Hnd)
    as (base & status & Hbase & Hst & Hiff).
  { right; by left. }
  { right; by left. }
  assert (status = Status.niezdobyty) as ->.
  { vm_compute in Hst. by injection Hst. }
  split; [exact Hst|].
  destruct (proj2 Hiff) as (item & Hin & Hid); [by left|].
  by exists base, item.
Defined.

(** ** The scores of a queryset *)

Section queryset_facts.
Import Scoring ScoringCache ScoringQueryset.

Lemma NoDup_List_filter {X} (h : X → bool) (l : list X) :
  NoDup l → NoDup (List.filter h l).
Proof.
  induction 1 as [|x l Hx Hl IH]; simpl; [constructor|].
  destruct (h x); [|done]. constructor; [|done].
  intros Hin. apply Hx. apply list_elem_of_In, filter_In in Hin as [Hin _].
  by apply list_elem_of_In.
Qed.

Lemma add_claimed_pair_elem (vs : gmap Z (list date)) (bid : Z) (b : Badge.t)
    (l : list Z) (pairs : gset (Z * Z)) (x : Z * Z) :
  x ∈ foldl (add_claimed_pair vs bid b) pairs l ↔
  x ∈ pairs ∨ ∃ p, p ∈ l ∧ is_claimed b (visits_of vs p) = true ∧ x = (p, bid).
Proof.
  revert pairs. induction l as [|p l IH]; intros pairs; simpl.
  - split; [by left|]. intros [?|(p & Hp & _)]; [done|by apply elem_of_nil in Hp].
  - rewrite IH. unfold add_claimed_pair.
    destruct (is_claimed b (visits_of vs p)) eqn:Hcl.
    + rewrite elem_of_union, elem_of_singleton. split.
      * intros [[->|?]|(q & Hq & ? & ?)]; [right|by left|right].
        -- exists p. split; [by left|done].
        -- exists q. split; [by right|done].
      * intros [?|(q & Hq & Hc & ->)]; [left; by right|].
        apply elem_of_cons in Hq as [->|Hq]; [left; by left|].
        right. by exists q.
    + split.
      * intros [?|(q & Hq & ? & ?)]; [by left|right].
        exists q. split; [by right|done].
      * intros [?|(q & Hq & Hc & ->)]; [by left|].
        apply elem_of_cons in Hq as [->|Hq]; [congruence|].
        right. by exists q.
Qed.

(** A pair is in [claimed_poi_badge_pairs] exactly when the badge is
    active, requires the POI and has a visit of the POI in its window. *)
Lemma claimed_pairs_elem (bm : gmap Z Badge.t) (pbb : list (Z * list Z))
    (vs : gmap Z (list date)) (p bid : Z) :
  (p, bid) ∈ claimed_poi_badge_pairs bm pbb vs ↔
  ∃ b, bm !! bid = Some b ∧ p ∈ default [] (Dict.get bid pbb) ∧
       is_claimed b (visits_of vs p) = true.
Proof.
  unfold claimed_poi_badge_pairs.
  assert (∀ L : list (Z * Badge.t),
            (p, bid) ∈ foldr (λ kv pairs,
                                foldl (add_claimed_pair vs kv.1 kv.2) pairs
                                  (default [] (Dict.get kv.1 pbb))) ∅ L ↔
            ∃ b, (bid, b) ∈ L ∧ p ∈ default [] (Dict.get bid pbb) ∧
                 is_claimed b (visits_of vs p) = true) as HL.
  { induction L as [|[k b] L IH]; simpl.
    - split; [intros H; by apply elem_of_empty in H|].
      intros (b & H & _). by apply elem_of_nil in H.
    - rewrite add_claimed_pair_elem, IH. split.
      + intros [(b' & Hin & ?)|(q & Hq & Hc & [= -> ->])].
        * exists b'. split; [by right|done].
        * exists b. split; [by left|done].
      + intros (b' & Hin & Hp & Hc).
        apply elem_of_cons in Hin as [[= -> ->]|Hin].
        * right. by exists p.
        * left. by exists b'. }
  rewrite HL. by setoid_rewrite elem_of_map_to_list.
Qed.

Lemma claimed_counts_lookup (l : list (Z * Z)) bid :
  default 0 (claimed_counts_by_badge l !! bid)
  = Z.of_nat (length (List.filter (λ pair : Z * Z, bool_decide (pair.2 = bid)) l)).
Proof.
  induction l as [|[p b] l IH]; simpl; [done|].
  destruct (decide (b = bid)) as [->|Hne].
  - rewrite bool_decide_true by done. rewrite lookup_insert_eq. simpl.
    rewrite IH. lia.
  - rewrite bool_decide_false by done. by rewrite lookup_insert_ne.
Qed.

(** The count of the claimed pairs of a badge is the number of its
    claimed POIs when no POI is required twice. *)
Lemma claimed_pairs_count (bm : gmap Z Badge.t) (pbb : list (Z * list Z))
    (vs : gmap Z (list date)) (bid : Z) (b : Badge.t) (l : list Z) :
  bm !! bid = Some b → Dict.get bid pbb = Some l → NoDup l →
  length (List.filter (λ pair : Z * Z, bool_decide (pair.2 = bid))
            (elements (claimed_poi_badge_pairs bm pbb vs)))
  = length (List.filter (λ p, is_claimed b (visits_of vs p)) l).
Proof.
  intros Hb Hl Hnd.
  rewrite <- (length_fmap (λ p, (p, bid))
                (List.filter (λ p, is_claimed b (visits_of vs p)) l)).
  apply Permutation_length, NoDup_Permutation.
  - apply NoDup_List_filter, NoDup_elements.
  - apply NoDup_fmap_2; [by intros ?? [= ->]|]. by apply NoDup_List_filter.
  - intros [p k].
    rewrite list_elem_of_In, filter_In, <- list_elem_of_In, elem_of_elements.
    rewrite bool_decide_eq_true, claimed_pairs_elem, list_elem_of_fmap. simpl.
    split.
    + intros [(b' & Hb' & Hp & Hc) ->]. rewrite Hb in Hb'. injection Hb' as <-.
      rewrite Hl in Hp. simpl in Hp. exists p. split; [done|].
      apply list_elem_of_In, filter_In. by rewrite <- list_elem_of_In.
    + intros (q & [= -> ->] & Hq).
      apply list_elem_of_In, filter_In in Hq as [Hq Hc].
      split; [|done]. exists b. rewrite Hl. simpl.
      by rewrite list_elem_of_In.
Qed.

Lemma queryset_remaining_lookup (pbb : list (Z * list Z)) (cc acc : gmap Z Z)
    (bid : Z) :
  NoDup (Dict.keys pbb) →
  foldl (λ counts (kv : Z * list Z),
           <[kv.1 := Z.of_nat (length kv.2) - default 0 (cc !! kv.1)]> counts)
    acc pbb !! bid
  = match Dict.get bid pbb with
    | Some l => Some (Z.of_nat (length l) - default 0 (cc !! bid))
    | None => acc !! bid
    end.
Proof.
  revert acc. induction pbb as [|[k l] pbb IH]; intros acc Hnd; simpl; [done|].
  unfold Dict.keys in Hnd. simpl in Hnd. apply NoDup_cons in Hnd as [Hk Hnd].
  rewrite IH by done. destruct (decide (bid = k)) as [->|Hne].
  - assert (Dict.get k pbb = None) as -> by (by apply dict_get_None).
    by rewrite lookup_insert_eq.
  - by rewrite lookup_insert_ne.
Qed.

Lemma grouped_NoDup (reqs : list (Z * Z)) bid :
  NoDup reqs → NoDup (Dict.grouped fst snd bid reqs).
Proof.
  intros Hnd. unfold Dict.grouped.
  apply NoDup_fmap_2_strong; [|by apply NoDup_List_filter].
  intros [b p] [b' p'] Hin Hin' Heq. simpl in Heq. subst p'.
  apply list_elem_of_In, filter_In in Hin as [_ Hb].
  apply list_elem_of_In, filter_In in Hin' as [_ Hb'].
  apply bool_decide_eq_true in Hb, Hb'. simpl in *. by subst.
Qed.

(** The two engines keep the same remaining counts. *)
Lemma queryset_remaining_counts db active_badges vs rc :
  NoDup (BadgeRequirement_objects db) →
  Scoring.remaining_counts db active_badges vs = Some rc →
  let reqs := requirements_of db (map Badge.id active_badges) in
  ScoringQueryset.remaining_counts (pois_by_badge reqs)
    (claimed_counts_by_badge
       (elements (claimed_poi_badge_pairs (active_badges_map active_badges)
                    (pois_by_badge reqs) vs)))
  = rc.
Proof.
  intros Hnd Hrc reqs. unfold Scoring.remaining_counts in Hrc. fold reqs in Hrc.
  assert (NoDup (Dict.keys (pois_by_badge reqs))) as Hkeys
    by (apply (keys_foldl_append_NoDup fst snd), NoDup_nil_2).
  destruct (remaining_counts_loop_spec (active_badges_map active_badges) vs
              (pois_by_badge reqs) ∅ Hkeys) as (rc' & Hrc' & Hlook).
  { intros k Hk. by apply active_badges_map_is_Some, (pois_by_badge_keys db). }
  rewrite Hrc in Hrc'. injection Hrc' as <-.
  apply map_eq. intros bid. unfold ScoringQueryset.remaining_counts.
  rewrite queryset_remaining_lookup, Hlook by done.
  destruct (Dict.get bid (pois_by_badge reqs)) as [l|] eqn:Hl; [|done].
  destruct (active_badges_map active_badges !! bid) as [b|] eqn:Hb.
  2:{ destruct (active_badges_map_is_Some active_badges bid) as [b' Hb'];
        [|congruence].
      apply (pois_by_badge_keys db). apply list_elem_of_fmap. exists (bid, l).
      split; [done|]. by apply dict_get_Some_elem. }
  f_equal. f_equal. rewrite claimed_counts_lookup, claimed_count_filter.
  f_equal. apply (claimed_pairs_count _ _ _ _ b l); [done..|].
  apply dict_get_Some_elem, (elem_foldl_append fst snd) in Hl as [-> _].
  apply grouped_NoDup.
  unfold reqs, requirements_of. by apply NoDup_List_filter.
Qed.

Lemma foldl_conditional_append {R X} (f : R → Z) (g : R → X) (h : R → bool)
    rows (d0 : list (Z * list X)) :
  foldl (λ d r, if h r then Dict.append (f r) (g r) d else d) d0 rows
  = foldl (λ d r, Dict.append (f r) (g r) d) d0 (List.filter h rows).
Proof.
  revert d0. induction rows as [|r rows IH]; intros d0; simpl; [done|].
  rewrite IH. by destruct (h r).
Qed.

Lemma badges_by_poi_in_get (set : gset Z) reqs k :
  Dict.get k (badges_by_poi_in set reqs)
  = if bool_decide (k ∈ set) then Dict.get k (badges_by_poi reqs) else None.
Proof.
  unfold badges_by_poi_in, badges_by_poi.
  rewrite (foldl_conditional_append snd fst).
  rewrite !(get_foldl_append snd fst). simpl.
  case_bool_decide as Hk.
  - rewrite grouped_filter; [done|]. intros r <-. by apply bool_decide_eq_true.
  - assert (Dict.grouped snd fst k
              (List.filter (λ r : Z * Z, bool_decide (r.2 ∈ set)) reqs) = [])
      as ->; [|done].
    unfold Dict.grouped. induction reqs as [|r reqs IH]; simpl; [done|].
    destruct (bool_decide (r.2 ∈ set)) eqn:Hr; simpl; [|done].
    apply bool_decide_eq_true in Hr.
    rewrite bool_decide_false; [done|]. by intros <-.
Qed.

(** On the badges of a POI the two loop bodies add the same amounts. *)
Lemma queryset_score_loop db active_badges vs rc k bids s0 :
  let reqs := requirements_of db (map Badge.id active_badges) in
  let bm := active_badges_map active_badges in
  (∀ bid, bid ∈ bids → (bid, k) ∈ reqs) →
  score_loop bm rc (visits_of vs k) s0 bids
  = Some (foldl (ScoringQueryset.score_step
                   (claimed_poi_badge_pairs bm (pois_by_badge reqs) vs) rc k)
            s0 bids).
Proof.
  intros reqs bm. revert s0.
  induction bids as [|bid bids IH]; intros s0 Hreq; simpl; [done|].
  assert ((bid, k) ∈ reqs) as Hr by (apply Hreq; by left).
  assert (∃ b, bm !! bid = Some b) as [b Hb].
  { apply active_badges_map_is_Some. by apply requirements_of_elem in Hr as [_ ?]. }
  assert ((k, bid) ∈ claimed_poi_badge_pairs bm (pois_by_badge reqs) vs
          ↔ is_claimed b (visits_of vs k) = true) as Hpair.
  { rewrite claimed_pairs_elem. split.
    - intros (b' & Hb' & _ & Hc). congruence.
    - intros Hc. exists b. split; [done|]. split; [|done].
      unfold pois_by_badge. rewrite (get_foldl_append fst snd). simpl.
      assert (k ∈ Dict.grouped fst snd bid reqs) as Hin.
      { apply elem_of_grouped. by exists (bid, k). }
      by destruct (Dict.grouped fst snd bid reqs). }
  unfold Scoring.score_step at 1. rewrite Hb.
  unfold ScoringQueryset.score_step at 2.
  destruct (is_claimed b (visits_of vs k)) eqn:Hc.
  - rewrite bool_decide_true by (by apply Hpair).
    apply IH. intros; apply Hreq; by right.
  - rewrite bool_decide_false by (rewrite Hpair; congruence).
    destruct (0 <? default 0 (rc !! bid)); apply IH; intros; apply Hreq; by right.
Qed.

Lemma poi_scores_fold_lookup (h : Z → Q) (L : list Z) k :
  foldr (λ poi_id scores,
           if negb (Qle_bool (h poi_id) 0) then <[poi_id := h poi_id]> scores
           else scores) (∅ : gmap Z Q) L !! k
  = if bool_decide (k ∈ L) then
      if negb (Qle_bool (h k) 0) then Some (h k) else None
    else None.
Proof.
  induction L as [|p L IH]; simpl; [done|].
  destruct (decide (k = p)) as [->|Hne].
  - rewrite bool_decide_true by (by left).
    destruct (negb (Qle_bool (h p) 0)) eqn:Hpos.
    + by rewrite lookup_insert_eq.
    + rewrite IH. by case_bool_decide.
  - assert (bool_decide (k ∈ p :: L) = bool_decide (k ∈ L)) as ->.
    { apply bool_decide_ext. rewrite elem_of_cons.
      split; [by intros [?|?] | by right]. }
    destruct (negb (Qle_bool (h p) 0)); [|done].
    by rewrite lookup_insert_ne.
Qed.
End queryset_facts.

Section queryset_agreement.

Lemma queryset_scores_char (db : Database) (today : date)
    (poi_queryset : list PointOfInterest.t) (c c1 : gmap string ScoringCache.value)
    (visits_by_poi : gmap Z (list date)) (active_badges : list Badge.t) :
  NoDup (BadgeRequirement_objects db) →
  (∀ p, p ∈ poi_queryset → p ∈ PointOfInterest_objects db) →
  ScoringCache.get_scoring_data_cached db today c
    = Some (ScoringCache.ScoringData visits_by_poi active_badges, c1) →
  ∃ base scores c',
    Scoring.calculate_poi_scores db active_badges visits_by_poi = Some base ∧
    ScoringQueryset.calculate_scores_for_queryset db today poi_queryset c
      = Some (scores, c') ∧
    ∀ p s, p ∈ poi_queryset →
      (scores !! PointOfInterest.id p = Some s ↔
       ∃ item, item ∈ base ∧
         PointOfInterest.id (Scoring.poi item) = PointOfInterest.id p ∧
         Scoring.score item = s).
Proof.
  intros Hnd Hrows Hdata.
  destruct (calculate_poi_scores_spec db active_badges visits_by_poi)
    as (base & Hbase & _).
  destruct (calculate_poi_scores_elem db active_badges visits_by_poi base Hbase)
    as (rc & Hrc & Hchar).
  exists base.
  unfold ScoringQueryset.calculate_scores_for_queryset.
  destruct (map PointOfInterest.id poi_queryset) as [|i0 is0] eqn:Hids.
  { apply fmap_nil_inv in Hids as ->.
    eexists _, _. split; [done|]. split; [done|].
    intros p s Hp. by apply elem_of_nil in Hp. }
  rewrite <- Hids. clear Hids i0 is0. rewrite Hdata.
  destruct (decide (active_badges = [])) as [Hbs|Hbs].
  { subst active_badges.
    eexists _, _. split; [done|]. split; [done|].
    intros p s Hp. rewrite lookup_empty. split; [done|].
    intros (item & Hin & Hid & Hs).
    destruct (proj1 (Hchar (PointOfInterest.id p) s)) as (_ & bids & Hb & _).
    { by exists item. }
    assert (Scoring.requirements_of db [] = []) as Hnil.
    { clear. unfold Scoring.requirements_of.
      induction (BadgeRequirement_objects db) as [|r l IH]; [done|].
      cbn [List.filter]. rewrite bool_decide_false; [done|]. apply not_elem_of_nil. }
    change (map Badge.id []) with ([] : list Z) in Hb.
    by rewrite Hnil in Hb. }
  assert (∀ X (x y : X), match active_badges with [] => x | _ => y end = y) as Hm
    by (intros; by destruct active_badges).
  rewrite Hm. clear Hm.
  eexists _, _. split; [done|]. split; [done|].
  intros p s Hp. rewrite Hchar.
  unfold ScoringQueryset.poi_scores.
  rewrite (queryset_remaining_counts db active_badges visits_by_poi rc Hnd Hrc).
  set (reqs := Scoring.requirements_of db (map Badge.id active_badges)) in *.
  set (bm := Scoring.active_badges_map active_badges).
  set (pairs := ScoringQueryset.claimed_poi_badge_pairs bm
                  (Scoring.pois_by_badge reqs) visits_by_poi).
  set (set := list_to_set (map PointOfInterest.id poi_queryset) : gset Z).
  rewrite (poi_scores_fold_lookup
             (λ poi_id, foldl (ScoringQueryset.score_step pairs rc poi_id) 0%Q
                          (default [] (Dict.get poi_id
                             (ScoringQueryset.badges_by_poi_in set reqs))))).
  assert (PointOfInterest.id p ∈ set) as Hset.
  { unfold set. apply elem_of_list_to_set, list_elem_of_fmap. by exists p. }
  rewrite bool_decide_true by (by apply elem_of_elements).
  rewrite badges_by_poi_in_get, bool_decide_true by done.
  assert (PointOfInterest.id p ∈ map PointOfInterest.id (PointOfInterest_objects db))
    as Hrow.
  { apply list_elem_of_fmap. exists p. split; [done|]. by apply Hrows. }
  destruct (Dict.get (PointOfInterest.id p) (Scoring.badges_by_poi reqs))
    as [bids|] eqn:Hbids.
  - assert (Scoring.score_loop bm rc
              (Scoring.visits_of visits_by_poi (PointOfInterest.id p)) 0%Q bids
            = Some (foldl (ScoringQueryset.score_step pairs rc (PointOfInterest.id p))
                      0%Q bids)) as Hloop.
    { apply queryset_score_loop. intros bid Hbid.
      apply (badges_by_poi_elem reqs _ bids); [|done].
      by apply dict_get_Some_elem. }
    simpl. split.
    + destruct (Qle_bool _ 0) eqn:Hle; [done|]. simpl. intros [= <-].
      split; [done|]. by exists bids.
    + intros (_ & bids' & [= <-] & Hs & Hpos).
      rewrite Hloop in Hs. injection Hs as <-. by rewrite Hpos.
  - simpl. split; [done|]. by intros (_ & bids & ? & _).
Qed.
End queryset_agreement.

(** X3: the scores [calculate_scores_for_queryset] gives the POIs of a
    queryset are the scores the ranking engine gives them on the same
    scoring data: a POI of the queryset has an entry with score [s]
    exactly when the base list of [calculate_poi_scores] holds it with
    score [s].  The dictionary has entries for POIs of the queryset only,
    each with a score above 0. *)
Theorem queryset_scores_agree (db : Database) (today : date)
    (poi_queryset : list PointOfInterest.t) (c c1 : gmap string ScoringCache.value)
    (visits_by_poi : gmap Z (list date)) (active_badges : list Badge.t) :
  NoDup (BadgeRequirement_objects db) →
  (∀ p, p ∈ poi_queryset → p ∈ PointOfInterest_objects db) →
  ScoringCache.get_scoring_data_cached db today c
    = Some (ScoringCache.ScoringData visits_by_poi active_badges, c1) →
  ∃ base scores c',
    Scoring.calculate_poi_scores db active_badges visits_by_poi = Some base ∧
    ScoringQueryset.calculate_scores_for_queryset db today poi_queryset c
      = Some (scores, c') ∧
    (∀ p s, p ∈ poi_queryset →
       (scores !! PointOfInterest.id p = Some s ↔
        ∃ item, item ∈ base ∧
          PointOfInterest.id (Scoring.poi item) = PointOfInterest.id p ∧
          Scoring.score item = s)) ∧
    (∀ k s, scores !! k = Some s →
       k ∈ map PointOfInterest.id poi_queryset ∧ (0 < s)%Q).
Proof.
  intros Hnd Hrows Hdata.
  destruct (queryset_scores_char db today poi_queryset c c1 visits_by_poi
              active_badges Hnd Hrows Hdata)
    as (base & scores & c' & Hbase & Hscores & Hagree).
  exists base, scores, c'. split; [done|]. split; [done|]. split; [done|].
  intros k s. revert Hscores.
  unfold ScoringQueryset.calculate_scores_for_queryset.
  destruct (map PointOfInterest.id poi_queryset) as [|i0 is0] eqn:Hids.
  { intros [= <- <-] Hk. by rewrite lookup_empty in Hk. }
  rewrite <- Hids, Hdata. clear Hids i0 is0.
  destruct (decide (active_badges = [])) as [->|Hbs].
  { intros [= <- <-] Hk. by rewrite lookup_empty in Hk. }
  assert (∀ X (x y : X), match active_badges with [] => x | _ => y end = y) as Hm
    by (intros; by destruct active_badges).
  rewrite Hm. clear Hm. intros [= <- <-].
  unfold ScoringQueryset.poi_scores. cbv zeta.
  rewrite (poi_scores_fold_lookup
             (λ poi_id, foldl (ScoringQueryset.score_step _ _ poi_id) 0%Q
                          (default [] (Dict.get poi_id _)))).
  case_bool_decide as Hk; [|done].
  destruct (Qle_bool _ 0) eqn:Hle; [done|]. cbn [negb]. intros [= <-].
  split.
  - by apply elem_of_elements, elem_of_list_to_set in Hk.
  - apply Qnot_le_lt. intros H. apply Qle_bool_iff in H. congruence.
Qed.

(** One badge requiring two POIs, the first visited in its window: the
    queryset of both POIs scores only the second. *)
Lemma queryset_scores_agree_witness :
  let b := Badge.mk 7 (Some (mk_date 2023 1 1)) (Some (mk_date 2023 12 31)) false in
  let p1 := PointOfInterest.mk 1 "Kopa" None None in
  let p2 := PointOfInterest.mk 2 "Turnia" None None in
  let db := mk_db [(1, mk_date 2023 6 1)] [b] [(7, 1); (7, 2)] [p1; p2] in
  ∃ scores c',
    ScoringQueryset.calculate_scores_for_queryset db (mk_date 2023 7 1) [p1; p2] ∅
      = Some (scores, c') ∧
    scores !! 1 = None ∧ (∃ s, scores !! 2 = Some s ∧ (s == 100)%Q).
Proof.
  intros b p1 p2 db.
  assert (NoDup (BadgeRequirement_objects db)) as Hnd.
  { apply NoDup_ListNoDup. repeat (constructor; [simpl; intuition congruence|]).
    constructor. }
  destruct (queryset_scores_agree db (mk_date 2023 7 1) [p1; p2] ∅
              (<["scoring_data_v1" :=
                   ScoringCache.ScoringData (ScoringCache.visits_by_poi_of db)
                     (List.filter (ScoringCache.badge_is_active (mk_date 2023 7 1))
                        (Badge_objects db))]> ∅)
              (ScoringCache.visits_by_poi_of db)
              (List.filter (ScoringCache.badge_is_active (mk_date 2023 7 1))
                 (Badge_objects db)) Hnd)
    as (base & scores & c' & Hbase & Hscores & Hagree & _).
  { intros p Hp. exact Hp. }
  { unfold ScoringCache.get_scoring_data_cached. by rewrite lookup_empty. }
  exists scores, c'. split; [exact Hscores|].
  vm_compute in Hbase. injection Hbase as <-.
  split.
  - destruct (scores !! 1) as [s|] eqn:Hs; [|done].
    apply (Hagree p1 s) in Hs as (item & Hin & Hid & _); [|by left].
    apply list_elem_of_singleton in Hin as ->. done.
  - exists (100 # 1)%Q. split; [|reflexivity].
    apply (Hagree p2); [right; by left|].
    eexists. split; [by left|]. done.
Defined.

(** ** Reads after an invalidation *)

Section cache_fresh_facts.
Import Scoring ScoringCache Signals.

(** A computation of the dashboard on a cache holding neither scoring
    data nor the result asked for never raises and returns what it
    returns on the empty cache. *)
Lemma dashboard_miss_fresh db today (full : bool) (c : gmap string value) :
  c !! "scoring_data_v1" = None →
  c !! (if full then "dashboard_scores_full_v1" else "dashboard_scores_top_v1")
    = None →
  ∃ r c1 c2,
    calculate_all_dashboard_scores db today full c = Some (DashboardScores r, c1) ∧
    calculate_all_dashboard_scores db today full ∅ = Some (DashboardScores r, c2).
Proof.
  intros Hdata Hkey. unfold calculate_all_dashboard_scores.
  cbv zeta. rewrite Hkey, lookup_empty.
  unfold get_scoring_data_cached. cbv zeta. rewrite Hdata, lookup_empty.
  destruct (calculate_poi_scores_spec db
              (List.filter (badge_is_active today) (Badge_objects db))
              (visits_by_poi_of db)) as (base & -> & _).
  destruct (_aggregate_parent_scores_from_base base) as [ranking base'].
  by eexists _, _, _.
Qed.

Lemma single_poi_miss_fresh db today p (c : gmap string value) :
  c !! "scoring_data_v1" = None →
  c !! "dashboard_scores_full_v1" = None →
  c !! "full_poi_ranking_for_details" = None →
  ∃ s c1 c2,
    get_score_for_single_poi db today p c = Some (s, c1) ∧
    get_score_for_single_poi db today p ∅ = Some (s, c2).
Proof.
  intros Hdata Hfull Hkey. unfold get_score_for_single_poi.
  cbv zeta. rewrite Hkey, lookup_empty.
  destruct (dashboard_miss_fresh db today true c Hdata Hfull)
    as (r & c1 & c2 & -> & ->).
  by eexists _, _, _.
Qed.

Lemma handler_entries (h : gmap string value → gmap string value)
    (c : gmap string value) :
  h ∈ [invalidate_scoring_cache_on_visit_change;
       invalidate_scoring_cache_on_badge_change;
       invalidate_scoring_cache_on_requirement_change] →
  h c !! "scoring_data_v1" = None ∧
  h c !! "dashboard_scores_full_v1" = None ∧
  h c !! "dashboard_scores_top_v1" = None ∧
  h c !! "full_poi_ranking_for_details" = None.
Proof.
  intros Hh.
  repeat (apply elem_of_cons in Hh as [-> | Hh]);
    [| | | by apply elem_of_nil in Hh];
    repeat split;
    apply (handlers_delete_every_entry c); set_solver.
Qed.
End cache_fresh_facts.

(** X4: after the handler of a [Visit], [Badge] or [BadgeRequirement] change,
    whatever the cache held, the single-POI lookup and both dashboard
    computations do not raise and return what they return on an empty
    cache: every read is computed anew from the database. *)
Theorem handlers_refresh_every_read (db : Database) (today : date)
    (p : PointOfInterest.t) (c : gmap string ScoringCache.value) :
  Forall (λ h : gmap string ScoringCache.value → gmap string ScoringCache.value,
            (∃ s c1 c2,
               ScoringCache.get_score_for_single_poi db today p (h c) = Some (s, c1) ∧
               ScoringCache.get_score_for_single_poi db today p ∅ = Some (s, c2)) ∧
            (∀ get_full_lists, ∃ r c1 c2,
               ScoringCache.calculate_all_dashboard_scores db today get_full_lists (h c)
                 = Some (ScoringCache.DashboardScores r, c1) ∧
               ScoringCache.calculate_all_dashboard_scores db today get_full_lists ∅
                 = Some (ScoringCache.DashboardScores r, c2)))
    [Signals.invalidate_scoring_cache_on_visit_change;
     Signals.invalidate_scoring_cache_on_badge_change;
     Signals.invalidate_scoring_cache_on_requirement_change].
Proof.
  apply Forall_forall. intros h Hh.
  destruct (handler_entries h c Hh) as (Hdata & Hfull & Htop & Hkey).
  split.
  - by apply single_poi_miss_fresh.
  - intros full. apply dashboard_miss_fresh; [done|]. by destruct full.
Qed.

(** X5: after the manual [invalidate_scoring_cache], whatever the cache held,
    both dashboard computations do not raise and return what they return
    on an empty cache. *)
Theorem manual_invalidation_refreshes_dashboard (db : Database) (today : date)
    (get_full_lists : bool) (c : gmap string ScoringCache.value) :
  ∃ r c1 c2,
    ScoringCache.calculate_all_dashboard_scores db today get_full_lists
      (ScoringCache.invalidate_scoring_cache c)
    = Some (ScoringCache.DashboardScores r, c1) ∧
    ScoringCache.calculate_all_dashboard_scores db today get_full_lists ∅
    = Some (ScoringCache.DashboardScores r, c2).
Proof.
  destruct (manual_invalidation_entries c) as (Hdata & Hfull & Htop & _).
  apply dashboard_miss_fresh; [done|]. by destruct get_full_lists.
Qed.

(** X6: a dashboard computation that returned is repeated from the cache it
    left: the next call returns the same value and leaves the cache as it
    is, whatever the database and the date have become. *)
Theorem dashboard_scores_served_from_cache (db db' : Database) (today today' : date)
    (get_full_lists : bool) (c c1 : gmap string ScoringCache.value)
    (v : ScoringCache.value) :
  ScoringCache.calculate_all_dashboard_scores db today get_full_lists c = Some (v, c1) →
  ScoringCache.calculate_all_dashboard_scores db' today' get_full_lists c1
  = Some (v, c1).
Proof.
  unfold ScoringCache.calculate_all_dashboard_scores. cbv zeta.
  set (key := if get_full_lists then "dashboard_scores_full_v1"
              else "dashboard_scores_top_v1").
  destruct (c !! key) as [v0|] eqn:Hkey.
  { intros [= <- <-]. by rewrite Hkey. }
  destruct (ScoringCache.get_scoring_data_cached db today c) as [[[vs bs| |] c0]|];
    try done.
  destruct (Scoring.calculate_poi_scores db bs vs) as [base|]; [|done].
  destruct (Scoring._aggregate_parent_scores_from_base base) as [ranking base'].
  intros [= <- <-]. by rewrite lookup_insert_eq.
Qed.

(** A first read on the empty cache, then a visit and half a year: the
    second read returns the value of the first. *)
Lemma dashboard_scores_served_from_cache_witness :
  let b := Badge.mk 7 (Some (mk_date 2023 1 1)) (Some (mk_date 2023 12 31)) false in
  let p1 := PointOfInterest.mk 1 "Kopa" None None in
  let db := mk_db [] [b] [(7, 1)] [p1] in
  let db' := mk_db [(1, mk_date 2023 6 1)] [b] [(7, 1)] [p1] in
  ∃ v c1,
    ScoringCache.calculate_all_dashboard_scores db (mk_date 2023 7 1) false ∅
    = Some (v, c1) ∧
    ScoringCache.calculate_all_dashboard_scores db' (mk_date 2024 1 1) false c1
    = Some (v, c1).
Proof.
  intros b p1 db db'.
  destruct (dashboard_miss_fresh db (mk_date 2023 7 1) false ∅
              (lookup_empty _) (lookup_empty _)) as (r & c1 & _ & Hfirst & _).
  exists (ScoringCache.DashboardScores r), c1. split; [exact Hfirst|].
  exact (dashboard_scores_served_from_cache db db' (mk_date 2023 7 1)
           (mk_date 2024 1 1) false ∅ c1 _ Hfirst).
Defined.

(** ** The lookup in the cached ranking *)

Section single_poi_lookup_facts.
Import Scoring ScoringCache.

Lemma find_score_first full_ranking poi_id :
  score_in full_ranking poi_id (find_score full_ranking poi_id).
Proof.
  induction full_ranking as [|item rest IH]; simpl.
  - right. split; [|done]. intros x Hx. by apply elem_of_nil in Hx.
  - case_decide as Hid.
    + left. exists [], item, rest. split; [done|]. split; [done|].
      split; [|done]. intros x Hx. by apply elem_of_nil in Hx.
    + destruct IH as [(before & e & after & -> & He & Hbefore & Hs)|[Hnone Hs]].
      * left. exists (item :: before), e, after. split; [done|].
        split; [done|]. split; [|done].
        intros x Hx. apply elem_of_cons in Hx as [->|Hx]; [done | by apply Hbefore].
      * right. split; [|done].
        intros x Hx. apply elem_of_cons in Hx as [->|Hx]; [done | by apply Hnone].
Qed.
End single_poi_lookup_facts.

(** X7: a single-POI lookup that returned leaves the ranking it read under
    its own key and returns the score of the first entry of that ranking
    with the POI's id, 0 when there is none; every later lookup, for any
    POI, answers from that same ranking in the same way and leaves the
    cache as it is, whatever the database and the date have become. *)
Theorem single_poi_ranking_served_from_cache (db : Database) (today : date)
    (p : PointOfInterest.t) (c c1 : gmap string ScoringCache.value) (s : Q) :
  ScoringCache.get_score_for_single_poi db today p c = Some (s, c1) →
  ∃ full_ranking,
    c1 !! "full_poi_ranking_for_details" = Some (ScoringCache.Ranking full_ranking) ∧
    ScoringCache.score_in full_ranking (PointOfInterest.id p) s ∧
    ∀ db' today' p',
      ∃ s',
        ScoringCache.get_score_for_single_poi db' today' p' c1 = Some (s', c1) ∧
        ScoringCache.score_in full_ranking (PointOfInterest.id p') s'.
Proof.
  unfold ScoringCache.get_score_for_single_poi. cbv zeta.
  destruct (c !! "full_poi_ranking_for_details") as [[| |full_ranking]|] eqn:Hkey;
    try done.
  - intros [= <- <-]. exists full_ranking. split; [done|].
    split; [apply find_score_first|].
    intros db' today' p'. rewrite Hkey. eexists. split; [done|].
    apply find_score_first.
  - destruct (ScoringCache.calculate_all_dashboard_scores db today true c)
      as [[[|all_rankings|] c0]|]; try done.
    intros [= <- <-]. eexists. split; [by rewrite lookup_insert_eq|].
    split; [apply find_score_first|].
    intros db' today' p'. rewrite lookup_insert_eq. eexists. split; [done|].
    apply find_score_first.
Qed.

(** A first lookup on the empty cache, then a visit: the lookup of
    another POI answers from the ranking of the first lookup. *)
Lemma single_poi_ranking_served_from_cache_witness :
  let b := Badge.mk 7 (Some (mk_date 2023 1 1)) (Some (mk_date 2023 12 31)) false in
  let p1 := PointOfInterest.mk 1 "Kopa" None None in
  let p2 := PointOfInterest.mk 2 "Turnia" None None in
  let db := mk_db [] [b] [(7, 1); (7, 2)] [p1; p2] in
  let db' := mk_db [(1, mk_date 2023 6 1)] [b] [(7, 1); (7, 2)] [p1; p2] in
  ∃ s c1 full_ranking s',
    ScoringCache.get_score_for_single_poi db (mk_date 2023 7 1) p1 ∅ = Some (s, c1) ∧
    ScoringCache.score_in full_ranking 1 s ∧
    ScoringCache.get_score_for_single_poi db' (mk_date 2024 1 1) p2 c1 = Some (s', c1) ∧
    ScoringCache.score_in full_ranking 2 s'.
Proof.
  intros b p1 p2 db db'.
  destruct (single_poi_miss_fresh db (mk_date 2023 7 1) p1 ∅
              (lookup_empty _) (lookup_empty _) (lookup_empty _))
    as (s & c1 & _ & Hfirst & _).
  destruct (single_poi_ranking_served_from_cache db (mk_date 2023 7 1) p1 ∅ c1 s
              Hfirst) as (full_ranking & _ & Hs & Hnext).
  destruct (Hnext db' (mk_date 2024 1 1) p2) as (s' & Hsecond & Hs').
  exists s, c1, full_ranking, s'. done.
Defined.

(** X8: the short lists of the dashboard are prefixes of the full lists:
    when neither result is cached, a computation of the full lists
    followed by a computation of the short lists, on any later date,
    gives the first 10 entries of the POI ranking and the first 5 of the
    region ranking. *)
Theorem top_lists_are_prefixes (db : Database) (today today' : date)
    (c c1 : gmap string ScoringCache.value) (full : ScoringCache.results) :
  c !! "dashboard_scores_full_v1" = None →
  c !! "dashboard_scores_top_v1" = None →
  ScoringCache.calculate_all_dashboard_scores db today true c
    = Some (ScoringCache.DashboardScores full, c1) →
  ∃ top c2,
    ScoringCache.calculate_all_dashboard_scores db today' false c1
      = Some (ScoringCache.DashboardScores top, c2) ∧
    ScoringCache.top_pois top = take 10 <$> ScoringCache.poi_ranking full ∧
    ScoringCache.top_regions top = take 5 <$> ScoringCache.region_ranking full ∧
    is_Some (ScoringCache.poi_ranking full) ∧
    is_Some (ScoringCache.region_ranking full).
Proof.
  intros Hfull Htop.
  unfold ScoringCache.calculate_all_dashboard_scores. cbv zeta. rewrite Hfull.
  destruct (ScoringCache.get_scoring_data_cached db today c)
    as [[[vs bs| |] c0]|] eqn:Hdata; try done.
  assert (c0 !! "scoring_data_v1" = Some (ScoringCache.ScoringData vs bs) ∧
          c0 !! "dashboard_scores_top_v1" = None) as [Hdata0 Htop0].
  { unfold ScoringCache.get_scoring_data_cached in Hdata. cbv zeta in Hdata.
    destruct (c !! "scoring_data_v1") as [v|] eqn:Hv.
    - by injection Hdata as -> <-.
    - injection Hdata as <- <- <-.
      by rewrite lookup_insert_eq, lookup_insert_ne. }
  destruct (Scoring.calculate_poi_scores db bs vs) as [base|] eqn:Hbase; [|done].
  destruct (Scoring._aggregate_parent_scores_from_base base)
    as [ranking base'] eqn:Hagg.
  intros [= <- <-].
  rewrite lookup_insert_ne, Htop0 by done.
  unfold ScoringCache.get_scoring_data_cached. cbv zeta.
  rewrite lookup_insert_ne, Hdata0 by done.
  rewrite Hbase, Hagg.
  eexists _, _. split; [done|]. cbn. by repeat split.
Qed.

(** One POI required by one badge, read on the empty cache: the full
    lists in July, the short lists in August. *)
Lemma top_lists_are_prefixes_witness :
  let b := Badge.mk 7 (Some (mk_date 2023 1 1)) (Some (mk_date 2023 12 31)) false in
  let p1 := PointOfInterest.mk 1 "Kopa" None (Some "Tatry") in
  let db := mk_db [] [b] [(7, 1)] [p1] in
  ∃ full top c1 c2,
    ScoringCache.calculate_all_dashboard_scores db (mk_date 2023 7 1) true ∅
      = Some (ScoringCache.DashboardScores full, c1) ∧
    ScoringCache.calculate_all_dashboard_scores db (mk_date 2023 8 1) false c1
      = Some (ScoringCache.DashboardScores top, c2) ∧
    ScoringCache.top_pois top = take 10 <$> ScoringCache.poi_ranking full.
Proof.
  intros b p1 db.
  destruct (dashboard_miss_fresh db (mk_date 2023 7 1) true ∅
              (lookup_empty _) (lookup_empty _)) as (full & c1 & _ & Hfirst & _).
  destruct (top_lists_are_prefixes db (mk_date 2023 7 1) (mk_date 2023 8 1) ∅ c1 full
              (lookup_empty _) (lookup_empty _) Hfirst)
    as (top & c2 & Hsecond & Hpois & _).
  by exists full, top, c1, c2.
Defined.

(** X9: [cache_clear] without [--all] deletes the scoring data only: a
    dashboard result that is cached is still what the dashboard
    computation returns afterwards, whatever the database holds. *)
Theorem cache_clear_keeps_cached_dashboard (db : Database) (today : date)
    (get_full_lists : bool) (c : gmap string ScoringCache.value)
    (v : ScoringCache.value) :
  c !! (if get_full_lists then "dashboard_scores_full_v1"
        else "dashboard_scores_top_v1") = Some v →
  ScoringCache.calculate_all_dashboard_scores db today get_full_lists
    (CacheClear.handle false c)
  = Some (v, CacheClear.handle false c).
Proof.
  intros Hkey.
  unfold ScoringCache.calculate_all_dashboard_scores, CacheClear.handle. cbv zeta.
  rewrite lookup_delete_ne by (by destruct get_full_lists).
  by rewrite Hkey.
Qed.

(** A cache holding scoring data and a short-list result with no
    entries, while the database has a scored POI. *)
Lemma cache_clear_keeps_cached_dashboard_witness :
  let b := Badge.mk 7 (Some (mk_date 2023 1 1)) (Some (mk_date 2023 12 31)) false in
  let p1 := PointOfInterest.mk 1 "Kopa" None None in
  let db := mk_db [] [b] [(7, 1)] [p1] in
  let stale := ScoringCache.DashboardScores
                 (ScoringCache.mk_results None None (Some []) (Some [])) in
  let c : gmap string ScoringCache.value :=
    <["dashboard_scores_top_v1" := stale]>
      (<["scoring_data_v1" := ScoringCache.ScoringData ∅ []]> ∅) in
  ScoringCache.calculate_all_dashboard_scores db (mk_date 2023 7 1) false
    (CacheClear.handle false c)
  = Some (stale, CacheClear.handle false c).
Proof.
  intros b p1 db stale c.
  apply (cache_clear_keeps_cached_dashboard db (mk_date 2023 7 1) false c stale).
  unfold c. by rewrite lookup_insert_eq.
Defined.

(** ** The region ranking *)

Section region_facts.
Import Scoring Regions.

Lemma members_cons item l name :
  members (item :: l) name
  = if bool_decide (PointOfInterest.mesoregion (poi item) = Some name)
    then item :: members l name else members l name.
Proof. done. Qed.

(** The dictionary [mesoregion_scores] after the loop. *)
Lemma add_to_region_get (l : list ScoreItem) :
  ∀ (d : list (string * (Q * list ScoreItem))) (name : string),
    Dict.get name (foldl add_to_region d l)
    = let data := default (0%Q, []) (Dict.get name d) in
      match members l name with
      | [] => Dict.get name d
      | ms => Some (foldl Qplus data.1 (map score ms), data.2 ++ ms)
      end.
Proof.
  induction l as [|item l IH]; intros d name; [done|].
  cbn [foldl]. rewrite IH, members_cons. cbv zeta. unfold add_to_region.
  destruct (PointOfInterest.mesoregion (poi item)) as [n|] eqn:Hn.
  - destruct (decide (n = name)) as [->|Hne].
    + rewrite bool_decide_true by done. rewrite dict_get_set_eq.
      cbn [default from_option id fst snd map foldl].
      destruct (members l name) as [|m ms]; [done|].
      by rewrite <- app_assoc.
    + rewrite bool_decide_false by congruence.
      by rewrite dict_get_set_ne.
  - by rewrite bool_decide_false.
Qed.

Lemma add_to_region_NoDup (l : list ScoreItem) :
  ∀ d : list (string * (Q * list ScoreItem)),
    NoDup (Dict.keys d) → NoDup (Dict.keys (foldl add_to_region d l)).
Proof.
  induction l as [|item l IH]; intros d Hd; [done|].
  cbn [foldl]. apply IH. unfold add_to_region.
  destruct (PointOfInterest.mesoregion (poi item)); [|done].
  by apply dict_keys_set_NoDup.
Qed.

Lemma mesoregion_scores_elem base (name : string) (data : Q * list ScoreItem) :
  (name, data) ∈ foldl add_to_region [] base ↔
  members base name ≠ [] ∧
  data = (foldl Qplus 0%Q (map score (members base name)), members base name).
Proof.
  pose proof (add_to_region_NoDup base [] (NoDup_nil_2 : NoDup (Dict.keys []))) as Hnd.
  pose proof (add_to_region_get base [] name) as Hget. cbn in Hget.
  split.
  - intros Hin. apply (dict_elem_get _ _ _ Hnd) in Hin.
    rewrite Hin in Hget. destruct (members base name); [done|].
    split; [done|]. by injection Hget.
  - intros [Hne ->]. apply dict_get_Some_elem. rewrite Hget.
    by destruct (members base name).
Qed.

Lemma members_elem base name item :
  item ∈ members base name ↔
  item ∈ base ∧ PointOfInterest.mesoregion (poi item) = Some name.
Proof.
  unfold members. rewrite !list_elem_of_In, filter_In.
  by rewrite bool_decide_eq_true.
Qed.
End region_facts.

(** X10: the region ranking has one entry for each mesoregion that holds an
    entry of the list, and no other: the entry carries the sum of the
    scores of the members in list order, their number, and the first 5 of
    them by descending score; entries without a mesoregion count nowhere.
    The ranking is sorted descending by total score and lists no
    mesoregion twice. *)
Theorem region_ranking_spec (base : list Scoring.ScoreItem) :
  let ranking := Scoring._aggregate_mesoregion_scores_from_base base in
  StronglySorted (λ a b, Scoring.total_score b <= Scoring.total_score a)%Q ranking ∧
  NoDup (map Scoring.mesoregion_name ranking) ∧
  (∀ r, r ∈ ranking ↔
        ∃ name, Regions.members base name ≠ [] ∧
                r = Regions.entry_of name (Regions.members base name)) ∧
  (∀ r, r ∈ ranking →
        (length (Scoring.top_pois r) ≤ 5)%nat ∧
        (0 < Scoring.poi_count r)%nat ∧
        ∀ item, item ∈ Scoring.top_pois r →
                item ∈ base ∧
                PointOfInterest.mesoregion (Scoring.poi item)
                  = Some (Scoring.mesoregion_name r)).
Proof.
  intros ranking. subst ranking.
  unfold Scoring._aggregate_mesoregion_scores_from_base. cbv zeta.
  set (d := foldl Scoring.add_to_region [] base).
  set (f := λ nd : string * (Q * list Scoring.ScoreItem),
              Scoring.mk_region nd.1 nd.2.1 (length nd.2.2)
                (take 5 (sorted_desc Scoring.score nd.2.2))).
  assert (∀ r, r ∈ sorted_desc Scoring.total_score (map f d) ↔
               ∃ name, Regions.members base name ≠ [] ∧
                       r = Regions.entry_of name (Regions.members base name))
    as Hchar.
  { intros r. rewrite sorted_desc_Permutation, list_elem_of_fmap. split.
    - intros ([name data] & -> & Hin).
      apply mesoregion_scores_elem in Hin as [Hne ->]. by exists name.
    - intros (name & Hne & ->).
      exists (name, (foldl Qplus 0%Q (map Scoring.score (Regions.members base name)),
                     Regions.members base name)).
      split; [done|]. by apply mesoregion_scores_elem. }
  split; [apply sorted_desc_sorted|]. split; [|split; [exact Hchar|]].
  - rewrite sorted_desc_Permutation.
    replace (map Scoring.mesoregion_name (map f d)) with (Dict.keys d).
    + apply add_to_region_NoDup, NoDup_nil_2.
    + unfold Dict.keys. rewrite map_map. by apply map_ext.
  - intros r Hr. apply Hchar in Hr as (name & Hne & ->).
    unfold Regions.entry_of. cbn [Scoring.top_pois Scoring.poi_count
                                   Scoring.mesoregion_name].
    split; [rewrite length_take; lia|].
    split; [destruct (Regions.members base name); [done|simpl; lia]|].
    intros item Hin. apply elem_of_take in Hin as (i & Hi & _).
    apply list_elem_of_lookup_2 in Hi.
    rewrite sorted_desc_Permutation in Hi. by apply members_elem.
Qed.

(** ** The base list *)

Section base_list_shape.
Import Scoring.

Lemma results_list_NoDup (pm : gmap Z PointOfInterest.t) (ps : list (Z * Q)) :
  (∀ k p, pm !! k = Some p → PointOfInterest.id p = k) →
  NoDup (Dict.keys ps) →
  NoDup (map (λ item, PointOfInterest.id (poi item)) (results_list pm ps)).
Proof.
  intros Hpm. unfold Dict.keys.
  induction ps as [|[k s] ps IH]; cbn [results_list map fst]; [constructor|].
  intros Hnd. apply NoDup_cons in Hnd as [Hk Hnd].
  destruct (pm !! k) as [o|] eqn:Ho; [|by apply IH].
  cbn [map poi]. apply NoDup_cons. split; [|by apply IH].
  rewrite (Hpm k o Ho). intros Hin.
  apply list_elem_of_fmap in Hin as (item & -> & Hin).
  by apply (results_list_ids pm ps item Hpm) in Hin.
Qed.

Lemma calculate_poi_scores_shape db active_badges visits_by_poi base :
  calculate_poi_scores db active_badges visits_by_poi = Some base →
  NoDup (map (λ item, PointOfInterest.id (poi item)) base) ∧
  ∀ item, item ∈ base →
    badges item = [] ∧ aggregated_from item = None ∧
    poi item ∈ PointOfInterest_objects db.
Proof.
  unfold calculate_poi_scores.
  destruct (remaining_counts db active_badges visits_by_poi) as [rc|]; [|done].
  destruct (poi_scores_loop _ _ _ _ _) as [ps|] eqn:Hps; [|done].
  assert (NoDup (Dict.keys ps)) as Hnd.
  { eapply poi_scores_loop_NoDup; [|exact Hps]. apply NoDup_nil_2. }
  intros Hbase.
  assert (base = sorted_desc score
                   (results_list (scored_pois_map db (Dict.keys ps)) ps)) as ->
    by (destruct ps; by injection Hbase).
  split.
  - rewrite sorted_desc_Permutation. apply results_list_NoDup; [|done].
    apply scored_pois_map_id.
  - intros item Hin. rewrite sorted_desc_Permutation in Hin.
    apply results_list_elem in Hin as (k & s & o & _ & Ho & ->).
    repeat split. by apply scored_pois_map_elem in Ho.
Qed.

(** A badge adds at most 100 to the score of a POI. *)
Lemma score_step_upper bm rc visits s bid s' :
  score_step bm rc visits s bid = Some s' → (s' <= s + 100)%Q.
Proof.
  unfold score_step. destruct (bm !! bid) as [b|]; [|done].
  destruct (is_claimed b visits); [intros [= <-]; lra|].
  destruct (Z.ltb_spec 0 (default 0 (rc !! bid))) as [Hpos|_];
    [|intros [= <-]; lra].
  intros [= <-]. apply Qplus_le_r.
  assert (1 <= inject_Z (default 0%Z (rc !! bid)))%Q as Hone
    by (rewrite <- (Zle_Qle 1); lia).
  apply Qle_shift_div_r; lra.
Qed.

Lemma score_loop_upper bm rc visits bids s0 s :
  score_loop bm rc visits s0 bids = Some s →
  (s <= s0 + 100 * inject_Z (Z.of_nat (length bids)))%Q.
Proof.
  revert s0. induction bids as [|bid bids IH]; intros s0.
  - intros [= <-]. change (inject_Z (Z.of_nat (length []))) with 0%Q. lra.
  - cbn [score_loop].
    destruct (score_step bm rc visits s0 bid) as [s1|] eqn:Hs1; [|done].
    intros Hl. apply IH in Hl. apply score_step_upper in Hs1.
    cbn [length]. rewrite Nat2Z.inj_succ. unfold Z.succ.
    rewrite inject_Z_plus. change (inject_Z 1) with 1%Q. lra.
Qed.
End base_list_shape.

(** X11: [calculate_poi_scores] never raises.  The list it returns is sorted
    descending by score, holds no POI twice, and each entry is a row of
    the POI table with an empty [badges] list, no [aggregated_from] key
    and a score above 0 and at most 100 for each requirement of an active
    badge that names the POI. *)
Theorem base_list_spec (db : Database) (active_badges : list Badge.t)
    (visits_by_poi : gmap Z (list date)) :
  ∃ base,
    Scoring.calculate_poi_scores db active_badges visits_by_poi = Some base ∧
    StronglySorted (λ a b, Scoring.score b <= Scoring.score a)%Q base ∧
    NoDup (map (λ item, PointOfInterest.id (Scoring.poi item)) base) ∧
    ∀ item, item ∈ base →
      (0 < Scoring.score item)%Q ∧
      (Scoring.score item
       <= 100 * inject_Z (Z.of_nat (length
            (Dict.grouped snd fst (PointOfInterest.id (Scoring.poi item))
               (Scoring.requirements_of db (map Badge.id active_badges))))))%Q ∧
      Scoring.badges item = [] ∧
      Scoring.aggregated_from item = None ∧
      Scoring.poi item ∈ PointOfInterest_objects db.
Proof.
  destruct (calculate_poi_scores_spec db active_badges visits_by_poi)
    as (base & Hbase & _).
  exists base. split; [done|].
  destruct (calculate_poi_scores_shape _ _ _ _ Hbase) as [Hnd Hshape].
  destruct (calculate_poi_scores_elem _ _ _ _ Hbase) as (rc & _ & Hchar).
  split; [|split; [done|]].
  - revert Hbase. unfold Scoring.calculate_poi_scores.
    destruct (Scoring.remaining_counts db active_badges visits_by_poi); [|done].
    destruct (Scoring.poi_scores_loop _ _ _ _ _) as [[|kv ps]|]; [| |done].
    + intros [= <-]. constructor.
    + intros Hbase. injection Hbase as <-. apply sorted_desc_sorted.
  - intros item Hin.
    destruct (proj1 (Hchar (PointOfInterest.id (Scoring.poi item))
                       (Scoring.score item))) as (_ & bids & Hbids & Hloop & Hpos).
    { by exists item. }
    split; [|split; [|by apply Hshape]].
    + apply Qnot_le_lt. intros Hle. apply Qle_bool_iff in Hle. congruence.
    + apply score_loop_upper in Hloop. rewrite Qplus_0_l in Hloop.
      unfold Scoring.badges_by_poi in Hbids.
      rewrite (get_foldl_append snd fst) in Hbids. cbn in Hbids.
      destruct (Dict.grouped snd fst _ _) as [|x l] eqn:Hg; [done|].
      by injection Hbids as <-.
Qed.

(** ** The rollup only adds *)

Section rollup_monotone_facts.
Import Scoring Rollup.

Lemma raised_refl base :
  (∀ item, item ∈ base → (0 < score item)%Q) → raised base base.
Proof.
  intros Hpos. split.
  - apply Forall2_same_length_lookup_2; [done|].
    intros i b e Hb He. rewrite Hb in He. injection He as <-.
    repeat split. apply Qle_refl.
  - apply Forall_forall. intros e He. by apply Hpos.
Qed.

Lemma aggregate_child_raised dict base store child :
  raised base store → raised base (aggregate_child dict store child).
Proof.
  intros [Hrel Hpos]. unfold aggregate_child.
  destruct (Dict.get _ _) as [ci|]; [|done].
  destruct (parent_ref _ _) as [pi|]; [|done].
  destruct (store !! ci) as [x|] eqn:Hx; [|done].
  destruct (store !! pi) as [y|] eqn:Hy; [|done].
  assert (0 < score x)%Q as Hxpos.
  { eapply (proj1 (Forall_forall _ _) Hpos). by eapply list_elem_of_lookup_2. }
  assert (0 < score y)%Q as Hypos.
  { eapply (proj1 (Forall_forall _ _) Hpos). by eapply list_elem_of_lookup_2. }
  destruct (Forall2_lookup_r _ _ _ _ _ Hrel Hy) as (b & Hb & Hpoi & Hbadges & Hle).
  split.
  - rewrite <- (list_insert_id base pi b Hb).
    apply Forall2_insert; [done|]. cbn [poi badges score].
    repeat split; [done..|].
    apply Qle_trans with (score y); [done|].
    rewrite <- (Qplus_0_r (score y)) at 1.
    apply Qplus_le_r. by apply Qlt_le_weak.
  - apply Forall_insert; [done|]. cbn [score].
    rewrite <- (Qplus_0_r 0). apply Qplus_lt_le_compat; [done|].
    by apply Qlt_le_weak.
Qed.

Lemma foldl_aggregate_raised dict base children :
  ∀ store, raised base store →
           raised base (foldl (aggregate_child dict) store children).
Proof.
  induction children as [|c cs IH]; intros store Hr; [done|].
  cbn [foldl]. by apply IH, aggregate_child_raised.
Qed.
End rollup_monotone_facts.

(** X12: the parent rollup only adds: with distinct POI ids and scores above
    0, as [calculate_poi_scores] returns them, every entry of the ranking
    is an entry of the list with the same POI and [badges] and a score
    that is not lower, and the entries of the list are left, position by
    position, with scores that are not lower. *)
Theorem parent_rollup_never_lowers (base : list Scoring.ScoreItem) :
  NoDup (map (λ item, PointOfInterest.id (Scoring.poi item)) base) →
  (∀ item, item ∈ base → (0 < Scoring.score item)%Q) →
  let ranking := (Scoring._aggregate_parent_scores_from_base base).1 in
  let store := (Scoring._aggregate_parent_scores_from_base base).2 in
  ranking ≡ₚ store ∧
  Forall2 (λ b e, Scoring.poi e = Scoring.poi b ∧
                  Scoring.badges e = Scoring.badges b ∧
                  (Scoring.score b <= Scoring.score e)%Q) base store ∧
  ∀ entry, entry ∈ ranking →
    (0 < Scoring.score entry)%Q ∧
    ∃ item, item ∈ base ∧ Scoring.poi item = Scoring.poi entry ∧
            (Scoring.score item <= Scoring.score entry)%Q.
Proof.
  intros Hnd Hpos ranking store. subst ranking store.
  rewrite aggregate_parent_ranking by done. cbn [fst snd].
  set (store := foldl _ _ _).
  destruct (foldl_aggregate_raised (Scoring.scores_dict_of base) base
              (Scoring.children_of base) base (raised_refl base Hpos))
    as [Hrel Hstore].
  fold store in Hrel, Hstore.
  split; [apply sorted_desc_Permutation|]. split; [done|].
  intros entry Hin. rewrite sorted_desc_Permutation in Hin.
  split; [by apply (proj1 (Forall_forall _ _) Hstore)|].
  apply list_elem_of_lookup in Hin as [i Hi].
  destruct (Forall2_lookup_r _ _ _ _ _ Hrel Hi) as (b & Hb & Hpoi & _ & Hle).
  exists b. split; [by eapply list_elem_of_lookup_2|done].
Qed.

(** A scored child of a scored parent: the parent ends with both scores,
    the child keeps its own. *)
Lemma parent_rollup_never_lowers_witness :
  let item i n p s := Scoring.mk_item (PointOfInterest.mk i n p None) s [] None in
  let base := [item 2 "Kopa" (Some 1) 50%Q; item 1 "Masyw" None 10%Q] in
  (Scoring._aggregate_parent_scores_from_base base).2
  = [item 2 "Kopa" (Some 1) 50%Q;
     Scoring.mk_item (PointOfInterest.mk 1 "Masyw" None None) (10 + 50)%Q []
       (Some ["Kopa"])] ∧
  Forall2 (λ b e, Scoring.poi e = Scoring.poi b ∧
                  Scoring.badges e = Scoring.badges b ∧
                  (Scoring.score b <= Scoring.score e)%Q) base
    (Scoring._aggregate_parent_scores_from_base base).2.
Proof.
  intros item base. split; [reflexivity|].
  apply (parent_rollup_never_lowers base).
  - apply (NoDup_ListNoDup [2; 1]).
    repeat (constructor; [simpl; intuition lia|]). constructor.
  - intros it Hin.
    repeat (apply elem_of_cons in Hin as [-> | Hin]);
      try reflexivity; by apply elem_of_nil in Hin.
Defined.

(** ** The full lists of the dashboard *)

Section dashboard_facts.
Import Scoring Regions.


End dashboard_facts.



(** ** Rounding is monotone *)

Section round_order_facts.

Lemma round_le_floor_succ x : Py.round x ≤ Qfloor x + 1.
Proof.
  unfold Py.round. destruct (Qcompare _ _); [|lia..].
  destruct (Z.even _); lia.
Qed.

Lemma round_mono x y : (x <= y)%Q → Py.round x ≤ Py.round y.
Proof.
  intros Hxy. pose proof (Qfloor_resp_le x y Hxy) as Hfg.
  destruct (decide (Qfloor x = Qfloor y)) as [Heq|Hne].
  - unfold Py.round. rewrite <- Heq.
    destruct (Qcompare_spec (x - inject_Z (Qfloor x)) (1 # 2)) as [Hx|Hx|Hx];
      destruct (Qcompare_spec (y - inject_Z (Qfloor x)) (1 # 2)) as [Hy|Hy|Hy];
      try (destruct (Z.even (Qfloor x))); try lia; exfalso; lra.
  - pose proof (round_le_floor_succ x). pose proof (round_ge_floor y). lia.
Qed.
End round_order_facts.

(** ** The order of the segments *)

Section segment_order_facts.
Import Trip.

Lemma insert_by_sequence_sorted s l :
  StronglySorted (λ a b, sequence a < sequence b) l →
  sequence s ∉ map sequence l →
  StronglySorted (λ a b, sequence a < sequence b) (insert_by_sequence s l).
Proof.
  induction 1 as [|s' l Hl IH Hs']; intros Hnin; cbn [insert_by_sequence].
  - repeat constructor.
  - cbn [map] in Hnin. apply not_elem_of_cons in Hnin as [Hne Hnin].
    destruct (Z.leb_spec (sequence s) (sequence s')) as [Hle|Hgt].
    + constructor; [by constructor|].
      constructor; [lia|].
      eapply Forall_impl; [exact Hs'|]. intros z Hz. simpl in Hz. lia.
    + constructor; [by apply IH|].
      rewrite insert_by_sequence_Permutation. constructor; [lia|done].
Qed.

Lemma order_by_sequence_sorted l :
  NoDup (map sequence l) →
  StronglySorted (λ a b, sequence a < sequence b) (order_by_sequence l).
Proof.
  induction l as [|s l IH]; cbn [map order_by_sequence foldr]; [constructor|].
  intros Hnd. apply NoDup_cons in Hnd as [Hs Hnd].
  apply insert_by_sequence_sorted; [by apply IH|].
  fold (order_by_sequence l).
  by rewrite (order_by_sequence_Permutation l).
Qed.

(** With distinct sequence numbers the ordered segments do not depend on
    the order the rows come in. *)
Lemma order_by_sequence_unique l l' :
  NoDup (map sequence l) → l ≡ₚ l' →
  order_by_sequence l = order_by_sequence l'.
Proof.
  intros Hnd Hperm.
  apply (StronglySorted_unique_strong (λ a b, sequence a < sequence b)).
  - intros a b _ _ Hab Hba. lia.
  - by apply order_by_sequence_sorted.
  - apply order_by_sequence_sorted. by rewrite <- Hperm.
  - by rewrite !order_by_sequence_Permutation.
Qed.
End segment_order_facts.

(** X16: with distinct sequence numbers, as [unique_together] has them, the
    four fields [recalculate_trip_stats] writes do not depend on the
    order in which the segments are stored, nor on what the fields held
    before. *)
Theorem trip_stats_independent_of_storage_order (trip other : Trip.t) :
  NoDup (map Trip.sequence (Trip.gpx_paths trip)) →
  Trip.gpx_paths trip ≡ₚ Trip.gpx_paths other →
  let trip' := Trip.recalculate_trip_stats trip in
  let other' := Trip.recalculate_trip_stats other in
  Trip.total_distance_km trip' = Trip.total_distance_km other' ∧
  Trip.total_elevation_gain_m trip' = Trip.total_elevation_gain_m other' ∧
  Trip.got_points trip' = Trip.got_points other' ∧
  Trip.everest_diff_m trip' = Trip.everest_diff_m other'.
Proof.
  intros Hnd Hperm trip' other'. subst trip' other'.
  unfold Trip.recalculate_trip_stats.
  cbn [Trip.total_distance_km Trip.total_elevation_gain_m Trip.got_points
       Trip.everest_diff_m].
  by rewrite (order_by_sequence_unique _ _ Hnd Hperm).
Qed.

(** The two segments of a trip stored in either order. *)
Lemma trip_stats_independent_of_storage_order_witness :
  let path l := Some (map (λ e : Q, (20%Q, 49%Q, e)) l) in
  let first := Trip.mk_segment 1 None (path [100; 150; 120]%Q) (Some 1000%Q) in
  let second := Trip.mk_segment 2 None (path [200; 90; 300]%Q) (Some 2000%Q) in
  Trip.everest_diff_m (Trip.recalculate_trip_stats (Trip.mk [second; first] 0 0 0 0))
  = Trip.everest_diff_m (Trip.recalculate_trip_stats (Trip.mk [first; second] 9 9 9 9)).
Proof.
  intros path first second.
  apply (trip_stats_independent_of_storage_order
           (Trip.mk [second; first] 0 0 0 0) (Trip.mk [first; second] 9 9 9 9)).
  - apply (NoDup_ListNoDup [2; 1]).
    repeat (constructor; [simpl; intuition lia|]). constructor.
  - apply Permutation_swap.
Defined.

(** ** Upload and recalculation *)

(** X17: the statistics the parser returns for an upload are the ones
    [get_segment_stats] computes for a segment holding that file, a
    missing key standing for 0; the stored path plays no part. *)
Theorem parsed_stats_agree (f : Trip.upload) (segment : Trip.TripSegment)
    (points : list Trip.coord) (stats : Trip.parse_stats) :
  Trip.parse_gpx_to_linestring_and_stats f = inr (points, stats) →
  Trip.gpx_file segment = Some f →
  Trip.get_segment_stats segment
  = Trip.mk_stats (default 0%Q (Trip.parsed_distance_km stats))
      (default 0 (Trip.parsed_elevation_gain_m stats)).
Proof.
  intros Hparse Hfile. unfold Trip.get_segment_stats. rewrite Hfile.
  destruct f as [| | |gpx]; try done.
  unfold Trip.parse_gpx_to_linestring_and_stats in Hparse.
  destruct (length (Trip.collect_points gpx) <? 2)%nat; [done|].
  injection Hparse as _ <-. cbn [Trip.parsed_distance_km Trip.parsed_elevation_gain_m].
  by do 2 destruct (Trip.truthy _).
Qed.

(** A file of two points, 7.5 km long with 300 m of ascent. *)
Lemma parsed_stats_agree_witness :
  let gpx := Trip.mk_gpx [[[Trip.mk_point 20 49 (Some 900%Q);
                            Trip.mk_point 21 49 None]]] 7500 (300, 120)%Q in
  let segment := Trip.mk_segment 1 (Some (Trip.Parsed gpx)) None None in
  ∃ points stats,
    Trip.parse_gpx_to_linestring_and_stats (Trip.Parsed gpx) = inr (points, stats) ∧
    Trip.get_segment_stats segment
    = Trip.mk_stats (default 0%Q (Trip.parsed_distance_km stats))
        (default 0 (Trip.parsed_elevation_gain_m stats)) ∧
    Trip.elevation_gain_m (Trip.get_segment_stats segment) = 300.
Proof.
  intros gpx segment.
  eexists _, _. split; [reflexivity|]. split; [|reflexivity].
  eapply (parsed_stats_agree (Trip.Parsed gpx) segment); reflexivity.
Defined.

(** ** The status after more visits *)

Section status_visits_facts.
Import Status.

Lemma claimed_spec_mono (vs vs' : list date) (b : badge_data) :
  (∀ d, d ∈ vs → d ∈ vs') → claimed_spec vs b → claimed_spec vs' b.
Proof. intros Hsub (d & Hd & Hw). exists d. split; [by apply Hsub|done]. Qed.

Lemma claimed_count_full_mono (vs vs' : list date) (l : list badge_data) :
  (∀ d, d ∈ vs → d ∈ vs') →
  claimed_badges_count vs l = length l → claimed_badges_count vs' l = length l.
Proof.
  intros Hsub. rewrite !all_claimed_iff. intros Hall.
  eapply Forall_impl; [exact Hall|].
  intros b. by apply claimed_spec_mono.
Qed.
End status_visits_facts.

(** X18: more visits never lower a status: when every visit date of a POI is
    kept and others are added, [nieaktywny] stays [nieaktywny] and nothing
    else becomes [nieaktywny], [zdobyty] stays [zdobyty], and only a POI
    that was [niezdobyty] can be [niezdobyty]. *)
Theorem status_after_more_visits (today : date) (visit_dates later_dates : list date)
    (badges_data : list Status.badge_data) :
  (∀ d, d ∈ visit_dates → d ∈ later_dates) →
  let before := Status._determine_status today visit_dates badges_data in
  let after := Status._determine_status today later_dates badges_data in
  (before = Status.nieaktywny ↔ after = Status.nieaktywny) ∧
  (before = Status.zdobyty → after = Status.zdobyty) ∧
  (after = Status.niezdobyty → before = Status.niezdobyty).
Proof.
  intros Hsub before after. subst before after.
  unfold Status._determine_status.
  destruct badges_data as [|b0 bd0] eqn:Hbd; [done|]. rewrite <- Hbd. clear Hbd.
  destruct (List.filter (Status.is_active today) badges_data) as [|a0 l0] eqn:Hact;
    [done|].
  rewrite <- Hact. clear Hact. set (active := List.filter _ _).
  pose proof (claimed_count_full_mono visit_dates later_dates active Hsub) as Hmono.
  destruct (Nat.eqb_spec (Status.claimed_badges_count visit_dates active)
              (length active)) as [Hall|Hnot].
  - rewrite (Hmono Hall), Nat.eqb_refl. by repeat split.
  - destruct (Nat.eqb_spec (Status.claimed_badges_count later_dates active)
                (length active)) as [Hall'|Hnot'].
    + repeat split; try done; by destruct visit_dates.
    + destruct later_dates as [|d' later]; destruct visit_dates as [|d vs];
        repeat split; try done.
      specialize (Hsub d (ltac:(by left))). by apply elem_of_nil in Hsub.
Qed.

(** A POI required by one open badge of 2023: a visit in 2022 makes it
    [do_ponowienia], a further visit in 2023 makes it [zdobyty]. *)
Lemma status_after_more_visits_witness :
  let today := mk_date 2023 7 1 in
  let badges_data :=
    [Status.mk_badge_data false (Some (mk_date 2023 1 1)) (Some (mk_date 2023 12 31))] in
  let visit_dates := [mk_date 2022 5 1] in
  let later_dates := [mk_date 2022 5 1; mk_date 2023 6 1] in
  Status._determine_status today visit_dates badges_data = Status.do_ponowienia ∧
  Status._determine_status today later_dates badges_data = Status.zdobyty ∧
  (Status._determine_status today later_dates badges_data = Status.niezdobyty →
   Status._determine_status today visit_dates badges_data = Status.niezdobyty).
Proof.
  intros today badges_data visit_dates later_dates.
  split; [reflexivity|]. split; [reflexivity|].
  apply (status_after_more_visits today visit_dates later_dates badges_data).
  intros d Hd. apply list_elem_of_singleton in Hd as ->. by left.
Defined.

(** ** The score of the detail page and the score of the map *)

Section detail_score_facts.
Import Scoring ScoringCache.

Lemma find_score_present (l : list ScoreItem) (e : ScoreItem) :
  NoDup (map (λ item, PointOfInterest.id (poi item)) l) → e ∈ l →
  find_score l (PointOfInterest.id (poi e)) = score e.
Proof.
  induction l as [|x l IH]; cbn [map find_score]; intros Hnd Hin.
  { by apply elem_of_nil in Hin. }
  apply NoDup_cons in Hnd as [Hx Hnd].
  apply elem_of_cons in Hin as [->|Hin].
  - by rewrite decide_True.
  - rewrite decide_False; [by apply IH|].
    intros Heq. apply Hx. rewrite Heq. apply list_elem_of_fmap. by exists e.
Qed.

Lemma scores_dict_get_inv base (k : Z) (i : nat) :
  NoDup (map (λ item, PointOfInterest.id (poi item)) base) →
  Dict.get k (scores_dict_of base) = Some i →
  ∃ item, base !! i = Some item ∧ PointOfInterest.id (poi item) = k.
Proof.
  intros Hnd Hget. apply dict_get_Some_elem in Hget.
  rewrite scores_dict_of_NoDup in Hget by done.
  apply elem_of_lookup_imap in Hget as (j & item & [= -> ->] & Hj).
  by exists item.
Qed.

(** A child of another POI leaves the entry of this one alone. *)
Lemma aggregate_child_other base store child (i : nat) item :
  NoDup (map (λ item, PointOfInterest.id (poi item)) base) →
  base !! i = Some item →
  PointOfInterest.parent_id child ≠ Some (PointOfInterest.id (poi item)) →
  aggregate_child (scores_dict_of base) store child !! i = store !! i.
Proof.
  intros Hnd Hi Hne. unfold aggregate_child, parent_ref.
  destruct (Dict.get (PointOfInterest.id child) _) as [ci|]; [|done].
  destruct (PointOfInterest.parent_id child) as [pid|]; [|done].
  destruct (Dict.get pid _) as [pi|] eqn:Hpi; [|done].
  destruct (store !! ci) as [x|]; [|done].
  destruct (store !! pi) as [y|]; [|done].
  apply list_lookup_insert_ne. intros ->.
  apply scores_dict_get_inv in Hpi as (item' & Hi' & <-); [|done].
  rewrite Hi in Hi'. injection Hi' as <-. done.
Qed.

Lemma foldl_aggregate_other base children (i : nat) item :
  NoDup (map (λ item, PointOfInterest.id (poi item)) base) →
  base !! i = Some item →
  (∀ child, child ∈ children →
     PointOfInterest.parent_id child ≠ Some (PointOfInterest.id (poi item))) →
  ∀ store,
    foldl (aggregate_child (scores_dict_of base)) store children !! i = store !! i.
Proof.
  intros Hnd Hi. induction children as [|c cs IH]; intros Hcs store; [done|].
  cbn [foldl]. rewrite IH by (intros ? ?; apply Hcs; by right).
  apply (aggregate_child_other base store c i item); [done..|].
  apply Hcs. by left.
Qed.
End detail_score_facts.

(** X19: on a cold cache the score [get_score_for_single_poi] gives a POI is
    never below the score [calculate_scores_for_queryset] gives it: the
    first is read from the ranking after the parent rollup, the second is
    the base score.  For a POI that is the parent of no POI the two are
    the same number, 0 standing for a POI without an entry. *)
Theorem detail_score_ge_queryset_score (db : Database) (today : date)
    (p : PointOfInterest.t) (c : gmap string ScoringCache.value) :
  NoDup (BadgeRequirement_objects db) →
  p ∈ PointOfInterest_objects db →
  c !! "scoring_data_v1" = None →
  c !! "dashboard_scores_full_v1" = None →
  c !! "full_poi_ranking_for_details" = None →
  ∃ s c1 scores c2,
    ScoringCache.get_score_for_single_poi db today p c = Some (s, c1) ∧
    ScoringQueryset.calculate_scores_for_queryset db today [p] c
      = Some (scores, c2) ∧
    (default 0 (scores !! PointOfInterest.id p) <= s)%Q ∧
    ((∀ q, q ∈ PointOfInterest_objects db →
           PointOfInterest.parent_id q ≠ Some (PointOfInterest.id p)) →
     default 0%Q (scores !! PointOfInterest.id p) = s).
Proof.
  intros Hreqs Hp Hdata Hfull Hkey.
  set (vs := ScoringCache.visits_by_poi_of db).
  set (bs := List.filter (ScoringCache.badge_is_active today) (Badge_objects db)).
  assert (ScoringCache.get_scoring_data_cached db today c
          = Some (ScoringCache.ScoringData vs bs,
                  <["scoring_data_v1" := ScoringCache.ScoringData vs bs]> c))
    as Hread.
  { unfold ScoringCache.get_scoring_data_cached. cbv zeta. by rewrite Hdata. }
  assert (∀ p', p' ∈ [p] → p' ∈ PointOfInterest_objects db) as Hrows.
  { intros p' Hp'. by apply list_elem_of_singleton in Hp' as ->. }
  destruct (queryset_scores_char db today [p] c _ vs bs Hreqs Hrows Hread) as
    (base & scores & c2 & Hbase & Hscores & Hagree).
  destruct (calculate_poi_scores_shape _ _ _ _ Hbase) as [Hnd Hshape].
  assert (∀ item, item ∈ base → (0 < Scoring.score item)%Q) as Hpos.
  { destruct (calculate_poi_scores_elem _ _ _ _ Hbase) as (rc & _ & Hchar).
    intros item Hin.
    destruct (proj1 (Hchar (PointOfInterest.id (Scoring.poi item))
                       (Scoring.score item))) as (_ & bids & _ & _ & Hs).
    { by exists item. }
    apply Qnot_le_lt. intros Hle. apply Qle_bool_iff in Hle. congruence. }
  set (store := foldl (Scoring.aggregate_child (Scoring.scores_dict_of base)) base
                  (Scoring.children_of base)).
  set (ranking := sorted_desc Scoring.score store).
  assert (Scoring._aggregate_parent_scores_from_base base = (ranking, store)) as Hagg
    by (by apply aggregate_parent_ranking).
  exists (ScoringCache.find_score ranking (PointOfInterest.id p)).
  eexists. exists scores, c2.
  split.
  { unfold ScoringCache.get_score_for_single_poi. cbv zeta. rewrite Hkey.
    unfold ScoringCache.calculate_all_dashboard_scores. cbv zeta.
    rewrite Hfull, Hread. fold vs bs. rewrite Hbase, Hagg. done. }
  split; [exact Hscores|].
  destruct (foldl_aggregate_raised (Scoring.scores_dict_of base) base
              (Scoring.children_of base) base (raised_refl base Hpos))
    as [Hrel Hstore]. fold store in Hrel, Hstore.
  assert (NoDup (map (λ item, PointOfInterest.id (Scoring.poi item)) ranking))
    as Hndr.
  { assert (map (λ item, PointOfInterest.id (Scoring.poi item)) ranking
            ≡ₚ map (λ item, PointOfInterest.id (Scoring.poi item)) base) as ->;
      [|done].
    unfold ranking. rewrite sorted_desc_Permutation.
    change (map (λ item, PointOfInterest.id (Scoring.poi item)))
      with (fmap (M:=list) (PointOfInterest.id ∘ Scoring.poi)).
    rewrite !(list_fmap_compose Scoring.poi PointOfInterest.id).
    unfold store. by rewrite foldl_aggregate_pois. }
  specialize (Hagree p).
  destruct (decide (PointOfInterest.id p
                    ∈ map (λ item, PointOfInterest.id (Scoring.poi item)) base))
    as [Hin|Hnin].
  - apply list_elem_of_fmap in Hin as (item & Hid & Hin).
    apply list_elem_of_lookup in Hin as [i Hi].
    destruct (Forall2_lookup_l _ _ _ _ _ Hrel Hi) as (e & He & Hpoi & _ & Hle).
    assert (scores !! PointOfInterest.id p = Some (Scoring.score item)) as ->.
    { apply Hagree; [by left|]. exists item.
      split; [by eapply list_elem_of_lookup_2|]. by split. }
    assert (ScoringCache.find_score ranking (PointOfInterest.id p) = Scoring.score e)
      as ->.
    { rewrite Hid, <- Hpoi. apply find_score_present; [done|].
      unfold ranking. rewrite sorted_desc_Permutation.
      by eapply list_elem_of_lookup_2. }
    split; [done|]. intros Hchildless. cbn.
    assert (store !! i = Some item) as Hsame.
    { unfold store. rewrite (foldl_aggregate_other base _ i item); [done..|].
      intros child Hchild. rewrite <- Hid.
      apply Hchildless.
      unfold Scoring.children_of in Hchild.
      apply list_elem_of_In, filter_In in Hchild as [Hchild _].
      apply list_elem_of_In, list_elem_of_fmap in Hchild as (x & -> & Hx).
      by apply Hshape. }
    rewrite He in Hsame. by injection Hsame as ->.
  - assert (scores !! PointOfInterest.id p = None) as ->.
    { destruct (scores !! PointOfInterest.id p) as [q|] eqn:Hq; [|done].
      destruct (proj1 (Hagree q ltac:(by left)) eq_refl) as (item & Hin & Hid & _).
      destruct Hnin. apply list_elem_of_fmap. by exists item. }
    rewrite find_score_absent.
    + split; [apply Qle_refl | done].
    + intros Hin. apply Hnin.
      apply list_elem_of_fmap in Hin as (e & Hid & He).
      unfold ranking in He. rewrite sorted_desc_Permutation in He.
      apply list_elem_of_lookup in He as [i Hi].
      destruct (Forall2_lookup_r _ _ _ _ _ Hrel Hi) as (b & Hb & Hpoi & _).
      apply list_elem_of_fmap. exists b.
      split; [by rewrite Hid, Hpoi | by eapply list_elem_of_lookup_2].
Qed.

(** A parent and its child, both required by one badge and not visited,
    read on the empty cache. *)
Lemma detail_score_ge_queryset_score_witness :
  let b := Badge.mk 7 (Some (mk_date 2023 1 1)) (Some (mk_date 2023 12 31)) false in
  let p1 := PointOfInterest.mk 1 "Masyw" None None in
  let p2 := PointOfInterest.mk 2 "Kopa" (Some 1) None in
  let db := mk_db [] [b] [(7, 1); (7, 2)] [p1; p2] in
  ∃ s c1 scores c2,
    ScoringCache.get_score_for_single_poi db (mk_date 2023 7 1) p1 ∅ = Some (s, c1) ∧
    ScoringQueryset.calculate_scores_for_queryset db (mk_date 2023 7 1) [p1] ∅
      = Some (scores, c2) ∧
    (default 0 (scores !! 1%Z) <= s)%Q.
Proof.
  intros b p1 p2 db.
  assert (NoDup (BadgeRequirement_objects db)) as Hnd.
  { apply NoDup_ListNoDup. repeat (constructor; [simpl; intuition congruence|]).
    constructor. }
  destruct (detail_score_ge_queryset_score db (mk_date 2023 7 1) p1 ∅ Hnd)
    as (s & c1 & scores & c2 & Hs & Hscores & Hle & _);
    [by left | apply lookup_empty.. |].
  by exists s, c1, scores, c2.
Defined.

(** ** The scoring cache never makes a read raise *)

Section cache_run_facts.
Import Scoring ScoringCache CacheRun.

Lemma get_scoring_data_cached_total db today (c : gmap string value) :
  well_shaped c →
  ∃ vs bs c', get_scoring_data_cached db today c = Some (ScoringData vs bs, c').
Proof.
  intros (Hdata & _). unfold get_scoring_data_cached. cbv zeta.
  destruct (c !! "scoring_data_v1") as [v|] eqn:Hv.
  - destruct (Hdata v eq_refl) as (vs & bs & ->). by eexists _, _, _.
  - by eexists _, _, _.
Qed.

Lemma calculate_all_dashboard_scores_total db today full (c : gmap string value) :
  well_shaped c →
  ∃ r c', calculate_all_dashboard_scores db today full c
          = Some (DashboardScores r, c').
Proof.
  intros Hc. pose proof Hc as (_ & Hfull & Htop & _).
  unfold calculate_all_dashboard_scores. cbv zeta.
  destruct (c !! (if full then _ else _)) as [v|] eqn:Hv.
  - assert (∃ r, v = DashboardScores r) as (r & ->)
      by (destruct full; [by apply Hfull | by apply Htop]).
    by eexists _, _.
  - destruct (get_scoring_data_cached_total db today c Hc) as (vs & bs & c0 & ->).
    destruct (calculate_poi_scores_spec db bs vs) as (base & -> & _).
    destruct (_aggregate_parent_scores_from_base base) as [ranking base'].
    by eexists _, _.
Qed.

Lemma step_well_shaped (s : state) (o : operation) :
  well_shaped (the_cache s) →
  ∃ s', step s o = Some s' ∧ well_shaped (the_cache s').
Proof.
  intros Hc. destruct o as [|full|p|ps| | | | |all|key|db'|today']; cbn [step].
  - destruct (get_scoring_data_cached_total (database s) (today s) _ Hc)
      as (vs & bs & c' & Hread).
    rewrite Hread. eexists. split; [done|]. cbn.
    by eapply get_scoring_data_cached_well_shaped.
  - destruct (calculate_all_dashboard_scores_total (database s) (today s) full _ Hc)
      as (r & c' & Hread).
    rewrite Hread. eexists. split; [done|]. cbn.
    by eapply calculate_all_dashboard_scores_well_shaped.
  - pose proof Hc as (_ & _ & _ & Hkey).
    destruct (get_score_for_single_poi (database s) (today s) p (the_cache s))
      as [[q c']|] eqn:Hread.
    + eexists. split; [done|]. cbn.
      by eapply get_score_for_single_poi_well_shaped.
    + exfalso. revert Hread. unfold get_score_for_single_poi. cbv zeta.
      destruct (the_cache s !! "full_poi_ranking_for_details") as [v|] eqn:Hv.
      * by destruct (Hkey v eq_refl) as (l & ->).
      * by destruct (calculate_all_dashboard_scores_total (database s) (today s)
                       true _ Hc) as (r & c' & ->).
  - unfold ScoringQueryset.calculate_scores_for_queryset.
    destruct (map PointOfInterest.id ps) as [|i0 is0].
    { eexists. by split. }
    destruct (get_scoring_data_cached_total (database s) (today s) _ Hc)
      as (vs & bs & c' & Hread).
    rewrite Hread.
    apply (get_scoring_data_cached_well_shaped _ _ _ _ _ Hc) in Hread.
    destruct bs; eexists; by split.
  - eexists. split; [done|]. by apply invalidation_well_shaped.
  - eexists. split; [done|]. by apply invalidation_well_shaped.
  - eexists. split; [done|]. by apply invalidation_well_shaped.
  - eexists. split; [done|]. by apply invalidation_well_shaped.
  - eexists. split; [done|]. destruct all; cbn.
    + apply well_shaped_empty.
    + by apply well_shaped_delete.
  - eexists. split; [done|]. by apply well_shaped_delete.
  - eexists. by split.
  - eexists. by split.
Qed.

End cache_run_facts.

(** X20: starting from a cache whose entries have the shapes the services
    store, as the empty cache has, no sequence of reads, invalidations,
    [cache_clear] runs, timeouts and changes of the database or the date
    makes a read of the scoring services raise, and the entries keep
    those shapes. *)
Theorem scoring_cache_never_raises (operations : list CacheRun.operation) :
  ∀ s : CacheRun.state,
    ScoringCache.well_shaped (CacheRun.the_cache s) →
    ∃ s', CacheRun.run s operations = Some s' ∧
          ScoringCache.well_shaped (CacheRun.the_cache s').
Proof.
  induction operations as [|o rest IH]; intros s Hc; cbn [CacheRun.run].
  - by exists s.
  - destruct (step_well_shaped s o Hc) as (s1 & -> & Hc1). by apply IH.
Qed.

(** A read of a single POI, a visit saved, a dashboard read after the
    data has timed out, and [cache_clear]. *)
Lemma scoring_cache_never_raises_witness :
  let b := Badge.mk 7 (Some (mk_date 2023 1 1)) (Some (mk_date 2023 12 31)) false in
  let p1 := PointOfInterest.mk 1 "Kopa" None None in
  let db := mk_db [] [b] [(7, 1)] [p1] in
  let db' := mk_db [(1, mk_date 2023 6 1)] [b] [(7, 1)] [p1] in
  ∃ s', CacheRun.run (CacheRun.mk_state db (mk_date 2023 7 1) ∅)
          [CacheRun.Single_poi_score p1; CacheRun.Database_change db';
           CacheRun.Visit_change; CacheRun.Queryset_scores [p1];
           CacheRun.Entry_timed_out "scoring_data_v1";
           CacheRun.Dashboard_scores false; CacheRun.Cache_clear false;
           CacheRun.Single_poi_score p1]
        = Some s'.
Proof.
  intros b p1 db db'.
  destruct (scoring_cache_never_raises
              [CacheRun.Single_poi_score p1; CacheRun.Database_change db';
               CacheRun.Visit_change; CacheRun.Queryset_scores [p1];
               CacheRun.Entry_timed_out "scoring_data_v1";
               CacheRun.Dashboard_scores false; CacheRun.Cache_clear false;
               CacheRun.Single_poi_score p1]
              (CacheRun.mk_state db (mk_date 2023 7 1) ∅) well_shaped_empty)
    as (s' & Hrun & _).
  by exists s'.
Defined.

(** ** The elevation chart *)

Section chart_points.
Import Trip ElevationChart.

Lemma has_path_points segments :
  existsb has_path segments = false ↔ all_points_in_order segments = [].
Proof.
  unfold all_points_in_order, has_path.
  induction segments as [|s segments IH]; cbn [existsb map concat]; [done|].
  rewrite orb_false_iff, IH.
  destruct (gpx_path s) as [[|p l]|]; cbn; split; try tauto; try done;
    intros [? ?]; done.
Qed.
End chart_points.

Section chart_facts.
Import Trip ElevationChart.
Variable geodesic_meters : Q * Q → Q * Q → Q.
Variable color : TripSegment → string.

Abbreviation point_step := (ElevationChart.point_step geodesic_meters).
Abbreviation segment_step := (ElevationChart.segment_step geodesic_meters color).
Abbreviation shown := (λ p : coord, or_0 (elevation_of p)).

Lemma point_steps_spec (points : list coord) :
  ∀ (cum : Q) (prev : option coord) (sd : list (Q * Q)),
  ∃ cum' sd',
    foldl point_step (cum, prev, sd) points
    = (cum', from_option Some prev (last points), sd') ∧
    map snd sd' = map snd sd ++ map shown points.
Proof.
  induction points as [|p points IH]; intros cum prev sd.
  - exists cum, sd. split; [done|]. by rewrite app_nil_r.
  - cbn [foldl]. unfold ElevationChart.point_step at 2.
    match goal with
    | |- context [foldl _ (?c, Some p, ?s) points] =>
        destruct (IH c (Some p) s) as (cum' & sd' & Hfold & Hsd)
    end.
    exists cum', sd'. rewrite Hfold. split.
    + f_equal. f_equal. rewrite last_cons. by destruct (last points).
    + rewrite Hsd, map_app. cbn [map]. rewrite <- app_assoc. cbn.
      by destruct prev.
Qed.

Lemma new_elevations_snoc (ds : list dataset) (d : dataset) :
  new_elevations (ds ++ [d])
  = match ds with
    | [] => map snd (data d)
    | _ => new_elevations ds ++ tail (map snd (data d))
    end.
Proof.
  destruct ds as [|d0 ds]; cbn [new_elevations app map concat].
  - by rewrite app_nil_r.
  - rewrite map_app, concat_app. cbn [map concat].
    by rewrite app_nil_r, app_assoc.
Qed.

Lemma segment_step_chart seen st segment :
  chart_of seen st →
  chart_of (seen ++ default [] (gpx_path segment)) (segment_step st segment) ∧
  map (λ d, (label d, dataset_color d)) (segment_step st segment).2
  = map (λ d, (label d, dataset_color d)) st.2
    ++ (if has_path segment
        then [("Segment " +:+ pretty (sequence segment), color segment)]
        else []).
Proof.
  destruct st as [[cum prev] ds]. intros (Hprev & Hnil & Helev & Hlast & Hadj).
  cbn [fst snd] in *. unfold ElevationChart.segment_step, has_path.
  pose proof (conj Hprev (conj Hnil (conj Helev (conj Hlast Hadj)))) as Hst.
  destruct (gpx_path segment) as [[|p points]|];
    [cbn [default from_option id]; rewrite !app_nil_r; by split| |
     cbn [default from_option id]; rewrite !app_nil_r; by split].
  clear Hst.
  cbn [default from_option id].
  set (sd0 := match prev with
              | Some l => [(round3 (cum / 1000), or_0 l.2)]
              | None => []
              end).
  destruct (point_steps_spec (p :: points) cum prev sd0)
    as (cum' & sd' & Hfold & Hsd).
  rewrite Hfold. cbn [fst snd]. split; [|by rewrite map_app].
  unfold chart_of. cbn [fst snd].
  assert (last (seen ++ p :: points) = last (p :: points)) as Hlastapp.
  { rewrite last_app. by destruct (last (p :: points)) eqn:Hl;
      [|rewrite last_cons in Hl; destruct (last points)]. }
  assert (is_Some (last (p :: points))) as [q Hq].
  { rewrite last_cons. destruct (last points); by eexists. }
  split; [|split; [|split; [|split]]].
  - rewrite Hlastapp, Hq. done.
  - split; intros Habs.
    + by destruct ds.
    + by destruct seen.
  - rewrite new_elevations_snoc. cbn [data]. rewrite Hsd, map_app.
    destruct ds as [|d0 ds'] eqn:Hds.
    + assert (seen = []) as -> by (by apply Hnil).
      cbn in Hprev. subst prev. done.
    + rewrite <- Hds in *. rewrite Helev. f_equal.
      destruct prev as [l|]; [done|].
      symmetry in Hprev. apply last_None in Hprev.
      apply Hnil in Hprev. by rewrite Hds in Hprev.
  - rewrite last_snoc. cbn [mbind option_bind data].
    rewrite Hsd, Hlastapp, last_app.
    change (map shown (p :: points)) with (shown <$> (p :: points)).
    rewrite fmap_last, Hq. done.
  - intros i d d' Hd Hd'.
    destruct (decide (S i < length ds)%nat) as [Hlt|Hge].
    + rewrite lookup_app_l in Hd, Hd' by lia. by apply (Hadj i).
    + assert (S i = length ds) as Hi.
      { apply lookup_lt_Some in Hd'. rewrite length_app in Hd'. simpl in Hd'.
        lia. }
      rewrite lookup_app_l in Hd by lia.
      rewrite Hi, list_lookup_middle in Hd' by done. injection Hd' as <-.
      cbn [data]. rewrite Hsd.
      assert (last ds = Some d) as Hld.
      { rewrite last_lookup. replace (pred (length ds)) with i by lia. done. }
      rewrite Hld in Hlast. cbn in Hlast. rewrite Hlast.
      destruct prev as [l|].
      * rewrite <- Hprev. done.
      * symmetry in Hprev. apply last_None in Hprev. apply Hnil in Hprev.
        by rewrite Hprev in Hld.
Qed.

Lemma segment_steps_chart segments :
  ∀ seen st,
    chart_of seen st →
    chart_of (seen ++ all_points_in_order segments)
      (foldl segment_step st segments) ∧
    map (λ d, (label d, dataset_color d)) (foldl segment_step st segments).2
    = map (λ d, (label d, dataset_color d)) st.2
      ++ map (λ s, ("Segment " +:+ pretty (sequence s), color s))
           (List.filter has_path segments).
Proof.
  induction segments as [|s segments IH]; intros seen st Hst.
  - cbn. rewrite !app_nil_r. by split.
  - cbn [foldl]. destruct (segment_step_chart seen st s Hst) as [Hs Hlab].
    destruct (IH _ _ Hs) as [Hchart Hlabs]. split.
    + unfold all_points_in_order in *. cbn [map concat].
      by rewrite app_assoc.
    + rewrite Hlabs, Hlab, <- app_assoc. f_equal. cbn [List.filter].
      by destruct (has_path s).
Qed.



Lemma round3_mono x y : (x <= y)%Q → (round3 x <= round3 y)%Q.
Proof.
  intros Hxy. unfold round3. apply Qmult_le_compat_r; [|done].
  rewrite <- Zle_Qle. apply round_mono. lra.
Qed.

Lemma round3_nonneg x : (0 <= x)%Q → (0 <= round3 x)%Q.
Proof.
  intros Hx. unfold round3. apply Qle_shift_div_l; [done|].
  rewrite Qmult_0_l. rewrite <- (Zle_Qle 0). apply round_nonneg. lra.
Qed.

Lemma thousandth_le x y : (x <= y)%Q → (x / 1000 <= y / 1000)%Q.
Proof. intros Hxy. unfold Qdiv. by apply Qmult_le_compat_r. Qed.

Lemma thousandth_nonneg x : (0 <= x)%Q → (0 <= x / 1000)%Q.
Proof. intros Hx. apply Qle_shift_div_l; [done|]. lra. Qed.

Lemma ascending_snoc cum cum' prev (q : coord) written :
  ascending cum prev written → (cum <= cum')%Q →
  ascending cum' (Some q) (written ++ [round3 (cum' / 1000)]).
Proof.
  intros (Hcum & Hsorted & Hall & _) Hle.
  assert (round3 (cum / 1000) <= round3 (cum' / 1000))%Q as Hmono
    by (by apply round3_mono, thousandth_le).
  split; [lra|]. split; [|split].
  - apply StronglySorted_app_2; [|done|repeat constructor].
    intros x1 x2 Hx1 Hx2. apply list_elem_of_singleton in Hx2 as ->.
    apply Qle_trans with (round3 (cum / 1000)); [|done].
    by apply (proj1 (Forall_forall _ _) Hall).
  - apply Forall_app. split.
    + eapply Forall_impl; [exact Hall|]. intros x [Hx0 Hx]. split; [done|].
      by apply Qle_trans with (round3 (cum / 1000)).
    + constructor; [|constructor]. split; [|apply Qle_refl].
      apply round3_nonneg, thousandth_nonneg. lra.
  - done.
Qed.

Hypothesis geodesic_nonneg : ∀ loc1 loc2, (0 <= geodesic_meters loc1 loc2)%Q.

Lemma point_steps_ascending (points : list coord) :
  ∀ (cum : Q) (prev : option coord) (sd : list (Q * Q)) (before : list Q),
    ascending cum prev (before ++ map fst sd) →
    ∃ cum' prev' sd',
      foldl point_step (cum, prev, sd) points = (cum', prev', sd') ∧
      ascending cum' prev' (before ++ map fst sd').
Proof.
  induction points as [|p points IH]; intros cum prev sd before Hasc.
  - by exists cum, prev, sd.
  - cbn [foldl]. unfold ElevationChart.point_step at 2.
    match goal with
    | |- context [foldl _ (?c, Some p, ?s) points] =>
        apply (IH c (Some p) s before)
    end.
    rewrite map_app, app_assoc. cbn [map].
    destruct prev as [l|]; cbn [fst].
    + apply (ascending_snoc cum _ (Some l) p); [done|].
      pose proof (geodesic_nonneg (l.1.2, l.1.1) (p.1.2, p.1.1)). lra.
    + destruct Hasc as (Hcum & _ & _ & Hnil).
      rewrite (Hnil eq_refl). cbn [app].
      split; [done|]. split; [repeat constructor|]. split; [|done].
      constructor; [|constructor]. split; [apply Qle_refl|].
      by apply round3_nonneg, thousandth_nonneg.
Qed.

Lemma segment_steps_ascending segments :
  ∀ cum prev ds,
    ascending cum prev (distances ds) →
    ∃ cum' prev' ds',
      foldl segment_step (cum, prev, ds) segments = (cum', prev', ds') ∧
      ascending cum' prev' (distances ds').
Proof.
  induction segments as [|s segments IH]; intros cum prev ds Hasc.
  - by exists cum, prev, ds.
  - cbn [foldl]. unfold ElevationChart.segment_step at 2.
    destruct (gpx_path s) as [[|p points]|]; [by apply IH| |by apply IH].
    set (sd0 := match prev with
                | Some l => [(round3 (cum / 1000), or_0 l.2)]
                | None => []
                end).
    destruct (point_steps_ascending (p :: points) cum prev sd0 (distances ds))
      as (cum' & prev' & sd' & -> & Hasc').
    { unfold sd0. destruct prev as [l|]; cbn [map fst].
      - apply (ascending_snoc cum cum (Some l) l); [done|apply Qle_refl].
      - by rewrite app_nil_r. }
    apply IH. unfold distances in *.
    by rewrite map_app, concat_app, map_app; cbn [map concat data];
      rewrite app_nil_r.
Qed.
End chart_facts.

(** X21: the chart of a trip has no data exactly when the elevation profile of
    the trip is empty.  Otherwise it has one series for each segment with
    a stored path, in sequence order, carrying its label and colour; the
    elevations of the first series followed by those of each later series
    without its first point are, each read through [x or 0], the
    elevation profile the trip statistics are computed from; and every
    later series starts at the elevation the series before ended with. *)
Theorem elevation_chart_spec (geodesic_meters : Q * Q → Q * Q → Q)
    (color : Trip.TripSegment → string) (trip : Trip.t) :
  let chart := ElevationChart.get_elevation_profile_data geodesic_meters color trip in
  (chart = None ↔ Trip.elevation_profile trip = []) ∧
  ∀ datasets, chart = Some datasets →
    map (λ d, (ElevationChart.label d, ElevationChart.dataset_color d))
      datasets
    = map (λ s, ("Segment " +:+ pretty (Trip.sequence s), color s))
        (List.filter ElevationChart.has_path
           (Trip.order_by_sequence (Trip.gpx_paths trip))) ∧
    ElevationChart.new_elevations datasets
    = map ElevationChart.or_0 (Trip.elevation_profile trip) ∧
    ∀ i d d', datasets !! i = Some d → datasets !! S i = Some d' →
      head (map snd (ElevationChart.data d'))
      = last (map snd (ElevationChart.data d)).
Proof.
  intros chart. subst chart.
  unfold ElevationChart.get_elevation_profile_data, Trip.elevation_profile.
  cbv zeta. set (segments := Trip.order_by_sequence (Trip.gpx_paths trip)).
  pose proof (has_path_points segments) as Hnone.
  split.
  - destruct (existsb ElevationChart.has_path segments) eqn:Hany; cbn [negb].
    + split; [done|]. intros Hnil. apply fmap_nil_inv in Hnil.
      apply Hnone in Hnil. done.
    + split; [|done]. intros _. by rewrite (proj1 Hnone eq_refl).
  - intros datasets.
    destruct (existsb ElevationChart.has_path segments); [|done].
    cbn [negb]. intros [= <-].
    destruct (segment_steps_chart geodesic_meters color segments []
                (0%Q, None, [])) as [(_ & _ & Helev & _ & Hadj) Hlabels].
    { repeat split; done. }
    split; [exact Hlabels|]. split; [|exact Hadj].
    rewrite Helev. cbn [app]. by rewrite map_map.
Qed.

(** X22: when the geodesic distance is never negative, the distances of the
    chart, read series after series, never decrease, and none is
    negative. *)
Theorem elevation_chart_distances_ascend (geodesic_meters : Q * Q → Q * Q → Q)
    (color : Trip.TripSegment → string) (trip : Trip.t)
    (datasets : list ElevationChart.dataset) :
  (∀ loc1 loc2, (0 <= geodesic_meters loc1 loc2)%Q) →
  ElevationChart.get_elevation_profile_data geodesic_meters color trip
    = Some datasets →
  StronglySorted Qle (ElevationChart.distances datasets) ∧
  Forall (λ x, 0 <= x)%Q (ElevationChart.distances datasets).
Proof.
  intros Hgeo. unfold ElevationChart.get_elevation_profile_data. cbv zeta.
  destruct (existsb _ _); [|done]. cbn [negb]. intros [= <-].
  destruct (segment_steps_ascending geodesic_meters color Hgeo
              (Trip.order_by_sequence (Trip.gpx_paths trip)) 0%Q None [])
    as (cum' & prev' & ds' & -> & (_ & Hsorted & Hall & _)).
  { split; [done|]. split; [constructor|]. by split. }
  cbn [snd]. split; [done|].
  eapply Forall_impl; [exact Hall|]. by intros x [Hx _].
Qed.

(** Two segments stored out of order, every step 100 m long. *)
Lemma elevation_chart_distances_ascend_witness :
  let path l := Some (map (λ e : Q, (20%Q, 49%Q, e)) l) in
  let trip :=
    Trip.mk [Trip.mk_segment 2 None (path [200; 90]%Q) None;
             Trip.mk_segment 1 None (path [100; 150]%Q) None] 0 0 0 0 in
  let chart :=
    ElevationChart.get_elevation_profile_data (λ _ _, 100%Q) (λ _, "blue") trip in
  ∃ datasets, chart = Some datasets ∧
              Forall2 Qeq (ElevationChart.distances datasets)
                [0; 1 # 10; 1 # 10; 2 # 10; 3 # 10]%Q ∧
              StronglySorted Qle (ElevationChart.distances datasets).
Proof.
  intros path trip chart.
  destruct chart as [datasets|] eqn:Hchart; [|discriminate Hchart].
  exists datasets. split; [done|]. split.
  - vm_compute in Hchart. injection Hchart as <-. by repeat constructor.
  - apply (elevation_chart_distances_ascend (λ _ _, 100%Q) (λ _, "blue") trip
             datasets); [|exact Hchart].
    intros _ _. discriminate.
Defined.

(** * Properties of the computed numbers *)

(** ** Doubles *)

Section float_order_facts.

(** The order of the doubles that are not [nan], read off their sign,
    exponent and mantissa. *)
Let key (x : Float.float) : Z * Z * Z :=
  match x with
  | S754_infinity true => (-2, 0, 0)
  | S754_finite true m e => (-1, - e, Zneg m)
  | S754_zero _ | S754_nan => (0, 0, 0)
  | S754_finite false m e => (1, e, Zpos m)
  | S754_infinity false => (2, 0, 0)
  end.

Let lex_lt (a b : Z * Z * Z) : Prop :=
  a.1.1 < b.1.1 ∨ (a.1.1 = b.1.1 ∧ (a.1.2 < b.1.2 ∨ (a.1.2 = b.1.2 ∧ a.2 < b.2))).

Lemma ltb_key a b :
  Float.is_nan a = false → Float.is_nan b = false →
  Float.ltb a b = true ↔ lex_lt (key a) (key b).
Proof.
  unfold Float.ltb, SFltb, lex_lt.
  destruct a as [sa|sa| |sa ma ea], b as [sb|sb| |sb mb eb];
    try discriminate; intros _ _;
    try (destruct sa); try (destruct sb); cbn [SFcompare key fst snd];
    try (split; [discriminate | lia]); try (split; [lia | done]);
    try (split; [done | lia]).
  - change (Pos.compare_cont Eq ma mb) with (Pos.compare ma mb).
    destruct (Z.compare_spec ea eb) as [->|?|?];
      [destruct (Pos.compare_spec ma mb) as [->|?|?]| |]; cbn [CompOpp];
      split; try discriminate; try lia; done.
  - change (Pos.compare_cont Eq ma mb) with (Pos.compare ma mb).
    destruct (Z.compare_spec ea eb) as [->|?|?];
      [destruct (Pos.compare_spec ma mb) as [->|?|?]| |];
      split; try discriminate; try lia; done.
Qed.

Lemma ltb_trans a b c :
  Float.is_nan a = false → Float.is_nan b = false → Float.is_nan c = false →
  Float.ltb a b = true → Float.ltb b c = true → Float.ltb a c = true.
Proof.
  intros Ha Hb Hc. rewrite !ltb_key by done. unfold lex_lt. lia.
Qed.

Lemma not_ltb_trans a b c :
  Float.is_nan a = false → Float.is_nan b = false → Float.is_nan c = false →
  Float.ltb a b = false → Float.ltb b c = false → Float.ltb a c = false.
Proof.
  intros Ha Hb Hc. rewrite <- !not_true_iff_false, !ltb_key by done.
  unfold lex_lt. lia.
Qed.

Lemma max_cases a b : Float.max a b = a ∨ Float.max a b = b.
Proof. unfold Float.max. destruct (Float.ltb a b); auto. Qed.

Lemma min_cases a b : Float.min a b = a ∨ Float.min a b = b.
Proof. unfold Float.min. destruct (Float.ltb b a); auto. Qed.

Lemma max_not_nan a b :
  Float.is_nan a = false → Float.is_nan b = false →
  Float.is_nan (Float.max a b) = false.
Proof. intros Ha Hb. by destruct (max_cases a b) as [-> | ->]. Qed.

(** [max] picks the first of the greatest values, whatever the grouping. *)
Lemma max_assoc a b c :
  Float.is_nan a = false → Float.is_nan b = false → Float.is_nan c = false →
  Float.max (Float.max a b) c = Float.max a (Float.max b c).
Proof.
  intros Ha Hb Hc. unfold Float.max.
  destruct (Float.ltb a b) eqn:Hab, (Float.ltb b c) eqn:Hbc;
    rewrite ?Hab, ?Hbc; try done.
  - by rewrite (ltb_trans a b c).
  - by rewrite (not_ltb_trans a b c).
Qed.

Lemma foldl_max_assoc l : ∀ a b,
  Float.is_nan a = false → Float.is_nan b = false →
  Forall (λ c, Float.is_nan c = false) l →
  foldl Float.max (Float.max a b) l = Float.max a (foldl Float.max b l).
Proof.
  induction l as [|c l IH]; intros a b Ha Hb Hl; [done|].
  apply Forall_cons in Hl as [Hc Hl]. cbn [foldl].
  rewrite max_assoc by done. apply IH; [done| |done].
  by apply max_not_nan.
Qed.
End float_order_facts.

Section float_rounding_facts.

Lemma shr_1_nonneg mrs : 0 ≤ shr_m mrs → 0 ≤ shr_m (shr_1 mrs).
Proof.
  destruct mrs as [m r s]. cbn [shr_m]. intros Hm.
  destruct m as [|p|p]; [done| |lia]. by destruct p.
Qed.

Lemma iter_shr_1_nonneg p : ∀ mrs,
  0 ≤ shr_m mrs → 0 ≤ shr_m (iter_pos shr_1 p mrs).
Proof.
  induction p as [p IH|p IH|]; intros mrs Hm; cbn [iter_pos].
  - by apply IH, IH, shr_1_nonneg.
  - by apply IH, IH.
  - by apply shr_1_nonneg.
Qed.

Lemma shr_fexp_nonneg m e l :
  0 ≤ m → 0 ≤ shr_m (shr_fexp Float.prec Float.emax m e l).1.
Proof.
  intros Hm. unfold shr_fexp, shr.
  assert (0 ≤ shr_m (shr_record_of_loc m l)) as H0.
  { by destruct l as [|[]]. }
  destruct (_ - e) as [|p|p]; cbn [fst]; [done| |done].
  by apply iter_shr_1_nonneg.
Qed.

(** Rounding a mantissa that is not negative gives a zero, a finite
    double or an infinity of the sign asked for. *)
Lemma binary_round_aux_cases s m e l :
  0 ≤ m →
  let x := binary_round_aux Float.prec Float.emax s m e l in
  x = S754_zero s ∨ x = S754_infinity s ∨ ∃ m' e', x = S754_finite s m' e'.
Proof.
  intros Hm. unfold binary_round_aux.
  pose proof (shr_fexp_nonneg m e l Hm) as H1.
  destruct (shr_fexp Float.prec Float.emax m e l) as [mrs' e'].
  cbn [fst] in H1.
  set (m1 := round_nearest_even (shr_m mrs') (loc_of_shr_record mrs')).
  assert (0 ≤ m1) as Hm1.
  { unfold m1, round_nearest_even.
    destruct (loc_of_shr_record mrs') as [|[]]; try done; try lia.
    destruct (Z.even _); lia. }
  pose proof (shr_fexp_nonneg m1 e' loc_Exact Hm1) as H2.
  destruct (shr_fexp Float.prec Float.emax m1 e' loc_Exact) as [mrs'' e''].
  cbn [fst] in H2. cbv zeta.
  destruct (shr_m mrs'') as [|p|p]; [by left| |lia].
  destruct (e'' <=? _); [right; right; eauto | right; by left].
Qed.

Lemma binary_normalize_not_nan m e :
  Float.is_nan (binary_normalize Float.prec Float.emax m e false) = false.
Proof.
  unfold binary_normalize, binary_round.
  destruct m as [|p|p]; [done|..];
    destruct (shl_align _ _ _) as [mz ez];
    match goal with
    | |- context [binary_round_aux _ _ ?s ?m ?e ?l] =>
        destruct (binary_round_aux_cases s m e l) as [->|[->|(?&?&->)]]
    end; done.
Qed.

(** The difference of two finite doubles is not [nan]. *)
Lemma sub_not_nan a b :
  Float.is_finite a = true → Float.is_finite b = true →
  Float.is_nan (Float.sub a b) = false.
Proof.
  unfold Float.sub, SFsub.
  destruct a as [sa|sa| |sa ma ea], b as [sb|sb| |sb mb eb]; try discriminate;
    intros _ _; try done.
  - by destruct sa, sb.
  - apply binary_normalize_not_nan.
Qed.

(** The quotient of two positive integers is a double of positive sign,
    so adding it to [0.0] gives it back. *)
Lemma add_zero_of_ratio (k d : positive) :
  Float.add Float.zero (Float.of_ratio (Zpos k) d) = Float.of_ratio (Zpos k) d.
Proof.
  unfold Float.of_ratio, SFdiv.
  destruct (SFdiv_core_binary _ _ _ _ _ _) as [[mz ez] lz] eqn:Hcore.
  assert (0 ≤ mz) as Hmz.
  { unfold SFdiv_core_binary in Hcore.
    destruct (Z.div_eucl _ _) as [q r] eqn:Hdiv.
    injection Hcore as <- _ _.
    match type of Hdiv with Z.div_eucl ?a ?b = _ =>
      assert (0 ≤ a) as Ha; [|pose proof (Z.div_eucl_eq a b) as Heq;
        pose proof (Z.mod_pos_bound a b) as Hmod;
        unfold Z.modulo in Hmod; rewrite Hdiv in Heq, Hmod; nia]
    end.
    destruct (_ - _ - _) as [|s|s]; [done| |done].
    by apply Z.shiftl_nonneg. }
  cbn [xorb].
  by destruct (binary_round_aux_cases false mz ez lz Hmz) as [->|[->|(?&?&->)]].
Qed.
End float_rounding_facts.

(** ** The scoring engine on doubles *)

Section scoring64_facts.
Import Scoring Scoring64.

Lemma is_claimed_claimed_for visits_by_poi b poi_id :
  is_claimed b (visits_of visits_by_poi poi_id) = true
  ↔ claimed_for visits_by_poi b poi_id.
Proof.
  unfold is_claimed, visits_of, claimed_for.
  rewrite scoring_is_claimed_existsb.
  change (existsb _ ?l) with
    (Window.status_is_claimed (Badge.start_date b) (Badge.end_date b) l).
  rewrite status_is_claimed_spec.
  destruct (visits_by_poi !! poi_id) as [visit_dates|]; simpl.
  - split.
    + intros Hex. exists visit_dates. split; [done|]. by apply Exists_exists.
    + intros (l & [= <-] & Hl). by apply Exists_exists.
  - split.
    + intros (d & Hd & _). by apply elem_of_nil in Hd.
    + intros (l & Hl & _). done.
Qed.

Lemma length_filter_agree {X} (f : X → bool) (P : X → Prop)
    `{∀ x, Decision (P x)} (l : list X) :
  (∀ x, f x = true ↔ P x) →
  length (List.filter f l) = length (filter P l).
Proof.
  intros Hf. induction l as [|x l IH]; [done|].
  cbn [List.filter]. rewrite filter_cons.
  destruct (f x) eqn:Hx.
  - rewrite decide_True by (by apply Hf). simpl. by rewrite IH.
  - rewrite decide_False; [done|].
    intros HP. apply Hf in HP. congruence.
Qed.

(** The count of the engine is the count of the specification. *)
Lemma remaining_agree db visits_by_poi b :
  Scoring.remaining db visits_by_poi b = Scoring64.remaining db visits_by_poi b.
Proof.
  unfold Scoring.remaining, Scoring64.remaining, claimed_pois.
  rewrite (length_filter_agree _ (claimed_for visits_by_poi b)); [done|].
  intros poi_id. apply is_claimed_claimed_for.
Qed.

Lemma filter_id_nil (active_badges : list Badge.t) bid :
  bid ∉ map Badge.id active_badges →
  filter (λ b, Badge.id b = bid) active_badges = [].
Proof.
  induction active_badges as [|b l IH]; [done|].
  simpl. intros Hnin. apply not_elem_of_cons in Hnin as [Hne Hnin].
  rewrite filter_cons, decide_False by done. by apply IH.
Qed.

Lemma filter_id_singleton (active_badges : list Badge.t) b :
  NoDup (map Badge.id active_badges) → b ∈ active_badges →
  filter (λ b', Badge.id b' = Badge.id b) active_badges = [b].
Proof.
  induction active_badges as [|b0 l IH]; intros Hnd Hin.
  - by apply elem_of_nil in Hin.
  - simpl in Hnd. apply NoDup_cons in Hnd as [Hb0 Hnd].
    rewrite filter_cons. apply elem_of_cons in Hin as [->|Hin].
    + rewrite decide_True by done. f_equal. by apply filter_id_nil.
    + rewrite decide_False; [by apply IH|].
      intros Heq. apply Hb0. rewrite Heq. apply list_elem_of_fmap. by exists b.
Qed.

(** The loop over the badges of a POI adds the shares of the badges that
    require it, row after row. *)
Lemma score_loop_rows db active_badges visits_by_poi rc poi_id :
  NoDup (map Badge.id active_badges) →
  (∀ b, b ∈ active_badges → required_pois db (Badge.id b) ≠ [] →
        rc !! Badge.id b = Some (Scoring64.remaining db visits_by_poi b)) →
  ∀ rows score,
    (∀ req, req ∈ rows → req ∈ BadgeRequirement_objects db) →
    score_loop (active_badges_map active_badges) rc
      (visits_of visits_by_poi poi_id) score
      (Dict.grouped snd fst poi_id
         (List.filter (λ req, bool_decide (req.1 ∈ map Badge.id active_badges))
            rows))
    = Some (foldl (add_share db visits_by_poi poi_id) score
              (req ← rows;
               if decide (req.2 = poi_id)
               then filter (λ b, Badge.id b = req.1) active_badges
               else [])).
Proof.
  intros Hnd Hrc. unfold Dict.grouped.
  induction rows as [|[bid p] rows IH]; intros score Hrows; [done|].
  assert (∀ req, req ∈ rows → req ∈ BadgeRequirement_objects db) as Hrows'
    by (intros; apply Hrows; by right).
  cbn [List.filter mbind list_bind fst snd].
  destruct (decide (bid ∈ map Badge.id active_badges)) as [Hin|Hnin].
  - rewrite bool_decide_true by done.
    cbn [List.filter snd].
    destruct (decide (p = poi_id)) as [->|Hne].
    + rewrite bool_decide_true by done. cbn [map fst score_loop].
      apply list_elem_of_fmap in Hin as (b & -> & Hb).
      rewrite (filter_id_singleton active_badges b Hnd Hb).
      cbn [app foldl].
      unfold score_step. rewrite active_badges_map_lookup by done.
      assert (required_pois db (Badge.id b) ≠ []) as Hreq.
      { intros Hnil.
        assert (poi_id ∈ required_pois db (Badge.id b)) as Hp.
        { apply (elem_of_grouped fst snd). exists (Badge.id b, poi_id).
          split; [|done]. apply Hrows. by left. }
        rewrite Hnil in Hp. by apply elem_of_nil in Hp. }
      rewrite (Hrc b Hb Hreq). cbn [default from_option id].
      unfold add_share at 2.
      destruct (is_claimed b (visits_of visits_by_poi poi_id)) eqn:Hcl.
      * rewrite decide_True by (by apply is_claimed_claimed_for).
        by apply IH.
      * rewrite decide_False.
        2:{ intros Hc. apply is_claimed_claimed_for in Hc. congruence. }
        destruct (0 <? Scoring64.remaining db visits_by_poi b); by apply IH.
    + rewrite bool_decide_false by done. cbn [app]. by apply IH.
  - rewrite bool_decide_false by done.
    rewrite (filter_id_nil active_badges bid Hnin).
    destruct (decide (p = poi_id)); cbn [app]; by apply IH.
Qed.

Lemma score64_loop_total bm rc visits badge_ids s0 :
  (∀ bid, bid ∈ badge_ids → is_Some (bm !! bid)) →
  is_Some (score_loop bm rc visits s0 badge_ids).
Proof.
  revert s0. induction badge_ids as [|bid bids IH]; intros s0 Hbm; simpl.
  - eauto.
  - unfold score_step. destruct (Hbm bid) as [b ->]; [by left|].
    assert (∀ bid', bid' ∈ bids → is_Some (bm !! bid')) as Hbm'
      by (intros; apply Hbm; by right).
    destruct (is_claimed b visits); [by apply IH|].
    destruct (0 <? default 0 (rc !! bid)); by apply IH.
Qed.

Lemma poi_scores64_loop_total bm rc visits_by_poi items acc :
  (∀ p bids bid, (p, bids) ∈ items → bid ∈ bids → is_Some (bm !! bid)) →
  is_Some (poi_scores_loop bm rc visits_by_poi items acc).
Proof.
  revert acc. induction items as [|[p bids] items IH]; intros acc Hbm; simpl.
  - eauto.
  - destruct (score64_loop_total bm rc (visits_of visits_by_poi p) bids Float.zero)
      as [s ->].
    { intros bid Hbid. apply (Hbm p bids); [by left | done]. }
    apply IH. intros p' bids' bid Hin. apply (Hbm p' bids'). by right.
Qed.

Lemma poi_scores64_loop_get bm rc visits_by_poi items acc ps k :
  NoDup (Dict.keys items) →
  poi_scores_loop bm rc visits_by_poi items acc = Some ps →
  Dict.get k ps =
    match Dict.get k items with
    | Some bids =>
        match score_loop bm rc (visits_of visits_by_poi k) Float.zero bids with
        | Some s => if Float.ltb Float.zero s then Some s else Dict.get k acc
        | None => Dict.get k acc
        end
    | None => Dict.get k acc
    end.
Proof.
  revert acc. induction items as [|[p b0] items IH]; intros acc Hnd; simpl.
  - by intros [= <-].
  - unfold Dict.keys in Hnd. simpl in Hnd. apply NoDup_cons in Hnd as [Hp Hnd].
    destruct (score_loop bm rc (visits_of visits_by_poi p) Float.zero b0)
      as [s|] eqn:Hs; [|done].
    intros Hl. rewrite (IH _ Hnd Hl).
    destruct (decide (k = p)) as [->|Hne].
    + assert (Dict.get p items = None) as -> by (by apply dict_get_None).
      rewrite Hs. destruct (Float.ltb Float.zero s); [|done].
      apply dict_get_set_eq.
    + assert (Dict.get k (if Float.ltb Float.zero s then Dict.set p s acc else acc)
              = Dict.get k acc) as ->; [|done].
      destruct (Float.ltb Float.zero s); [|done]. by apply dict_get_set_ne.
Qed.

Lemma poi_scores64_loop_NoDup bm rc visits_by_poi items acc ps :
  NoDup (Dict.keys acc) →
  poi_scores_loop bm rc visits_by_poi items acc = Some ps →
  NoDup (Dict.keys ps).
Proof.
  revert acc. induction items as [|[p b0] items IH]; intros acc Hnd; simpl.
  - by intros [= <-].
  - destruct (score_loop _ _ _ _ _) as [s|]; [|done].
    apply IH. destruct (Float.ltb _ _); [|done]. by apply dict_keys_set_NoDup.
Qed.

Lemma results64_list_elem pm ps item :
  item ∈ results_list pm ps ↔
  ∃ k s o, (k, s) ∈ ps ∧ pm !! k = Some o ∧ item = mk_item o s [] None.
Proof.
  induction ps as [|[k s] ps IH]; simpl.
  - split; [intros H; by apply elem_of_nil in H|].
    intros (? & ? & ? & H & _). by apply elem_of_nil in H.
  - destruct (pm !! k) as [o|] eqn:Ho.
    + rewrite elem_of_cons, IH. split.
      * intros [->|(k' & s' & o' & Hin & Hpm & ->)].
        -- exists k, s, o. split; [by left|done].
        -- exists k', s', o'. split; [by right|done].
      * intros (k' & s' & o' & Hin & Hpm & ->).
        apply elem_of_cons in Hin as [[= -> ->]|Hin].
        -- left. congruence.
        -- right. eauto 7.
    + rewrite IH. split.
      * intros (k' & s' & o' & Hin & Hpm & ->).
        exists k', s', o'. split; [by right|done].
      * intros (k' & s' & o' & Hin & Hpm & ->).
        apply elem_of_cons in Hin as [[= -> ->]|Hin]; [congruence|eauto 7].
Qed.

Lemma insert_desc_float_Permutation {X} (key : X → Float.float) x l :
  insert_desc_float key x l ≡ₚ x :: l.
Proof.
  induction l as [|y l IH]; simpl; [done|].
  destruct (Float.ltb _ _); [|done].
  rewrite IH. apply Permutation_swap.
Qed.

Lemma sorted_desc_float_Permutation {X} (key : X → Float.float) l :
  sorted_desc_float key l ≡ₚ l.
Proof.
  induction l as [|x l IH]; simpl; [done|].
  by rewrite insert_desc_float_Permutation, IH.
Qed.

(** The badges of a POI in the dictionary of the engine are the ids of
    the badges that require it. *)
Lemma badges_by_poi_rows db active_badges poi_id :
  Dict.get poi_id
    (badges_by_poi (requirements_of db (map Badge.id active_badges)))
  = match Dict.grouped snd fst poi_id
            (requirements_of db (map Badge.id active_badges)) with
    | [] => None
    | bids => Some bids
    end.
Proof.
  unfold badges_by_poi. rewrite (get_foldl_append snd fst). simpl.
  by destruct (Dict.grouped _ _ _ _).
Qed.

(** The loop over the badges of a POI leaves its expected score. *)
Lemma score_loop_expected db active_badges visits_by_poi rc poi_id :
  NoDup (map Badge.id active_badges) →
  (∀ b, b ∈ active_badges → required_pois db (Badge.id b) ≠ [] →
        rc !! Badge.id b = Some (Scoring64.remaining db visits_by_poi b)) →
  score_loop (active_badges_map active_badges) rc
    (visits_of visits_by_poi poi_id) Float.zero
    (Dict.grouped snd fst poi_id
       (requirements_of db (map Badge.id active_badges)))
  = Some (expected_score db active_badges visits_by_poi poi_id).
Proof.
  intros Hnd Hrc.
  by apply (score_loop_rows db active_badges visits_by_poi rc poi_id Hnd Hrc
              (BadgeRequirement_objects db) Float.zero).
Qed.

(** [poi_scores] holds the POIs whose expected score is positive. *)
Lemma poi_scores_expected db active_badges visits_by_poi rc ps poi_id :
  NoDup (map Badge.id active_badges) →
  (∀ b, b ∈ active_badges → required_pois db (Badge.id b) ≠ [] →
        rc !! Badge.id b = Some (Scoring64.remaining db visits_by_poi b)) →
  poi_scores_loop (active_badges_map active_badges) rc visits_by_poi
    (badges_by_poi (requirements_of db (map Badge.id active_badges))) []
  = Some ps →
  Dict.get poi_id ps
  = if Float.ltb Float.zero
         (expected_score db active_badges visits_by_poi poi_id)
    then Some (expected_score db active_badges visits_by_poi poi_id)
    else None.
Proof.
  intros Hnd Hrc Hps.
  rewrite (poi_scores64_loop_get _ _ _ _ _ _ poi_id
             (keys_foldl_append_NoDup snd fst _ [] (NoDup_nil_2)) Hps).
  rewrite badges_by_poi_rows.
  pose proof (score_loop_expected db active_badges visits_by_poi rc poi_id
                Hnd Hrc) as Hloop.
  destruct (Dict.grouped snd fst poi_id _) as [|bid bids].
  - cbn [score_loop] in Hloop. injection Hloop as <-. done.
  - rewrite Hloop. by destruct (Float.ltb _ _).
Qed.

(** The base list holds a POI exactly when its row exists and its
    expected score is positive, and holds it with that score. *)
Lemma calculate_poi_scores64_elem db active_badges visits_by_poi :
  NoDup (map Badge.id active_badges) →
  ∃ base,
    Scoring64.calculate_poi_scores db active_badges visits_by_poi = Some base ∧
    (∀ item, item ∈ base → Scoring64.poi item ∈ PointOfInterest_objects db) ∧
    ∀ k s,
      (∃ item, item ∈ base ∧ PointOfInterest.id (Scoring64.poi item) = k ∧
               Scoring64.score item = s) ↔
      (k ∈ map PointOfInterest.id (PointOfInterest_objects db) ∧
       s = expected_score db active_badges visits_by_poi k ∧
       Float.ltb Float.zero s = true).
Proof.
  intros Hnd. unfold Scoring64.calculate_poi_scores.
  destruct (remaining_counts_total db active_badges visits_by_poi)
    as (rc & -> & Hlook).
  assert (∀ b, b ∈ active_badges → required_pois db (Badge.id b) ≠ [] →
            rc !! Badge.id b = Some (Scoring64.remaining db visits_by_poi b))
    as Hrc.
  { intros b Hb Hreq. rewrite <- remaining_agree. by apply Hlook. }
  set (reqs := requirements_of db (map Badge.id active_badges)).
  set (bm := active_badges_map active_badges).
  destruct (poi_scores64_loop_total bm rc visits_by_poi (badges_by_poi reqs) [])
    as [ps Hps].
  { intros p bids bid Hin Hbid. apply active_badges_map_is_Some.
    pose proof (badges_by_poi_elem reqs p bids bid Hin Hbid) as Hreq.
    by apply requirements_of_elem in Hreq as [_ ?]. }
  rewrite Hps.
  pose proof (poi_scores64_loop_NoDup _ _ _ _ [] _ (NoDup_nil_2) Hps) as Hndps.
  assert (∀ k s, (k, s) ∈ ps ↔
            s = expected_score db active_badges visits_by_poi k ∧
            Float.ltb Float.zero s = true) as Hchar.
  { intros k s.
    pose proof (poi_scores_expected db active_badges visits_by_poi rc ps k
                  Hnd Hrc Hps) as Hget.
    split.
    - intros Hin. apply dict_elem_get in Hin; [|done].
      rewrite Hget in Hin.
      destruct (Float.ltb _ _) eqn:Hpos; [|done].
      injection Hin as <-. done.
    - intros [-> Hpos]. apply dict_get_Some_elem. by rewrite Hget, Hpos. }
  set (base := results_list (scored_pois_map db (Dict.keys ps)) ps).
  assert (∀ item, item ∈ base →
            Scoring64.poi item ∈ PointOfInterest_objects db) as Hrows.
  { intros item Hin. apply results64_list_elem in Hin
      as (k & s & o & _ & Ho & ->). simpl.
    by apply scored_pois_map_elem in Ho. }
  assert (∀ k s,
            (∃ item, item ∈ base ∧ PointOfInterest.id (Scoring64.poi item) = k ∧
                     Scoring64.score item = s) ↔
            (k ∈ map PointOfInterest.id (PointOfInterest_objects db) ∧
             s = expected_score db active_badges visits_by_poi k ∧
             Float.ltb Float.zero s = true)) as Helem.
  { intros k s. split.
    - intros (item & Hin & <- & <-).
      apply results64_list_elem in Hin as (k' & s' & o & Hin & Ho & ->). simpl.
      pose proof (scored_pois_map_id _ _ _ _ Ho) as Hid. rewrite Hid.
      split; [|by apply Hchar].
      apply scored_pois_map_elem in Ho.
      apply list_elem_of_fmap. by exists o.
    - intros (Hrow & Hex). apply Hchar in Hex.
      destruct (scored_pois_map_is_Some db (Dict.keys ps) k) as [o Ho]; [|done|].
      { apply list_elem_of_fmap. by exists (k, s). }
      exists (mk_item o s [] None). split; [|split; [|done]].
      + apply results64_list_elem. eauto 7.
      + simpl. by eapply scored_pois_map_id. }
  destruct ps as [|kv ps'] eqn:Heq.
  - exists []. split; [done|]. split; [|exact Helem].
    intros item Hin. by apply elem_of_nil in Hin.
  - rewrite <- Heq in *. eexists. split; [done|]. split.
    + intros item Hin. rewrite sorted_desc_float_Permutation in Hin.
      by apply Hrows.
    + intros k s. rewrite <- Helem. split.
      * intros (item & Hin & Hk). exists item. split; [|done].
        by rewrite sorted_desc_float_Permutation in Hin.
      * intros (item & Hin & Hk). exists item. split; [|done].
        by rewrite sorted_desc_float_Permutation.
Qed.
End scoring64_facts.

Section share_facts.
Import Scoring Scoring64.

Lemma add_share_unclaimed db visits_by_poi poi_id score b :
  ¬ claimed_for visits_by_poi b poi_id →
  0 < Scoring64.remaining db visits_by_poi b →
  add_share db visits_by_poi poi_id score b
  = Float.add score
      (Float.of_ratio 100 (Z.to_pos (Scoring64.remaining db visits_by_poi b))).
Proof.
  intros Hcl Hpos. unfold add_share.
  rewrite decide_False by done.
  by rewrite (proj2 (Z.ltb_lt _ _) Hpos).
Qed.

Lemma badges_requiring_elem db active_badges b poi_id :
  b ∈ active_badges → poi_id ∈ required_pois db (Badge.id b) →
  b ∈ badges_requiring db active_badges poi_id.
Proof.
  intros Hb Hreq.
  apply (elem_of_grouped fst snd) in Hreq as (req & Hin & Hid & Hp).
  unfold badges_requiring. apply list_elem_of_bind. exists req.
  split; [|done]. rewrite decide_True by done.
  apply list_elem_of_filter. by split.
Qed.

Lemma remaining_nothing_claimed db visits_by_poi b :
  (∀ poi_id, poi_id ∈ required_pois db (Badge.id b) →
             ¬ claimed_for visits_by_poi b poi_id) →
  Scoring64.remaining db visits_by_poi b
  = Z.of_nat (length (required_pois db (Badge.id b))).
Proof.
  intros Hnone. unfold Scoring64.remaining.
  assert (filter (claimed_for visits_by_poi b) (required_pois db (Badge.id b)) = [])
    as ->; [|simpl; lia].
  induction (required_pois db (Badge.id b)) as [|p l IH]; [done|].
  rewrite filter_cons, decide_False by (apply Hnone; by left).
  apply IH. intros q Hq. apply Hnone. by right.
Qed.
End share_facts.

(** C4 (as the code has it): the share a POI receives from a badge, in
    the double arithmetic of the engine.  With
    [remaining(b) = total required POIs of b - claimed POIs of b], the
    score [calculate_poi_scores] gives a POI is the sum, taken in the
    order of the requirement rows, of what each active badge requiring
    it adds: nothing when the POI is claimed for the badge or no POI of
    it remains, otherwise the double nearest to [100 / remaining(b)];
    the list holds exactly the POIs with a row and a positive sum.  For
    a badge with nothing claimed and [n] required POIs, a POI required
    by that badge alone receives the double nearest to [100 / n]; for
    [n = 5] each share is exactly 20 and the five shares sum to exactly
    100. *)
Theorem scoring_share (db : Database) (active_badges : list Badge.t)
    (visits_by_poi : gmap Z (list date)) :
  NoDup (map Badge.id active_badges) →
  let expected := Scoring64.expected_score db active_badges visits_by_poi in
  let remaining := Scoring64.remaining db visits_by_poi in
  ∃ base,
    Scoring64.calculate_poi_scores db active_badges visits_by_poi = Some base ∧
    (∀ item, item ∈ base →
       Scoring64.poi item ∈ PointOfInterest_objects db ∧
       Scoring64.score item = expected (PointOfInterest.id (Scoring64.poi item)) ∧
       Float.ltb Float.zero (Scoring64.score item) = true) ∧
    (∀ p, p ∈ PointOfInterest_objects db →
       Float.ltb Float.zero (expected (PointOfInterest.id p)) = true →
       ∃ item, item ∈ base ∧
         PointOfInterest.id (Scoring64.poi item) = PointOfInterest.id p ∧
         Scoring64.score item = expected (PointOfInterest.id p)) ∧
    (∀ b poi_id,
       b ∈ active_badges → poi_id ∈ Scoring.required_pois db (Badge.id b) →
       b ∈ Scoring64.badges_requiring db active_badges poi_id ∧
       (¬ Scoring64.claimed_for visits_by_poi b poi_id → 0 < remaining b →
        ∀ score,
          Scoring64.add_share db visits_by_poi poi_id score b
          = Float.add score (Float.of_ratio 100 (Z.to_pos (remaining b))))) ∧
    (∀ b,
       b ∈ active_badges →
       Scoring.required_pois db (Badge.id b) ≠ [] →
       (∀ poi_id, poi_id ∈ Scoring.required_pois db (Badge.id b) →
                  ¬ Scoring64.claimed_for visits_by_poi b poi_id) →
       let n := length (Scoring.required_pois db (Badge.id b)) in
       remaining b = Z.of_nat n ∧
       (∀ poi_id,
          Scoring64.badges_requiring db active_badges poi_id = [b] →
          expected poi_id = Float.of_ratio 100 (Pos.of_nat n)) ∧
       (n = 5%nat →
        (∀ poi_id, poi_id ∈ Scoring.required_pois db (Badge.id b) →
           Scoring64.add_share db visits_by_poi poi_id Float.zero b
           = Float.of_int 20) ∧
        Scoring64.total_contribution db visits_by_poi b = Float.of_int 100)).
Proof.
  intros Hnd expected remaining.
  destruct (calculate_poi_scores64_elem db active_badges visits_by_poi Hnd)
    as (base & Hbase & Hrows & Helem).
  exists base. split; [done|]. split; [|split; [|split]].
  - intros item Hin. split; [by apply Hrows|].
    destruct (proj1 (Helem (PointOfInterest.id (Scoring64.poi item))
                       (Scoring64.score item))) as (_ & Hs & Hpos); [|done].
    by exists item.
  - intros p Hp Hpos.
    destruct (proj2 (Helem (PointOfInterest.id p) (expected (PointOfInterest.id p))))
      as (item & Hin & Hid & Hs).
    + split; [|done]. apply list_elem_of_fmap. by exists p.
    + by exists item.
  - intros b poi_id Hb Hreq. split; [by apply badges_requiring_elem|].
    intros Hcl Hpos score. by apply add_share_unclaimed.
  - intros b Hb Hne Hnone n.
    pose proof (remaining_nothing_claimed db visits_by_poi b Hnone) as Hrem.
    fold n in Hrem.
    assert (0 < n)%nat as Hn.
    { unfold n. destruct (Scoring.required_pois db (Badge.id b)); [done|].
      simpl. lia. }
    assert (Z.to_pos (Z.of_nat n) = Pos.of_nat n) as Hpos.
    { destruct n; [lia|]. cbn [Z.of_nat Z.to_pos]. apply Pos.of_nat_succ. }
    assert (∀ poi_id, poi_id ∈ Scoring.required_pois db (Badge.id b) →
              Scoring64.add_share db visits_by_poi poi_id Float.zero b
              = Float.of_ratio 100 (Pos.of_nat n)) as Hshare.
    { intros poi_id Hreq.
      rewrite add_share_unclaimed by (try apply Hnone; try done; lia).
      rewrite Hrem, Hpos. apply add_zero_of_ratio. }
    split; [exact Hrem|]. split.
    + intros poi_id Hbadges. unfold expected, Scoring64.expected_score.
      rewrite Hbadges. cbn [foldl].
      rewrite add_share_unclaimed.
      * rewrite Hrem, Hpos. apply add_zero_of_ratio.
      * apply Hnone.
        assert (b ∈ Scoring64.badges_requiring db active_badges poi_id) as Hin
          by (rewrite Hbadges; by left).
        unfold Scoring64.badges_requiring in Hin.
        apply list_elem_of_bind in Hin as (req & Hin & Hreq).
        case_decide as Hp; [|by apply elem_of_nil in Hin].
        apply list_elem_of_filter in Hin as [Hid _].
        apply (elem_of_grouped fst snd). by exists req.
      * lia.
    + intros H5. split.
      * intros poi_id Hreq. rewrite (Hshare poi_id Hreq), H5.
        vm_compute. reflexivity.
      * unfold Scoring64.total_contribution.
        rewrite (map_ext_in _ (λ _, Float.of_ratio 100 (Pos.of_nat n))).
        2:{ intros poi_id Hin. apply Hshare. by apply list_elem_of_In. }
        rewrite H5. unfold n in H5.
        destruct (Scoring.required_pois db (Badge.id b))
          as [|p1 [|p2 [|p3 [|p4 [|p5 [|p6 l]]]]]]; try discriminate.
        vm_compute. reflexivity.
Qed.

(** A badge requiring five POIs, none of them visited: each POI is
    scored 20 and the five shares sum to 100. *)
Lemma scoring_share_witness :
  let b := Badge.mk 7 None None false in
  let poi i := PointOfInterest.mk i "" None None in
  let db := mk_db [] [b] [(7, 1); (7, 2); (7, 3); (7, 4); (7, 5)]
              [poi 1; poi 2; poi 3; poi 4; poi 5] in
  ∃ base,
    Scoring64.calculate_poi_scores db [b] ∅ = Some base ∧
    map (λ item, (PointOfInterest.id (Scoring64.poi item), Scoring64.score item))
      base
    = map (λ i, (i, Float.of_int 20)) [1; 2; 3; 4; 5] ∧
    (∀ item, item ∈ base →
       Scoring64.score item
       = Scoring64.expected_score db [b] ∅
           (PointOfInterest.id (Scoring64.poi item))) ∧
    (∀ poi_id, poi_id ∈ [1; 2; 3; 4; 5] →
       Scoring64.add_share db ∅ poi_id Float.zero b = Float.of_int 20) ∧
    Scoring64.total_contribution db ∅ b = Float.of_int 100.
Proof.
  intros b poi db.
  assert (NoDup (map Badge.id [b])) as Hnd by (apply NoDup_singleton).
  destruct (scoring_share db [b] ∅ Hnd)
    as (base & Hbase & Hitems & _ & _ & Hbadge).
  exists base. split; [exact Hbase|].
  split.
  { pose proof Hbase as Hval. vm_compute in Hval. injection Hval as <-.
    vm_compute. reflexivity. }
  split; [intros item Hin; by apply Hitems|].
  destruct (Hbadge b) as (_ & _ & Hfive).
  - by left.
  - done.
  - intros poi_id _ (visit_dates & Hv & _). by rewrite lookup_empty in Hv.
  - exact (Hfive eq_refl).
Defined.

(** The claim as the specification words it fails on a badge requiring
    six POIs, none of them visited: each POI is scored the double
    nearest to 100/6, which is not 100/6, and the six shares sum to the
    double after 100, in double and in exact addition alike. *)
Lemma scoring_share_counterexample :
  let b := Badge.mk 7 None None false in
  let poi i := PointOfInterest.mk i "" None None in
  let db := mk_db [] [b] [(7, 1); (7, 2); (7, 3); (7, 4); (7, 5); (7, 6)]
              [poi 1; poi 2; poi 3; poi 4; poi 5; poi 6] in
  let share := Float.of_ratio 100 6 in
  Scoring64.remaining db ∅ b = 6 ∧
  map Scoring64.score <$> Scoring64.calculate_poi_scores db [b] ∅
  = Some (replicate 6 share) ∧
  (∃ q, Float.to_Q share = Some q ∧ ¬ (q == 100 / 6)%Q ∧ ¬ (6 * q == 100)%Q) ∧
  Scoring64.total_contribution db ∅ b ≠ Float.of_int 100 ∧
  Float.ltb (Float.of_int 100) (Scoring64.total_contribution db ∅ b) = true.
Proof.
  intros b poi db share.
  split; [by vm_compute|]. split; [by vm_compute|]. split.
  - eexists. split; [reflexivity|].
    split; intros H; apply Qeq_bool_iff in H; by vm_compute in H.
  - split; [|by vm_compute]. intros H. by vm_compute in H.
Qed.

(** ** The "Everest" loop on doubles *)

Section everest64_facts.
Import Trip64.

Lemma minimum64_snoc pre x :
  pre ≠ [] → minimum (pre ++ [x]) = Float.min (minimum pre) x.
Proof.
  destruct pre as [|y pre]; [done|]. intros _. simpl. by rewrite foldl_app.
Qed.

Lemma climb64_prefix pre rest i :
  (i < length pre)%nat → climb (pre ++ rest) i = climb pre i.
Proof.
  intros Hi. unfold climb.
  rewrite app_nth1 by done.
  rewrite take_app_le by lia. done.
Qed.

Lemma climb64_last pre x :
  climb (pre ++ [x]) (length pre) = Float.sub x (minimum pre).
Proof.
  unfold climb. rewrite app_nth2 by lia. rewrite Nat.sub_diag. simpl.
  by rewrite take_app_length.
Qed.

Lemma climbs64_snoc pre x :
  pre ≠ [] → climbs (pre ++ [x]) = climbs pre ++ [Float.sub x (minimum pre)].
Proof.
  intros Hpre. unfold climbs. rewrite length_app. simpl.
  assert (length pre ≠ 0)%nat as Hlen by (by destruct pre).
  replace (length pre + 1 - 1)%nat with (S (length pre - 1)) by lia.
  rewrite seq_S, map_app. simpl.
  replace (S (length pre - 1)) with (length pre) by lia.
  rewrite climb64_last. f_equal.
  apply map_ext_in. intros i Hi. apply in_seq in Hi.
  apply climb64_prefix. lia.
Qed.

(** The loop keeps the greatest of 0 and the climbs met so far, and the
    lowest elevation met so far. *)
Lemma everest64_loop rest : ∀ pre mx mn,
  pre ≠ [] →
  mx = foldl Float.max Float.zero (climbs pre) →
  mn = minimum pre →
  (foldl everest_step (mx, mn) rest).1
  = foldl Float.max Float.zero (climbs (pre ++ rest)).
Proof.
  induction rest as [|x rest IH]; intros pre mx mn Hpre Hmx Hmn.
  - simpl. by rewrite app_nil_r.
  - cbn [foldl]. unfold everest_step at 2. cbn [fst snd].
    replace (pre ++ x :: rest) with ((pre ++ [x]) ++ rest)
      by (by rewrite <- app_assoc).
    apply IH.
    + by destruct pre.
    + rewrite climbs64_snoc by done. rewrite foldl_app. cbn [foldl].
      by rewrite Hmx, Hmn.
    + rewrite minimum64_snoc by done. by rewrite Hmn.
Qed.

Lemma everest64_diff_fold points :
  (2 ≤ length points)%nat →
  everest_diff points
  = foldl Float.max Float.zero (climbs (map elevation_of points)).
Proof.
  intros Hlen. unfold everest_diff.
  destruct (Nat.ltb_spec 1 (length points)) as [_|?]; [|lia].
  destruct points as [|p points]; [simpl in Hlen; lia|].
  cbn [map].
  by apply (everest64_loop (map elevation_of points) [elevation_of p]).
Qed.

Lemma minimum64_finite l :
  l ≠ [] → Forall (λ x, Float.is_finite x = true) l →
  Float.is_finite (minimum l) = true.
Proof.
  destruct l as [|x l]; [done|]. intros _ Hl.
  apply Forall_cons in Hl as [Hx Hl]. simpl.
  revert x Hx. induction Hl as [|y l Hy Hl IH]; intros x Hx; simpl; [done|].
  apply IH. by destruct (min_cases x y) as [-> | ->].
Qed.

(** The climbs of a profile of finite elevations are not [nan]. *)
Lemma climbs64_not_nan e :
  Forall (λ x, Float.is_finite x = true) e →
  Forall (λ c, Float.is_nan c = false) (climbs e).
Proof.
  intros He. unfold climbs. apply Forall_forall. intros c Hc.
  apply list_elem_of_In, in_map_iff in Hc as (i & <- & Hi).
  apply in_seq in Hi. unfold climb. apply sub_not_nan.
  - destruct (nth_lookup_or_length e i Float.zero) as [Hn|?]; [|lia].
    by apply (Forall_lookup_1 _ _ _ _ He Hn).
  - apply minimum64_finite.
    + destruct e; [simpl in Hi; lia|]. destruct i; [lia | done].
    + by apply Forall_take.
Qed.

Lemma everest64_diff_spec points :
  (2 ≤ length points)%nat →
  Forall (λ x, Float.is_finite x = true) (map elevation_of points) →
  everest_diff points
  = Float.max Float.zero (maximum (climbs (map elevation_of points))).
Proof.
  intros Hlen Hfin. rewrite everest64_diff_fold by done.
  pose proof (climbs64_not_nan _ Hfin) as Hnan.
  destruct (climbs (map elevation_of points)) as [|c cs] eqn:Hcs.
  { unfold climbs in Hcs. rewrite length_map in Hcs.
    destruct (length points) as [|[|n]]; [lia..|done]. }
  apply Forall_cons in Hnan as [Hc Hcs']. cbn [foldl maximum].
  by apply foldl_max_assoc.
Qed.
End everest64_facts.

(** C2 (as the code has it): for a trip whose concatenated,
    sequence-ordered elevation profile [e] has at least 2 points, all of
    them finite, the "Everest" block leaves the greater of 0 and the
    largest climb [e[i] - min(e[0..i-1])] over [i = 1..n-1], each climb
    being the difference of two doubles, and the [everest_diff_m]
    persisted when the recalculation completes is the [round] of it; the
    profile [100, 150, 120, 200, 90, 300] yields 210. *)
Theorem everest_diff_m_spec (trip : Trip64.t) :
  (2 ≤ length (Trip64.elevation_profile trip))%nat →
  Forall (λ x, Float.is_finite x = true) (Trip64.elevation_profile trip) →
  let largest_climb := Trip64.maximum (Trip64.climbs (Trip64.elevation_profile trip)) in
  Trip64.everest_diff
    (Trip64.all_points_in_order (Trip64.order_by_sequence (Trip64.gpx_paths trip)))
  = Float.max Float.zero largest_climb
  ∧ ∀ trip', Trip64.recalculate_trip_stats trip = Some trip' →
      Float.round (Float.max Float.zero largest_climb)
      = Some (Trip64.everest_diff_m trip')
      ∧ (Trip64.elevation_profile trip
         = map Float.of_int [100; 150; 120; 200; 90; 300] →
         Trip64.everest_diff_m trip' = 210).
Proof.
  intros Hlen Hfin largest_climb.
  assert (Trip64.everest_diff
            (Trip64.all_points_in_order
               (Trip64.order_by_sequence (Trip64.gpx_paths trip)))
          = Float.max Float.zero largest_climb) as Hblock.
  { unfold largest_climb, Trip64.elevation_profile in *.
    rewrite length_map in Hlen. by apply everest64_diff_spec. }
  split; [exact Hblock|]. intros trip' Hrec.
  assert (Float.round (Float.max Float.zero largest_climb)
          = Some (Trip64.everest_diff_m trip')) as Heq.
  { unfold Trip64.recalculate_trip_stats in Hrec.
    destruct (Trip64.totals_loop _ _ _) as [[total_distance total_elevation]|];
      [|done].
    rewrite Hblock in Hrec.
    destruct (Float.floor total_distance); [|done].
    destruct (Float.floor (Float.of_ratio total_elevation 100)); [|done].
    destruct (Float.round (Float.max Float.zero largest_climb)); [|done].
    injection Hrec as Hrec. by subst trip'. }
  split; [exact Heq|].
  intros Hprofile. unfold largest_climb in Heq. rewrite Hprofile in Heq.
  assert (Float.round
            (Float.max Float.zero
               (Trip64.maximum
                  (Trip64.climbs (map Float.of_int [100; 150; 120; 200; 90; 300]))))
          = Some 210) as H210 by (vm_compute; reflexivity).
  congruence.
Qed.

(** A trip of two segments stored out of order whose profile is
    [100, 150, 120, 200, 90, 300]. *)
Lemma everest_diff_m_spec_witness :
  let path l := Some (map (λ e, (Float.of_int 20, Float.of_int 49, Float.of_int e)) l) in
  let trip :=
    Trip64.mk [Trip64.mk_segment 2 None (path [200; 90; 300]) None;
               Trip64.mk_segment 1 None (path [100; 150; 120]) None]
      Float.zero 0 0 0 in
  ∃ trip',
    Trip64.recalculate_trip_stats trip = Some trip' ∧
    Trip64.elevation_profile trip = map Float.of_int [100; 150; 120; 200; 90; 300] ∧
    Trip64.everest_diff_m trip' = 210.
Proof.
  intros path trip.
  assert (Trip64.elevation_profile trip
          = map Float.of_int [100; 150; 120; 200; 90; 300]) as Hp by reflexivity.
  destruct (Trip64.recalculate_trip_stats trip) as [trip'|] eqn:Hrec;
    [|by vm_compute in Hrec].
  exists trip'. split; [done|]. split; [exact Hp|].
  destruct (everest_diff_m_spec trip) as [_ Hpersisted].
  - rewrite Hp. simpl. lia.
  - rewrite Hp. by repeat constructor.
  - by apply (Hpersisted trip' Hrec).
Defined.

(** The claim as the specification words it, the rounded maximum of the
    climbs, fails on a descending profile: the largest climb of
    [100, 50] is -50 and the trip gets 0. *)
Lemma everest_diff_m_counterexample :
  let trip :=
    Trip64.mk [Trip64.mk_segment 1 None
                 (Some [(Float.of_int 20, Float.of_int 49, Float.of_int 100);
                        (Float.of_int 20, Float.of_int 49, Float.of_int 50)])
                 None] Float.zero 0 0 0 in
  (2 ≤ length (Trip64.elevation_profile trip))%nat ∧
  Trip64.everest_diff_m <$> Trip64.recalculate_trip_stats trip = Some 0 ∧
  Float.round (Trip64.maximum (Trip64.climbs (Trip64.elevation_profile trip)))
  = Some (-50).
Proof.
  intros trip. split; [simpl; lia|]. split; vm_compute; reflexivity.
Qed.

(** ** The totals of a trip on doubles *)

Section totals64_facts.
Import Trip64.

End totals64_facts.



(** The floor is taken of the running double sum, not of the rounded
    total persisted next to it: segments of 4970 m, 6090 m and 3940 m
    sum to 14.999999999999998 km, so the trip is stored with 15.0 km and
    14 points; a segment of 8995 m is stored with 8.99 km and 8 points. *)
Lemma got_points_of_unrounded_distance :
  let segment n len :=
    Trip64.mk_segment n
      (Some (Trip64.Parsed (Trip64.mk_gpx (Float.of_int len)
                              (Float.zero, Float.zero)))) None None in
  let stored segments :=
    (λ trip', (Trip64.total_distance_km trip', Trip64.got_points trip'))
    <$> Trip64.recalculate_trip_stats (Trip64.mk segments Float.zero 0 0 0) in
  stored [segment 1 4970; segment 2 6090; segment 3 3940]
  = Some (Float.of_int 15, 14) ∧
  stored [segment 1 8995] = Some (Float.of_ratio 899 100, 8).
Proof.
  intros segment stored. split; vm_compute; reflexivity.
Qed.
